(** * Memory pool allocator (apps/intermediate/memory_pool/src/memory_pool.c)

    A shallow embedding of the arena allocator and the properties its
    design document states about it.

    Modelling conventions.
    - [size_t] and pointers are 64-bit: values are [Z] and every
      arithmetic result is reduced with [wrap] (modulo 2^64).  [NULL] is 0.
    - The region is a finite map from addresses to block headers; a header
      is read and written as one record at its address.  Reading an address
      that holds no header yields the all-zero header (the mapping is
      zero-filled), which fails [validate_block].
    - The structure [MemoryPool] lives outside the region.  A [World] pairs
      the caller's pool structure ([None] stands for a NULL [MemoryPool*])
      with the contents of the region.
    - Loops whose termination depends on the shape of the linked lists
      carry fuel; running out of fuel is the result [None] (the C loop does
      not return).
    - [log_message] calls are dropped, except that [memory_pool_free]
      returns which of its messages it logged.
    - The bytes inside a header are not modelled, and clients only call
      the allocator.  The model therefore follows the C program on the runs
      in which no header is written across another one; in the scripts
      evaluated below all headers lie at least [sizeof(BlockHeader)] bytes
      apart. *)

From Stdlib Require Import ZArith Lia String Bool List.
From stdpp Require Import base option list gmap.

Local Open Scope Z_scope.

(** ** Machine arithmetic *)

Definition wrap (z : Z) : Z := z mod 2 ^ 64.

Definition NULL : Z := 0.

(** ** Constants of the source *)

Definition DEFAULT_ALIGNMENT : Z := 8.
Definition MIN_BLOCK_SIZE : Z := 16.
Definition POOL_SIGNATURE : Z := 0xDEADBEEF.
Definition BLOCK_SIGNATURE : Z := 0xCAFEBABE.
Definition MAX_FREE_LISTS : Z := 32.

(** [sizeof(BlockHeader)] on an LP64 target: [uint32_t] (4, padded to 8),
    [size_t] (8), [bool] (1, padded to 8), two pointers (8 + 8),
    [uint32_t] (4, padded to 8). *)
Definition sizeof_BlockHeader : Z := 48.

(** ** Data model *)

Record BlockHeader := mkBlockHeader {
  signature : Z;
  size : Z;
  is_free : bool;
  next : Z;
  prev : Z;
  magic : Z
}.

Record FreeList := mkFreeList {
  block_size : Z;
  head : Z;
  count : Z
}.

Record MemoryPool := mkMemoryPool {
  pool_signature : Z;
  memory : Z;
  total_size : Z;
  used_size : Z;
  peak_usage : Z;
  alignment : Z;
  num_allocations : Z;
  num_deallocations : Z;
  num_blocks : Z;
  fragmentation_count : Z;
  free_lists : list FreeList;
  first_block : Z;
  enable_debugging : bool;
  name : string
}.

Record World := mkWorld {
  pool : option MemoryPool;
  heap : gmap Z BlockHeader
}.

(** *** Field updates *)

Definition set_size (v : Z) (b : BlockHeader) : BlockHeader :=
  mkBlockHeader (signature b) v (is_free b) (next b) (prev b) (magic b).
Definition set_is_free (v : bool) (b : BlockHeader) : BlockHeader :=
  mkBlockHeader (signature b) (size b) v (next b) (prev b) (magic b).
Definition set_next (v : Z) (b : BlockHeader) : BlockHeader :=
  mkBlockHeader (signature b) (size b) (is_free b) v (prev b) (magic b).
Definition set_prev (v : Z) (b : BlockHeader) : BlockHeader :=
  mkBlockHeader (signature b) (size b) (is_free b) (next b) v (magic b).

Definition set_head (v : Z) (l : FreeList) : FreeList :=
  mkFreeList (block_size l) v (count l).
Definition set_count (v : Z) (l : FreeList) : FreeList :=
  mkFreeList (block_size l) (head l) v.

Definition set_used_size (v : Z) (p : MemoryPool) : MemoryPool :=
  mkMemoryPool (pool_signature p) (memory p) (total_size p) v (peak_usage p)
    (alignment p) (num_allocations p) (num_deallocations p) (num_blocks p)
    (fragmentation_count p) (free_lists p) (first_block p)
    (enable_debugging p) (name p).
Definition set_peak_usage (v : Z) (p : MemoryPool) : MemoryPool :=
  mkMemoryPool (pool_signature p) (memory p) (total_size p) (used_size p) v
    (alignment p) (num_allocations p) (num_deallocations p) (num_blocks p)
    (fragmentation_count p) (free_lists p) (first_block p)
    (enable_debugging p) (name p).
Definition set_num_allocations (v : Z) (p : MemoryPool) : MemoryPool :=
  mkMemoryPool (pool_signature p) (memory p) (total_size p) (used_size p)
    (peak_usage p) (alignment p) v (num_deallocations p) (num_blocks p)
    (fragmentation_count p) (free_lists p) (first_block p)
    (enable_debugging p) (name p).
Definition set_num_deallocations (v : Z) (p : MemoryPool) : MemoryPool :=
  mkMemoryPool (pool_signature p) (memory p) (total_size p) (used_size p)
    (peak_usage p) (alignment p) (num_allocations p) v (num_blocks p)
    (fragmentation_count p) (free_lists p) (first_block p)
    (enable_debugging p) (name p).
Definition set_num_blocks (v : Z) (p : MemoryPool) : MemoryPool :=
  mkMemoryPool (pool_signature p) (memory p) (total_size p) (used_size p)
    (peak_usage p) (alignment p) (num_allocations p) (num_deallocations p) v
    (fragmentation_count p) (free_lists p) (first_block p)
    (enable_debugging p) (name p).
Definition set_free_lists (v : list FreeList) (p : MemoryPool) : MemoryPool :=
  mkMemoryPool (pool_signature p) (memory p) (total_size p) (used_size p)
    (peak_usage p) (alignment p) (num_allocations p) (num_deallocations p)
    (num_blocks p) (fragmentation_count p) v (first_block p)
    (enable_debugging p) (name p).

(** *** Region accesses *)

Definition zero_block : BlockHeader := mkBlockHeader 0 0 false 0 0 0.

Definition load (m : gmap Z BlockHeader) (a : Z) : BlockHeader :=
  default zero_block (m !! a).

Definition store (a : Z) (f : BlockHeader -> BlockHeader)
    (m : gmap Z BlockHeader) : gmap Z BlockHeader :=
  <[a := f (load m a)]> m.

(** *** Free-list array accesses: [pool->free_lists[i]] *)

Definition zero_list : FreeList := mkFreeList 0 0 0.

Definition free_list (p : MemoryPool) (i : Z) : FreeList :=
  default zero_list (free_lists p !! Z.to_nat i).

Definition set_free_list (i : Z) (f : FreeList -> FreeList)
    (p : MemoryPool) : MemoryPool :=
  set_free_lists (<[Z.to_nat i := f (free_list p i)]> (free_lists p)) p.

(** *** World updates *)

Definition with_heap (m : gmap Z BlockHeader) (w : World) : World :=
  mkWorld (pool w) m.
Definition upd_pool (f : MemoryPool -> MemoryPool) (w : World) : World :=
  mkWorld (f <$> pool w) (heap w).

(** Fuel of the loops over linked blocks.  A null-terminated list threaded
    through the region has fewer nodes (every node but possibly the last
    holds a header, see [list_nodes_fuel]), and on well-formed states the
    loops of [coalesce_blocks] merge fewer times (see [free_returns]). *)
Definition list_fuel (m : gmap Z BlockHeader) : nat := S (S (base.size m)).

(** ** Operations *)

(** [align_size]: [(size + alignment - 1) & ~(alignment - 1)]. *)
Definition align_size (size alignment : Z) : Z :=
  Z.land (wrap (size + alignment - 1)) (wrap (Z.lnot (wrap (alignment - 1)))).

(** The doubling loop of [get_free_list_index]; it runs at most 22 times
    because [index] starts at 9 and stops at 31. *)
Fixpoint index_loop (fuel : nat) (size index threshold : Z) : Z :=
  match fuel with
  | O => index
  | S fuel' =>
      if (index <? MAX_FREE_LISTS - 1) && (threshold <? size)
      then index_loop fuel' size (index + 1) (wrap (threshold * 2))
      else index
  end.

Definition get_free_list_index (size : Z) : Z :=
  if size <=? 16 then 0
  else if size <=? 32 then 1
  else if size <=? 64 then 2
  else if size <=? 128 then 3
  else if size <=? 256 then 4
  else if size <=? 512 then 5
  else if size <=? 1024 then 6
  else if size <=? 2048 then 7
  else if size <=? 4096 then 8
  else index_loop 22 size 9 8192.

(** The operating system as [memory_pool_init] sees it: the page size and
    the outcome of [mmap] for a given length ([None] is [MAP_FAILED]). *)
Record OS := mkOS {
  getpagesize : Z;
  mmap : Z -> option Z
}.

Definition empty_lists : list FreeList :=
  replicate (Z.to_nat MAX_FREE_LISTS) zero_list.

(** [memory_pool_init].  The result is the returned flag and the world
    after the call. *)
Definition memory_pool_init (os : OS) (w : World)
    (size alignment : Z) (name : option string) : bool * World :=
  match pool w with
  | None => (false, w)
  | Some _ =>
      if size =? 0 then (false, w) else
      let size := align_size size (getpagesize os) in
      match mmap os size with
      | None => (false, w)
      | Some memory =>
          let initial_size := wrap (size - sizeof_BlockHeader) in
          let initial_block :=
            mkBlockHeader BLOCK_SIGNATURE initial_size
                          true NULL NULL BLOCK_SIGNATURE in
          let p :=
            mkMemoryPool POOL_SIGNATURE memory size 0 0
              (if 0 <? alignment then alignment else DEFAULT_ALIGNMENT)
              0 0 1 0 empty_lists memory false
              (match name with
               | Some s => String.substring 0 63 s
               | None => "unnamed"%string
               end) in
          let list_index := get_free_list_index initial_size in
          let p :=
            set_free_list list_index (fun l => set_count 1 (set_head memory l)) p in
          (true, mkWorld (Some p) {[ memory := initial_block ]})
      end
  end.

(** [validate_block]. *)
Definition validate_block (m : gmap Z BlockHeader) (block : Z) : bool :=
  if block =? NULL then false
  else
    let b := load m block in
    (signature b =? BLOCK_SIGNATURE) && (magic b =? BLOCK_SIGNATURE)
    && (0 <? size b).

(** [split_block].  Returns the new block (or [NULL]) and the world. *)
Definition split_block (w : World) (block requested_size : Z) : Z * World :=
  match pool w with
  | None => (NULL, w)
  | Some p =>
      if (block =? NULL) || negb (validate_block (heap w) block)
      then (NULL, w)
      else
        let m := heap w in
        let aligned_size := align_size requested_size (alignment p) in
        let remaining_size := wrap (size (load m block) - aligned_size) in
        if remaining_size <? sizeof_BlockHeader + MIN_BLOCK_SIZE
        then (NULL, w)
        else
          let new_block := wrap (block + sizeof_BlockHeader + aligned_size) in
          let m :=
            <[new_block :=
                mkBlockHeader BLOCK_SIGNATURE
                  (wrap (remaining_size - sizeof_BlockHeader))
                  true NULL block BLOCK_SIGNATURE]> m in
          let m := store block (set_size aligned_size) m in
          let m :=
            if next (load m block) =? NULL then m
            else
              let m := store (next (load m block)) (set_prev new_block) m in
              store new_block (set_next (next (load m block))) m in
          let m := store block (set_next new_block) m in
          (new_block,
           mkWorld (Some (set_num_blocks (wrap (num_blocks p + 1)) p)) m)
  end.

(** First loop of [coalesce_blocks]: merge with the following blocks. *)
Fixpoint coalesce_next (fuel : nat) (w : World) (block : Z) : option World :=
  match fuel with
  | O => None
  | S fuel' =>
      let m := heap w in
      let next_block := next (load m block) in
      if negb (next_block =? NULL) && is_free (load m next_block)
         && validate_block m next_block
      then
        let block_end :=
          wrap (block + sizeof_BlockHeader + size (load m block)) in
        if block_end =? next_block then
          let m :=
            store block
              (set_size (wrap (size (load m block) + sizeof_BlockHeader
                               + size (load m next_block)))) m in
          let m := store block (set_next (next (load m next_block))) m in
          let m :=
            if next (load m next_block) =? NULL then m
            else store (next (load m next_block)) (set_prev block) m in
          let w :=
            upd_pool (fun p => set_num_blocks (wrap (num_blocks p - 1)) p)
                     (with_heap m w) in
          coalesce_next fuel' w block
        else Some w
      else Some w
  end.

(** Second loop of [coalesce_blocks]: merge into the preceding blocks. *)
Fixpoint coalesce_prev (fuel : nat) (w : World) (block : Z)
    : option (Z * World) :=
  match fuel with
  | O => None
  | S fuel' =>
      let m := heap w in
      let prev_block := prev (load m block) in
      if negb (prev_block =? NULL) && is_free (load m prev_block)
         && validate_block m prev_block
      then
        let prev_end :=
          wrap (prev_block + sizeof_BlockHeader + size (load m prev_block)) in
        if prev_end =? block then
          let m :=
            store prev_block
              (set_size (wrap (size (load m prev_block) + sizeof_BlockHeader
                               + size (load m block)))) m in
          let m := store prev_block (set_next (next (load m block))) m in
          let m :=
            if next (load m block) =? NULL then m
            else store (next (load m block)) (set_prev prev_block) m in
          let w :=
            upd_pool (fun p => set_num_blocks (wrap (num_blocks p - 1)) p)
                     (with_heap m w) in
          coalesce_prev fuel' w prev_block
        else Some (block, w)
      else Some (block, w)
  end.

(** [coalesce_blocks]. *)
Definition coalesce_blocks (w : World) (block : Z) : option (Z * World) :=
  match pool w with
  | None => Some (block, w)
  | Some _ =>
      if (block =? NULL) || negb (validate_block (heap w) block)
         || negb (is_free (load (heap w) block))
      then Some (block, w)
      else
        match coalesce_next (list_fuel (heap w)) w block with
        | None => None
        | Some w => coalesce_prev (list_fuel (heap w)) w block
        end
  end.

(** [remove_from_free_list]. *)
Definition remove_from_free_list (w : World) (block list_index : Z) : World :=
  match pool w with
  | None => w
  | Some p =>
      if (block =? NULL) || (MAX_FREE_LISTS <=? list_index) then w
      else
        let m := heap w in
        let p :=
          if head (free_list p list_index) =? block
          then set_free_list list_index (set_head (next (load m block))) p
          else p in
        let m :=
          if next (load m block) =? NULL then m
          else store (next (load m block)) (set_prev (prev (load m block))) m in
        let m :=
          if prev (load m block) =? NULL then m
          else store (prev (load m block)) (set_next (next (load m block))) m in
        let p :=
          set_free_list list_index
            (fun l => set_count (wrap (count l - 1)) l) p in
        let m := store block (set_next NULL) m in
        let m := store block (set_prev NULL) m in
        mkWorld (Some p) m
  end.

(** [add_to_free_list]. *)
Definition add_to_free_list (w : World) (block : Z) : World :=
  match pool w with
  | None => w
  | Some p =>
      if (block =? NULL) || negb (validate_block (heap w) block) then w
      else
        let m := heap w in
        let list_index := get_free_list_index (size (load m block)) in
        let list_head := head (free_list p list_index) in
        let m := store block (set_next list_head) m in
        let m := store block (set_prev NULL) m in
        let m :=
          if list_head =? NULL then m
          else store list_head (set_prev block) m in
        let p :=
          set_free_list list_index
            (fun l => set_count (wrap (count l + 1)) (set_head block l)) p in
        mkWorld (Some p) m
  end.

(** Inner loop of the search in [memory_pool_alloc]: one bucket's list,
    starting at [block], with the best candidate so far.  The result is the
    pair [(best_block, best_list_index)] when the loop is left. *)
Fixpoint scan_bucket (fuel : nat) (m : gmap Z BlockHeader)
    (aligned_size i block best_block best_list_index : Z) : option (Z * Z) :=
  match fuel with
  | O => None
  | S fuel' =>
      if block =? NULL then Some (best_block, best_list_index)
      else
        let continue := scan_bucket fuel' m aligned_size i (next (load m block)) in
        if validate_block m block && is_free (load m block)
           && (aligned_size <=? size (load m block))
        then
          if (best_block =? NULL)
             || (size (load m block) <? size (load m best_block))
          then
            if size (load m block) =? aligned_size
            then Some (block, i)
            else continue block i
          else continue best_block best_list_index
        else continue best_block best_list_index
  end.

(** Outer loop of the search: buckets [i], [i+1], ... for [n] indices. *)
Fixpoint scan_lists (n : nat) (p : MemoryPool) (m : gmap Z BlockHeader)
    (aligned_size i best_block best_list_index : Z) : option (Z * Z) :=
  match n with
  | O => Some (best_block, best_list_index)
  | S n' =>
      match scan_bucket (list_fuel m) m aligned_size i
              (head (free_list p i)) best_block best_list_index with
      | None => None
      | Some (best_block, best_list_index) =>
          if negb (best_block =? NULL)
             && (size (load m best_block) =? aligned_size)
          then Some (best_block, best_list_index)
          else scan_lists n' p m aligned_size (i + 1)
                          best_block best_list_index
      end
  end.

(** The whole search of [memory_pool_alloc] for an aligned size. *)
Definition find_best_block (p : MemoryPool) (m : gmap Z BlockHeader)
    (aligned_size : Z) : option (Z * Z) :=
  let start := get_free_list_index aligned_size in
  scan_lists (Z.to_nat (MAX_FREE_LISTS - start)) p m aligned_size start NULL 0.

(** Body of [memory_pool_alloc]; besides the world it yields the locals
    [best_block] and [split_result] ([best_block] is [NULL] on the paths
    that return [NULL]). *)
Definition alloc_body (w : World) (sz : Z) : option (Z * Z * World) :=
  match pool w with
  | None => Some (NULL, NULL, w)
  | Some p =>
      if negb (pool_signature p =? POOL_SIGNATURE) || (sz =? 0)
      then Some (NULL, NULL, w)
      else
        let aligned_size := align_size sz (alignment p) in
        let total := wrap (aligned_size + sizeof_BlockHeader) in
        if wrap (total_size p - used_size p) <? total
        then Some (NULL, NULL, w)
        else
          match find_best_block p (heap w) aligned_size with
          | None => None
          | Some (best_block, best_list_index) =>
              if best_block =? NULL then Some (NULL, NULL, w)
              else
                let w := remove_from_free_list w best_block best_list_index in
                let '(split_result, w) := split_block w best_block aligned_size in
                let w :=
                  if split_result =? NULL then w
                  else add_to_free_list w split_result in
                let w :=
                  with_heap (store best_block (set_is_free false) (heap w)) w in
                let w :=
                  upd_pool
                    (fun p =>
                       set_num_allocations (wrap (num_allocations p + 1))
                         (set_used_size
                            (wrap (used_size p + size (load (heap w) best_block)))
                            p)) w in
                let w :=
                  upd_pool
                    (fun p =>
                       if peak_usage p <? used_size p
                       then set_peak_usage (used_size p) p else p) w in
                Some (best_block, split_result, w)
          end
  end.

(** [memory_pool_alloc]: the returned pointer and the world. *)
Definition memory_pool_alloc (w : World) (sz : Z) : option (Z * World) :=
  match alloc_body w sz with
  | None => None
  | Some (best_block, _, w') =>
      Some (if best_block =? NULL then NULL
            else wrap (best_block + sizeof_BlockHeader), w')
  end.

(** What [memory_pool_free] reported: nothing (null pool, bad pool
    signature or null pointer), "Invalid block header for free",
    "Double free detected", or nothing because the block was freed. *)
Inductive FreeReport :=
  | FreeIgnored
  | FreeInvalidHeader
  | FreeDoubleFree
  | FreeDone.

#[global] Instance FreeReport_eq_dec : EqDecision FreeReport.
Proof. solve_decision. Defined.

(** [memory_pool_free]. *)
Definition memory_pool_free (w : World) (ptr : Z)
    : option (FreeReport * World) :=
  match pool w with
  | None => Some (FreeIgnored, w)
  | Some p =>
      if negb (pool_signature p =? POOL_SIGNATURE) || (ptr =? NULL)
      then Some (FreeIgnored, w)
      else
        let block := wrap (ptr - sizeof_BlockHeader) in
        if negb (validate_block (heap w) block)
        then Some (FreeInvalidHeader, w)
        else if is_free (load (heap w) block)
        then Some (FreeDoubleFree, w)
        else
          let w :=
            upd_pool
              (fun p =>
                 set_num_deallocations (wrap (num_deallocations p + 1))
                   (set_used_size
                      (wrap (used_size p - size (load (heap w) block))) p)) w in
          let w := with_heap (store block (set_is_free true) (heap w)) w in
          match coalesce_blocks w block with
          | None => None
          | Some (block, w) => Some (FreeDone, add_to_free_list w block)
          end
  end.

(** The walk of [validate_pool].  [Some u] is the in-use total when the
    walk reaches [NULL]; [None] is a [return false] inside the loop.  The
    loop body runs at most 10001 times (then [total_blocks > 10000]). *)
Fixpoint validate_walk (fuel : nat) (m : gmap Z BlockHeader)
    (current total_blocks calculated_used : Z) : option Z :=
  match fuel with
  | O => None
  | S fuel' =>
      if current =? NULL then Some calculated_used
      else if negb (validate_block m current) then None
      else
        let calculated_used :=
          if is_free (load m current) then calculated_used
          else wrap (calculated_used + size (load m current)) in
        let total_blocks := wrap (total_blocks + 1) in
        let current := next (load m current) in
        if 10000 <? total_blocks then None
        else validate_walk fuel' m current total_blocks calculated_used
  end.

(** [validate_pool]. *)
Definition validate_pool (w : World) : bool :=
  match pool w with
  | None => false
  | Some p =>
      if negb (pool_signature p =? POOL_SIGNATURE) then false
      else if (memory p =? NULL) || (total_size p =? 0) then false
      else
        match validate_walk (Z.to_nat 10002) (heap w) (first_block p) 0 0 with
        | None => false
        | Some calculated_used => calculated_used =? used_size p
        end
  end.

(** ** Notions of the design document *)

(** The block chain: the addresses that the walk [current = current->next]
    visits from [current], cut after [fuel] nodes. *)
Fixpoint chain_from (fuel : nat) (m : gmap Z BlockHeader) (current : Z)
    : list Z :=
  match fuel with
  | O => []
  | S fuel' =>
      if current =? NULL then []
      else current :: chain_from fuel' m (next (load m current))
  end.

Definition block_chain (w : World) : list Z :=
  match pool w with
  | None => []
  | Some p => chain_from (list_fuel (heap w)) (heap w) (first_block p)
  end.

(** In-use total and covered length along a list of block addresses. *)
Definition in_use_total (m : gmap Z BlockHeader) (l : list Z) : Z :=
  fold_right
    (fun a acc => if is_free (load m a) then acc else size (load m a) + acc)
    0 l.

Definition covered_length (m : gmap Z BlockHeader) (l : list Z) : Z :=
  fold_right (fun a acc => sizeof_BlockHeader + size (load m a) + acc) 0 l.

(** Two blocks are physically adjacent when the first ends where the
    second begins. *)
Definition adjacent (m : gmap Z BlockHeader) (a b : Z) : bool :=
  a + sizeof_BlockHeader + size (load m a) =? b.

(** Some pair of consecutive entries of [l] is adjacent with both free. *)
Fixpoint has_free_neighbours (m : gmap Z BlockHeader) (l : list Z) : bool :=
  match l with
  | a :: (b :: _) as l' =>
      (is_free (load m a) && is_free (load m b) && adjacent m a b)
      || has_free_neighbours m l'
  | _ => false
  end.

(** Whether a block is a candidate of the search for [aligned_size]. *)
Definition eligible (m : gmap Z BlockHeader) (aligned_size block : Z) : bool :=
  validate_block m block && is_free (load m block)
  && (aligned_size <=? size (load m block)).

(** The nodes of a list threaded through [next], [None] when the list does
    not end within [fuel] steps. *)
Fixpoint list_nodes (fuel : nat) (m : gmap Z BlockHeader) (block : Z)
    : option (list Z) :=
  match fuel with
  | O => None
  | S fuel' =>
      if block =? NULL then Some []
      else cons block <$> list_nodes fuel' m (next (load m block))
  end.

Definition bucket_nodes (p : MemoryPool) (m : gmap Z BlockHeader) (i : Z)
    : option (list Z) :=
  list_nodes (list_fuel m) m (head (free_list p i)).

(** ** Client scripts *)

(** A call of the client: allocate [sz] bytes, or free the pointer that
    the [k]-th allocation of the script returned. *)
Inductive Call :=
  | Alloc (sz : Z)
  | Free (k : nat).

Fixpoint run_calls (calls : list Call) (w : World) (ptrs : list Z)
    : option (World * list Z) :=
  match calls with
  | [] => Some (w, ptrs)
  | Alloc sz :: calls' =>
      match memory_pool_alloc w sz with
      | None => None
      | Some (ptr, w') => run_calls calls' w' (ptrs ++ [ptr])
      end
  | Free k :: calls' =>
      match memory_pool_free w (nth k ptrs NULL) with
      | None => None
      | Some (_, w') => run_calls calls' w' ptrs
      end
  end.

(** States reachable from a successful [memory_pool_init] by calls of
    [memory_pool_alloc] and [memory_pool_free] that return. *)
Inductive reachable (os : OS) : World -> Prop :=
  | reach_init w0 sz al nm w :
      memory_pool_init os w0 sz al nm = (true, w) -> reachable os w
  | reach_alloc w sz ptr w' :
      reachable os w ->
      memory_pool_alloc w sz = Some (ptr, w') -> reachable os w'
  | reach_free w ptr r w' :
      reachable os w ->
      memory_pool_free w ptr = Some (r, w') -> reachable os w'.

(** A host with 4 KiB pages whose [mmap] places any region of at most
    4 GiB at 0x10000. *)
Definition demo_os : OS :=
  mkOS 4096
       (fun len => if (0 <? len) && (len <=? 2 ^ 32) then Some 0x10000 else None).

Definition blank_pool : MemoryPool :=
  mkMemoryPool 0 0 0 0 0 0 0 0 0 0 [] 0 false "".

Definition blank_world : World := mkWorld (Some blank_pool) ∅.

(** The world after [memory_pool_init(&pool, sz, al, "t1")] on [demo_os]. *)
Definition fresh (sz al : Z) : World :=
  snd (memory_pool_init demo_os blank_world sz al (Some "t1"%string)).

Definition used_bytes (w : World) : Z :=
  match pool w with Some p => used_size p | None => 0 end.

Definition deallocation_count (w : World) : Z :=
  match pool w with Some p => num_deallocations p | None => 0 end.

(** ** The search as the design document words it *)

(** Best fit within one bucket: among the free blocks whose payload is at
    least [needed], the smallest; a perfect fit is taken at once. *)
Fixpoint spec_best_in_bucket (m : gmap Z BlockHeader) (needed : Z)
    (l : list Z) (best : Z) : Z :=
  match l with
  | [] => best
  | b :: l' =>
      if is_free (load m b) && (needed <=? size (load m b)) then
        if size (load m b) =? needed then b
        else if (best =? NULL) || (size (load m b) <? size (load m best))
        then spec_best_in_bucket m needed l' b
        else spec_best_in_bucket m needed l' best
      else spec_best_in_bucket m needed l' best
  end.

(** "First class with any fit wins; best-fit within that class." *)
Fixpoint spec_scan_lists (n : nat) (p : MemoryPool) (m : gmap Z BlockHeader)
    (needed i : Z) : option (Z * Z) :=
  match n with
  | O => Some (NULL, 0)
  | S n' =>
      match bucket_nodes p m i with
      | None => None
      | Some l =>
          let c := spec_best_in_bucket m needed l NULL in
          if c =? NULL then spec_scan_lists n' p m needed (i + 1)
          else Some (c, i)
      end
  end.

Definition spec_find_best_block (p : MemoryPool) (m : gmap Z BlockHeader)
    (needed : Z) : option (Z * Z) :=
  let c := get_free_list_index needed in
  spec_scan_lists (Z.to_nat (MAX_FREE_LISTS - c)) p m needed c.

(** ** The order in which the search examines blocks *)

(** The blocks of buckets [i], [i+1], ... ([n] buckets), each paired with
    its bucket index, in list order; [None] if some list does not end. *)
Fixpoint examined_from (n : nat) (p : MemoryPool) (m : gmap Z BlockHeader)
    (i : Z) : option (list (Z * Z)) :=
  match n with
  | O => Some []
  | S n' =>
      match bucket_nodes p m i, examined_from n' p m (i + 1) with
      | Some l, Some rest => Some (map (fun b => (b, i)) l ++ rest)
      | _, _ => None
      end
  end.

Definition examined (p : MemoryPool) (m : gmap Z BlockHeader)
    (aligned_size : Z) : option (list (Z * Z)) :=
  let start := get_free_list_index aligned_size in
  examined_from (Z.to_nat (MAX_FREE_LISTS - start)) p m start.

(** The search as one pass over the examined blocks. *)
Fixpoint pick (m : gmap Z BlockHeader) (aligned_size : Z)
    (l : list (Z * Z)) (best_block best_list_index : Z) : Z * Z :=
  match l with
  | [] => (best_block, best_list_index)
  | (block, i) :: l' =>
      if eligible m aligned_size block then
        if (best_block =? NULL)
           || (size (load m block) <? size (load m best_block))
        then
          if size (load m block) =? aligned_size then (block, i)
          else pick m aligned_size l' block i
        else pick m aligned_size l' best_block best_list_index
      else pick m aligned_size l' best_block best_list_index
  end.

(** A block is a perfect fit for [aligned_size]: the test that ends the
    search. *)
Definition perfect (m : gmap Z BlockHeader) (aligned_size block : Z) : bool :=
  negb (block =? NULL) && (size (load m block) =? aligned_size).

(** ** Well-formed states *)

Definition region_limit (p : MemoryPool) : Z := memory p + total_size p.

(** A header with intact signatures lies inside the region. *)
Definition block_bounded (limit a : Z) (b : BlockHeader) : Prop :=
  signature b = BLOCK_SIGNATURE -> magic b = BLOCK_SIGNATURE ->
  0 < a /\ 0 <= size b /\ a + sizeof_BlockHeader + size b <= limit.

Definition heap_bounded (limit : Z) (m : gmap Z BlockHeader) : Prop :=
  forall a, block_bounded limit a (load m a).

Definition well_formed (w : World) : Prop :=
  exists p, pool w = Some p
         /\ pool_signature p = POOL_SIGNATURE
         /\ region_limit p < 2 ^ 64
         /\ 0 <= used_size p < 2 ^ 64
         /\ heap_bounded (region_limit p) (heap w).

(** What the allocator assumes of the host: pages of a power-of-two size
    of at least 64 bytes, and a successful [mmap] returns a non-null
    address of a non-empty mapping that ends inside the address space. *)
Definition os_ok (os : OS) : Prop :=
  (exists k, 6 <= k < 64 /\ getpagesize os = 2 ^ k)
  /\ forall len a, mmap os len = Some a -> 0 < len /\ 0 < a /\ a + len < 2 ^ 64.

(** The fields of the pool structure that the list and chain helpers
    leave alone. *)
Definition pool_core (p p' : MemoryPool) : Prop :=
  pool_signature p' = pool_signature p /\ memory p' = memory p
  /\ total_size p' = total_size p /\ alignment p' = alignment p
  /\ used_size p' = used_size p
  /\ num_deallocations p' = num_deallocations p.

(** [m'] differs from [m] at most in links and in payload sizes that grew. *)
Definition heap_grows (m m' : gmap Z BlockHeader) : Prop :=
  forall a,
    signature (load m' a) = signature (load m a)
    /\ magic (load m' a) = magic (load m a)
    /\ is_free (load m' a) = is_free (load m a)
    /\ size (load m a) <= size (load m' a).

(** The merge that both loops of [coalesce_blocks] perform: block [x]
    absorbs block [y]. *)
Definition absorb (m : gmap Z BlockHeader) (x y : Z) : gmap Z BlockHeader :=
  let m :=
    store x
      (set_size (wrap (size (load m x) + sizeof_BlockHeader
                       + size (load m y)))) m in
  let m := store x (set_next (next (load m y))) m in
  if next (load m y) =? NULL then m
  else store (next (load m y)) (set_prev x) m.

(** Updates of a header that touch neither the signatures nor the payload
    size, and updates that touch only the links. *)
Definition keeps_extent (f : BlockHeader -> BlockHeader) : Prop :=
  forall h, signature (f h) = signature h /\ magic (f h) = magic h
            /\ size (f h) = size h.

Definition keeps_status (f : BlockHeader -> BlockHeader) : Prop :=
  forall h, signature (f h) = signature h /\ magic (f h) = magic h
            /\ size (f h) = size h /\ is_free (f h) = is_free h.

(** Updates that touch neither the signatures nor the free flag. *)
Definition keeps_marks (f : BlockHeader -> BlockHeader) : Prop :=
  forall h, signature (f h) = signature h /\ magic (f h) = magic h
            /\ is_free (f h) = is_free h.

(** [m'] has the signatures and free flags of [m]. *)
Definition same_marks (m m' : gmap Z BlockHeader) : Prop :=
  forall a,
    signature (load m' a) = signature (load m a)
    /\ magic (load m' a) = magic (load m a)
    /\ is_free (load m' a) = is_free (load m a).

(** Every header with an intact leading signature sits at a multiple of
    [al]. *)
Definition heap_aligned (al : Z) (m : gmap Z BlockHeader) : Prop :=
  forall a, signature (load m a) = BLOCK_SIGNATURE -> a mod al = 0.

(** [mmap] returns page-aligned addresses. *)
Definition mmap_page_aligned (os : OS) : Prop :=
  forall len a, mmap os len = Some a -> a mod getpagesize os = 0.

(** ** Scenarios *)

(** The world after a script on a fresh 4 KiB arena with alignment 8
    ([blank_world] if the script does not return). *)
Definition after (calls : list Call) : World :=
  match run_calls calls (fresh 4096 8) [] with
  | Some (w, _) => w
  | None => blank_world
  end.

(** No two headers of the region lie less than [sizeof(BlockHeader)]
    bytes apart. *)
Definition headers_apart (m : gmap Z BlockHeader) : bool :=
  let addrs := fst <$> map_to_list m in
  forallb
    (fun a =>
       forallb (fun b => (a =? b) || (sizeof_BlockHeader <=? Z.abs (a - b)))
               addrs)
    addrs.

(** The pool structure of a world whose pool pointer is not null. *)
Definition pool_of (w : World) : MemoryPool := default blank_pool (pool w).

(** A client overwrites the trailing signature of the header in front of
    the payload [ptr]. *)
Definition smash_magic (ptr : Z) (w : World) : World :=
  with_heap
    (store (wrap (ptr - sizeof_BlockHeader))
           (fun b => mkBlockHeader (signature b) (size b) (is_free b)
                                   (next b) (prev b) 0)
           (heap w)) w.

(** ** Bookkeeping of the pool structure *)

(** [p'] differs from [p] at most in the entries of the free lists and in
    the block count: what the list and chain helpers may change. *)
Definition lists_only (p p' : MemoryPool) : Prop :=
  exists fl nb,
    length fl = length (free_lists p)
    /\ p' = set_num_blocks nb (set_free_lists fl p).

(** The statistics update at the end of [memory_pool_alloc], for a block of
    payload size [sz]. *)
Definition account_alloc (sz : Z) (p : MemoryPool) : MemoryPool :=
  let p :=
    set_num_allocations (wrap (num_allocations p + 1))
      (set_used_size (wrap (used_size p + sz)) p) in
  if peak_usage p <? used_size p then set_peak_usage (used_size p) p else p.

(** The statistics update at the start of [memory_pool_free]. *)
Definition account_free (sz : Z) (p : MemoryPool) : MemoryPool :=
  set_num_deallocations (wrap (num_deallocations p + 1))
    (set_used_size (wrap (used_size p - sz)) p).

(** Every header with an intact leading signature lies at or above
    [base]. *)
Definition heap_above (base : Z) (m : gmap Z BlockHeader) : Prop :=
  forall a, signature (load m a) = BLOCK_SIGNATURE -> base <= a.

(** Runs that count their successes: [counted os w a d] when [w] is reached
    from a successful [memory_pool_init] by calls of which [a] were
    allocations that returned a non-null pointer and [d] were frees that
    released a block. *)
Inductive counted (os : OS) : World -> Z -> Z -> Prop :=
  | counted_init w0 sz al nm w :
      memory_pool_init os w0 sz al nm = (true, w) -> counted os w 0 0
  | counted_alloc w a d sz ptr w' :
      counted os w a d ->
      memory_pool_alloc w sz = Some (ptr, w') ->
      counted os w' (if ptr =? NULL then a else a + 1) d
  | counted_free w a d ptr r w' :
      counted os w a d ->
      memory_pool_free w ptr = Some (r, w') ->
      counted os w' a (if decide (r = FreeDone) then d + 1 else d).

(** ** Statistics *)

Module Stats.

Record PoolStats := mkPoolStats {
  total_allocated : Z;
  total_freed : Z;
  current_usage : Z;
  peak_usage : Z;
  fragmentation_ratio : Z;
  allocation_count : Z;
  deallocation_count : Z;
  free_blocks : Z;
  largest_free_block : Z
}.

End Stats.

(** Inner loop of [memory_pool_get_stats]: the largest [size] field along
    one free list, starting from [largest]. *)
Fixpoint largest_in_list (fuel : nat) (m : gmap Z BlockHeader)
    (block largest : Z) : option Z :=
  match fuel with
  | O => None
  | S fuel' =>
      if block =? NULL then Some largest
      else
        let largest :=
          if largest <? size (load m block) then size (load m block)
          else largest in
        largest_in_list fuel' m (next (load m block)) largest
  end.

(** Outer loop of [memory_pool_get_stats] over the buckets [i], [i+1], ...
    ([n] of them); the result is [(free_blocks, largest_free_block)]. *)
Fixpoint stats_loop (n : nat) (p : MemoryPool) (m : gmap Z BlockHeader)
    (i free_blocks largest : Z) : option (Z * Z) :=
  match n with
  | O => Some (free_blocks, largest)
  | S n' =>
      let free_blocks := wrap (free_blocks + count (free_list p i)) in
      match largest_in_list (list_fuel m) m (head (free_list p i)) largest with
      | None => None
      | Some largest => stats_loop n' p m (i + 1) free_blocks largest
      end
  end.

(** [memory_pool_get_stats].  [stats] is the caller's structure ([None]
    for a NULL pointer); the result is the returned flag and the structure
    after the call.  A division by zero (a pool of fewer than
    [sizeof(BlockHeader)] bytes) does not return. *)
Definition memory_pool_get_stats (w : World) (stats : option Stats.PoolStats)
    : option (bool * option Stats.PoolStats) :=
  match pool w, stats with
  | Some p, Some _ =>
      if negb (pool_signature p =? POOL_SIGNATURE) then Some (false, stats)
      else if (0 <? total_size p) && (total_size p / sizeof_BlockHeader =? 0)
      then None
      else
        let fragmentation_ratio :=
          if 0 <? total_size p
          then wrap (num_blocks p * 100) / (total_size p / sizeof_BlockHeader)
          else 0 in
        match stats_loop (Z.to_nat MAX_FREE_LISTS) p (heap w) 0 0 0 with
        | None => None
        | Some (free_blocks, largest_free_block) =>
            Some (true,
                  Some (Stats.mkPoolStats
                          (num_allocations p) (num_deallocations p)
                          (used_size p) (peak_usage p) fragmentation_ratio
                          (num_allocations p) (num_deallocations p)
                          free_blocks largest_free_block))
        end
  | _, _ => Some (false, stats)
  end.

Definition zero_stats : Stats.PoolStats :=
  Stats.mkPoolStats 0 0 0 0 0 0 0 0 0.

(** [display_pool_stats]: the statistics it prints, [Some None] when it
    prints nothing. *)
Definition display_pool_stats (w : World) : option (option Stats.PoolStats) :=
  match pool w with
  | None => Some None
  | Some p =>
      if negb (pool_signature p =? POOL_SIGNATURE) then Some None
      else
        match memory_pool_get_stats w (Some zero_stats) with
        | None => None
        | Some (true, stats) => Some stats
        | Some (false, _) => Some None
        end
  end.

(** ** Layout dump *)

(** One "Block n: FREE|USED, Size: s bytes, Address: a" line. *)
Record LayoutLine := mkLayoutLine {
  line_number : Z;
  line_is_free : bool;
  line_size : Z;
  line_address : Z
}.

(** The loop of [dump_pool_layout]: the lines printed from [current] on and
    whether the "truncated" notice was printed.  The body runs at most 1001
    times, because the 1001st print makes [block_num > 1000]. *)
Fixpoint dump_walk (fuel : nat) (m : gmap Z BlockHeader)
    (current block_num : Z) : list LayoutLine * bool :=
  match fuel with
  | O => ([], false)
  | S fuel' =>
      if (current =? NULL) || negb (validate_block m current) then ([], false)
      else
        let line :=
          mkLayoutLine block_num (is_free (load m current))
                       (size (load m current)) current in
        let block_num := wrap (block_num + 1) in
        let current := next (load m current) in
        if 1000 <? block_num then ([line], true)
        else
          let '(lines, truncated) := dump_walk fuel' m current block_num in
          (line :: lines, truncated)
  end.

(** [dump_pool_layout]; [None] when it returns before printing. *)
Definition dump_pool_layout (w : World) : option (list LayoutLine * bool) :=
  match pool w with
  | None => None
  | Some p =>
      if negb (pool_signature p =? POOL_SIGNATURE) then None
      else Some (dump_walk 1001 (heap w) (first_block p) 0)
  end.

(** ** Teardown *)

(** The pool structure after [memset(pool, 0, sizeof(MemoryPool))]. *)
Definition zero_pool : MemoryPool :=
  mkMemoryPool 0 0 0 0 0 0 0 0 0 0 empty_lists 0 false "".

(** [memory_pool_destroy]: whether the leak warning was logged, and the
    world after the call.  [munmap] is taken to succeed: the region is
    unmapped, so no header is left. *)
Definition memory_pool_destroy (w : World) : bool * World :=
  match pool w with
  | None => (false, w)
  | Some p =>
      if negb (pool_signature p =? POOL_SIGNATURE) then (false, w)
      else (negb (num_allocations p =? num_deallocations p),
            mkWorld (Some zero_pool)
                    (if memory p =? NULL then heap w else ∅))
  end.

(** ** The self test *)

Definition test_sizes : list Z := [16; 32; 64; 128; 256; 512; 1024; 2048].

(** Writing [n] bytes at [ptr] touches no header other than the one in
    front of [ptr]. *)
Definition write_clear (m : gmap Z BlockHeader) (ptr n : Z) : bool :=
  forallb
    (fun a => negb ((ptr - sizeof_BlockHeader <? a) && (a <? ptr + n)))
    (fst <$> map_to_list m).

(** First loop of [test_memory_pool]: allocate each size and fill the
    payload.  [clear] tells whether all fills so far stayed clear of the
    headers. *)
Fixpoint test_allocate (sizes : list Z) (w : World) (clear : bool)
    : option (list Z * World * bool) :=
  match sizes with
  | [] => Some ([], w, clear)
  | sz :: sizes' =>
      match memory_pool_alloc w sz with
      | None => None
      | Some (ptr, w) =>
          let clear :=
            clear && ((ptr =? NULL) || write_clear (heap w) ptr sz) in
          match test_allocate sizes' w clear with
          | None => None
          | Some (ptrs, w, clear) => Some (ptr :: ptrs, w, clear)
          end
      end
  end.

(** Third loop: free the pointers at the given indices and null them. *)
Fixpoint test_free_slots (slots : list nat) (ptrs : list Z) (w : World)
    : option (list Z * World) :=
  match slots with
  | [] => Some (ptrs, w)
  | i :: slots' =>
      if nth i ptrs NULL =? NULL then test_free_slots slots' ptrs w
      else
        match memory_pool_free w (nth i ptrs NULL) with
        | None => None
        | Some (_, w) => test_free_slots slots' (<[i := NULL]> ptrs) w
        end
  end.

(** Fourth loop: allocate twice the test size into the given indices. *)
Fixpoint test_reallocate (slots : list nat) (ptrs : list Z) (w : World)
    : option (list Z * World) :=
  match slots with
  | [] => Some (ptrs, w)
  | i :: slots' =>
      match memory_pool_alloc w (wrap (nth i test_sizes 0 * 2)) with
      | None => None
      | Some (ptr, w) => test_reallocate slots' (<[i := ptr]> ptrs) w
      end
  end.

(** Last loop: free every pointer that is left. *)
Fixpoint test_cleanup (ptrs : list Z) (w : World) : option World :=
  match ptrs with
  | [] => Some w
  | ptr :: ptrs' =>
      if ptr =? NULL then test_cleanup ptrs' w
      else
        match memory_pool_free w ptr with
        | None => None
        | Some (_, w) => test_cleanup ptrs' w
        end
  end.

(** [test_memory_pool]: the world after the test and whether the payload
    fills stayed clear of the headers ([None] if some call does not
    return). *)
Definition test_memory_pool (w : World) : option (World * bool) :=
  match pool w with
  | None => Some (w, true)
  | Some _ =>
      '(ptrs, w, clear) ← test_allocate test_sizes w true;
      _ ← display_pool_stats w;
      '(ptrs, w) ← test_free_slots [0; 2; 4; 6]%nat ptrs w;
      _ ← display_pool_stats w;
      '(ptrs, w) ← test_reallocate [0; 2; 4; 6]%nat ptrs w;
      _ ← display_pool_stats w;
      w ← test_cleanup ptrs w;
      _ ← display_pool_stats w;
      Some (w, clear)
  end.

(** ** Command line *)

Definition INT_MIN : Z := - 2 ^ 31.
Definition INT_MAX : Z := 2 ^ 31 - 1.

(** The C library as [str_to_int] sees it: [strtol(str, &endptr, 10)]
    yields the value, the number of characters consumed
    ([endptr - str]) and whether it set [errno] to [ERANGE]. *)
Record Libc := mkLibc {
  strtol : string -> Z * nat * bool
}.

(** [str_to_int] (libs/utils/src/utils.c); [None] is the result [false].
    The result pointer is the address of a local of the caller. *)
Definition str_to_int (libc : Libc) (str : option string) : option Z :=
  match str with
  | None => None
  | Some s =>
      let '(val, consumed, erange) := strtol libc s in
      if erange || (val <? INT_MIN) || (INT_MAX <? val) then None
      else if (consumed =? 0)%nat || negb (consumed =? String.length s)%nat
      then None
      else Some val
  end.

Module Cli.

(** The locals of [main] that the option loop sets. *)
Record Options := mkOptions {
  pool_size : Z;
  alignment : Z;
  pool_name : string;
  interactive_mode : bool;
  run_tests : bool;
  debug_mode : bool
}.

End Cli.

(** Why [main] returned from its option loop. *)
Inductive CliExit :=
  | HelpShown
  | SizeValueRequired
  | InvalidPoolSize
  | AlignmentValueRequired
  | InvalidAlignment
  | PoolNameRequired
  | UnknownOption (arg : string).

Inductive Parsed :=
  | ParseExit (status : Z) (why : CliExit)
  | ParseDone (o : Cli.Options).

Definition is_option (arg short long : string) : bool :=
  (arg =? short)%string || (arg =? long)%string.

(** The option loop of [main] over [argv[i]], [argv[i+1]], ... *)
Fixpoint parse_args (libc : Libc) (args : list string) (o : Cli.Options)
    : Parsed :=
  match args with
  | [] => ParseDone o
  | arg :: rest =>
      if (arg =? "--help")%string then ParseExit 0 HelpShown
      else if is_option arg "-s" "--size" then
        match rest with
        | [] => ParseExit 1 SizeValueRequired
        | v :: rest' =>
            match str_to_int libc (Some v) with
            | None => ParseExit 1 InvalidPoolSize
            | Some size =>
                if size <=? 0 then ParseExit 1 InvalidPoolSize
                else
                  parse_args libc rest'
                    (Cli.mkOptions size (Cli.alignment o) (Cli.pool_name o)
                       (Cli.interactive_mode o) (Cli.run_tests o)
                       (Cli.debug_mode o))
            end
        end
      else if is_option arg "-a" "--alignment" then
        match rest with
        | [] => ParseExit 1 AlignmentValueRequired
        | v :: rest' =>
            match str_to_int libc (Some v) with
            | None => ParseExit 1 InvalidAlignment
            | Some align =>
                if (align <=? 0) || negb (Z.land align (align - 1) =? 0)
                then ParseExit 1 InvalidAlignment
                else
                  parse_args libc rest'
                    (Cli.mkOptions (Cli.pool_size o) align (Cli.pool_name o)
                       (Cli.interactive_mode o) (Cli.run_tests o)
                       (Cli.debug_mode o))
            end
        end
      else if is_option arg "-n" "--name" then
        match rest with
        | [] => ParseExit 1 PoolNameRequired
        | v :: rest' =>
            parse_args libc rest'
              (Cli.mkOptions (Cli.pool_size o) (Cli.alignment o)
                 (String.substring 0 63 v)
                 (Cli.interactive_mode o) (Cli.run_tests o)
                 (Cli.debug_mode o))
        end
      else if is_option arg "-i" "--interactive" then
        parse_args libc rest
          (Cli.mkOptions (Cli.pool_size o) (Cli.alignment o) (Cli.pool_name o)
             true (Cli.run_tests o) (Cli.debug_mode o))
      else if is_option arg "-t" "--test" then
        parse_args libc rest
          (Cli.mkOptions (Cli.pool_size o) (Cli.alignment o) (Cli.pool_name o)
             (Cli.interactive_mode o) true (Cli.debug_mode o))
      else if is_option arg "-d" "--debug" then
        parse_args libc rest
          (Cli.mkOptions (Cli.pool_size o) (Cli.alignment o) (Cli.pool_name o)
             (Cli.interactive_mode o) (Cli.run_tests o) true)
      else ParseExit 1 (UnknownOption arg)
  end.

(** The initial values of the locals of [main]. *)
Definition default_options : Cli.Options :=
  Cli.mkOptions (1024 * 1024) DEFAULT_ALIGNMENT "default" false false false.

Definition set_enable_debugging (v : bool) (p : MemoryPool) : MemoryPool :=
  mkMemoryPool (pool_signature p) (memory p) (total_size p) (used_size p)
    (peak_usage p) (alignment p) (num_allocations p) (num_deallocations p)
    (num_blocks p) (fragmentation_count p) (free_lists p) (first_block p)
    v (name p).

(** What a run of [main] showed: the exit status, whether it printed
    "Error: Pool validation failed", whether [memory_pool_destroy] logged
    the leak warning, and whether the payload fills of the self test
    stayed clear of the headers. *)
Record MainRun := mkMainRun {
  exit_status : Z;
  validation_failed : bool;
  leak_warning : bool;
  fills_clear : bool
}.

(** [main].  [argv] is the argument vector with [argv[0]];
    [interactive] stands for [run_interactive_mode], whose dialogue is not
    modelled.  [None] is a run that does not return. *)
Definition main (os : OS) (libc : Libc) (interactive : World -> option World)
    (argv : list string) : option MainRun :=
  match parse_args libc (tail argv) default_options with
  | ParseExit status _ => Some (mkMainRun status false false true)
  | ParseDone o =>
      match memory_pool_init os blank_world (Cli.pool_size o)
              (Cli.alignment o) (Some (Cli.pool_name o)) with
      | (false, _) => Some (mkMainRun 1 false false true)
      | (true, w) =>
          let w := upd_pool (set_enable_debugging (Cli.debug_mode o)) w in
          '(w, clear) ←
            (if Cli.interactive_mode o then
               w ← interactive w; Some (w, true)
             else if Cli.run_tests o then test_memory_pool w
             else _ ← display_pool_stats w; test_memory_pool w);
          let failed := negb (validate_pool w) in
          let '(leak, _) := memory_pool_destroy w in
          Some (mkMainRun 0 failed leak clear)
      end
  end.

(** A [strtol] for base 10 in the C locale: white space, an optional sign,
    decimal digits; a value outside [long] is clamped with [ERANGE]. *)
Definition is_space (c : Ascii.ascii) : bool :=
  let n := Ascii.nat_of_ascii c in
  (n =? 32)%nat || ((9 <=? n)%nat && (n <=? 13)%nat).

Definition digit_of (c : Ascii.ascii) : option Z :=
  let n := Z.of_nat (Ascii.nat_of_ascii c) in
  if (48 <=? n) && (n <=? 57) then Some (n - 48) else None.

Fixpoint skip_spaces (s : string) : nat * string :=
  match s with
  | String c s' =>
      if is_space c then let '(k, r) := skip_spaces s' in (S k, r) else (O, s)
  | EmptyString => (O, s)
  end.

Fixpoint read_digits (s : string) (acc : Z) : Z * nat :=
  match s with
  | String c s' =>
      match digit_of c with
      | Some d => let '(v, k) := read_digits s' (acc * 10 + d) in (v, S k)
      | None => (acc, O)
      end
  | EmptyString => (acc, O)
  end.

Definition demo_strtol (s : string) : Z * nat * bool :=
  let '(k0, s1) := skip_spaces s in
  let '(negative, k1, s2) :=
    match s1 with
    | String c r =>
        if (Ascii.nat_of_ascii c =? 45)%nat then (true, 1%nat, r)
        else if (Ascii.nat_of_ascii c =? 43)%nat then (false, 1%nat, r)
        else (false, 0%nat, s1)
    | EmptyString => (false, 0%nat, s1)
    end in
  let '(v, k2) := read_digits s2 0 in
  if (k2 =? 0)%nat then (0, 0%nat, false)
  else
    let v := if negative then - v else v in
    if v <? - 2 ^ 63 then (- 2 ^ 63, (k0 + k1 + k2)%nat, true)
    else if 2 ^ 63 - 1 <? v then (2 ^ 63 - 1, (k0 + k1 + k2)%nat, true)
    else (v, (k0 + k1 + k2)%nat, false).

Definition demo_libc : Libc := mkLibc demo_strtol.

(** ** Dynamic array (libs/data_structures/src/dynamic_array.c) *)

Definition DEFAULT_CAPACITY : Z := 8.
Definition GROWTH_FACTOR : Z := 2.

(** [sizeof(DynamicArray)] on an LP64 target: a pointer and three
    [size_t]. *)
Definition sizeof_DynamicArray : Z := 32.

Module DynamicArray.

(** [data] is the contents of the buffer that the pointer of the same name
    refers to, byte by byte. *)
Record t := mk {
  data : list Byte.byte;
  size : Z;
  capacity : Z;
  element_size : Z
}.

End DynamicArray.

(** The allocator of the C library: which requests [malloc] and [realloc]
    grant, and the byte that stands for the indeterminate contents of
    fresh memory. *)
Record Allocator := mkAllocator {
  can_allocate : Z -> bool;
  junk : Byte.byte
}.

(** The contents of a buffer after [realloc] to [n] bytes. *)
Definition reallocated (h : Allocator) (n : Z) (old : list Byte.byte)
    : list Byte.byte :=
  take (Z.to_nat n) old ++ replicate (Z.to_nat n - length old) (junk h).

(** [darray_grow]: the returned flag and the array afterwards. *)
Definition darray_grow (h : Allocator) (arr : option DynamicArray.t)
    : bool * option DynamicArray.t :=
  match arr with
  | None => (false, None)
  | Some a =>
      let new_capacity := wrap (DynamicArray.capacity a * GROWTH_FACTOR) in
      if new_capacity <? DynamicArray.capacity a then (false, arr)
      else
        let bytes := wrap (new_capacity * DynamicArray.element_size a) in
        if can_allocate h bytes then
          (true,
           Some (DynamicArray.mk (reallocated h bytes (DynamicArray.data a))
                   (DynamicArray.size a) new_capacity
                   (DynamicArray.element_size a)))
        else (false, arr)
  end.

(** [darray_create]; [None] is the result [NULL]. *)
Definition darray_create (h : Allocator) (element_size initial_capacity : Z)
    : option DynamicArray.t :=
  if element_size =? 0 then None
  else if negb (can_allocate h sizeof_DynamicArray) then None
  else
    let initial_capacity :=
      if initial_capacity =? 0 then DEFAULT_CAPACITY else initial_capacity in
    let bytes := wrap (initial_capacity * element_size) in
    if can_allocate h bytes then
      Some (DynamicArray.mk (replicate (Z.to_nat bytes) (junk h))
              0 initial_capacity element_size)
    else None.

(** [memcpy(data + offset, src, n)] into the buffer; [None] when the copy
    reads past [src] or writes past the buffer. *)
Definition copy_in (buffer : list Byte.byte) (offset n : Z)
    (src : list Byte.byte) : option (list Byte.byte) :=
  if (Z.of_nat (length src) <? n) || (Z.of_nat (length buffer) <? offset + n)
  then None
  else
    Some (take (Z.to_nat offset) buffer ++ take (Z.to_nat n) src
          ++ drop (Z.to_nat (offset + n)) buffer).

(** [memcpy(dst, data + offset, n)] out of the buffer; [None] when the copy
    reads past the buffer. *)
Definition copy_out (buffer : list Byte.byte) (offset n : Z)
    : option (list Byte.byte) :=
  if Z.of_nat (length buffer) <? offset + n then None
  else Some (take (Z.to_nat n) (drop (Z.to_nat offset) buffer)).

(** [darray_push].  [element] is the memory the element pointer refers to
    ([None] for a NULL pointer).  The result is the returned flag and the
    array afterwards; [None] when a copy leaves its buffer. *)
Definition darray_push (h : Allocator) (arr : option DynamicArray.t)
    (element : option (list Byte.byte))
    : option (bool * option DynamicArray.t) :=
  match arr, element with
  | Some a, Some e =>
      let '(grown, arr') :=
        if DynamicArray.capacity a <=? DynamicArray.size a
        then darray_grow h arr else (true, arr) in
      if negb grown then Some (false, arr)
      else
        match arr' with
        | None => Some (false, arr)
        | Some a =>
            let offset :=
              wrap (DynamicArray.size a * DynamicArray.element_size a) in
            match copy_in (DynamicArray.data a) offset
                          (DynamicArray.element_size a) e with
            | None => None
            | Some d =>
                Some (true,
                      Some (DynamicArray.mk d (wrap (DynamicArray.size a + 1))
                              (DynamicArray.capacity a)
                              (DynamicArray.element_size a)))
            end
        end
  | _, _ => Some (false, arr)
  end.

(** [darray_get] into a buffer of the caller: [Some None] is the result
    [false], [Some (Some e)] the result [true] with the bytes copied, and
    [None] a copy that leaves the buffer. *)
Definition darray_get (arr : option DynamicArray.t) (index : Z)
    : option (option (list Byte.byte)) :=
  match arr with
  | None => Some None
  | Some a =>
      if DynamicArray.size a <=? index then Some None
      else
        Some <$> copy_out (DynamicArray.data a)
                   (wrap (index * DynamicArray.element_size a))
                   (DynamicArray.element_size a)
  end.

(** [darray_size] and [darray_capacity]. *)
Definition darray_size (arr : option DynamicArray.t) : Z :=
  match arr with Some a => DynamicArray.size a | None => 0 end.

Definition darray_capacity (arr : option DynamicArray.t) : Z :=
  match arr with Some a => DynamicArray.capacity a | None => 0 end.

(** The state of an array whose buffer holds [capacity] elements. *)
Definition darray_ok (a : DynamicArray.t) : Prop :=
  0 < DynamicArray.element_size a
  /\ 0 <= DynamicArray.size a <= DynamicArray.capacity a
  /\ 0 < DynamicArray.capacity a
  /\ DynamicArray.capacity a * DynamicArray.element_size a < 2 ^ 63
  /\ Z.of_nat (length (DynamicArray.data a))
     = DynamicArray.capacity a * DynamicArray.element_size a.

(** An allocator that grants no request of 2^63 bytes or more
    ([PTRDIFF_MAX] is the limit of the usual allocators). *)
Definition allocator_bounded (h : Allocator) : Prop :=
  forall n, can_allocate h n = true -> n < 2 ^ 63.

(** An allocator that grants every request below 1 MiB. *)
Definition demo_allocator : Allocator :=
  mkAllocator (fun n => n <? 2 ^ 20) Byte.x00.

(** ** Notions used to state what the reports show *)

(** The running maximum that [memory_pool_get_stats] keeps, over a list of
    blocks. *)
Definition largest_of (m : gmap Z BlockHeader) (l : list Z) (largest : Z)
    : Z :=
  fold_left
    (fun acc b => if acc <? size (load m b) then size (load m b) else acc)
    l largest.

(** The sum of the [count] fields of the buckets [i], [i+1], ... ([n] of
    them). *)
Fixpoint sum_counts (n : nat) (p : MemoryPool) (i : Z) : Z :=
  match n with
  | O => 0
  | S n' => count (free_list p i) + sum_counts n' p (i + 1)
  end.

(** The lines of the layout dump for a list of blocks, numbered from
    [n]. *)
Fixpoint layout_lines (m : gmap Z BlockHeader) (l : list Z) (n : Z)
    : list LayoutLine :=
  match l with
  | [] => []
  | b :: l' =>
      mkLayoutLine n (is_free (load m b)) (size (load m b)) b
      :: layout_lines m l' (n + 1)
  end.

(** ** The state after initialisation *)

(** The block that [memory_pool_init] creates in a region of [T] bytes, and
    the world it leaves behind for a region at [base]. *)
Definition initial_block (T : Z) : BlockHeader :=
  mkBlockHeader BLOCK_SIGNATURE (T - sizeof_BlockHeader) true NULL NULL
                BLOCK_SIGNATURE.

Definition initial_world (base T al : Z) (nm : string) : World :=
  mkWorld
    (Some
       (set_free_list (get_free_list_index (T - sizeof_BlockHeader))
          (fun l => set_count 1 (set_head base l))
          (mkMemoryPool POOL_SIGNATURE base T 0 0 al 0 0 1 0 empty_lists
                        base false nm)))
    {[ base := initial_block T ]}.

(** ** Runs that only allocate *)

(** States reached from a successful [memory_pool_init] by calls of
    [memory_pool_alloc] alone. *)
Inductive allocated (os : OS) : World -> Prop :=
  | allocated_init w0 sz al nm w :
      memory_pool_init os w0 sz al nm = (true, w) -> allocated os w
  | allocated_alloc w sz ptr w' :
      allocated os w ->
      memory_pool_alloc w sz = Some (ptr, w') -> allocated os w'.

(** [L] is the list threaded through [next] from [b] to [NULL]. *)
Fixpoint linked (m : gmap Z BlockHeader) (b : Z) (L : list Z) : Prop :=
  match L with
  | [] => b = NULL
  | x :: L' => b = x /\ x <> NULL /\ linked m (next (load m x)) L'
  end.

(** The blocks of [L] tile the addresses from [start] to [stop]: each
    begins where its predecessor's payload ends. *)
Fixpoint contiguous (m : gmap Z BlockHeader) (start : Z) (L : list Z)
    (stop : Z) : Prop :=
  match L with
  | [] => start = stop
  | x :: L' =>
      x = start /\ 0 <= size (load m x)
      /\ contiguous m (start + sizeof_BlockHeader + size (load m x)) L' stop
  end.

Definition in_use (m : gmap Z BlockHeader) (b : Z) : Prop :=
  is_free (load m b) = false.

(** The heads of the free lists when [r] is the only free block ([None]:
    there is none). *)
Definition free_heads (p : MemoryPool) (m : gmap Z BlockHeader)
    (r : option Z) : Prop :=
  forall i, 0 <= i ->
    head (free_list p i)
    = match r with
      | Some r => if i =? get_free_list_index (size (load m r)) then r else NULL
      | None => NULL
      end.

(** The shape of the pool as long as nothing has been freed: the chain from
    the base tiles the region, every block but possibly the last is in use,
    and the last one, if free, is the only entry of the free lists. *)
Definition alloc_only_inv (w : World) : Prop :=
  exists p L,
    pool w = Some p /\ pool_signature p = POOL_SIGNATURE
    /\ first_block p = memory p
    /\ 0 < memory p /\ memory p + total_size p < 2 ^ 64
    /\ length (free_lists p) = Z.to_nat MAX_FREE_LISTS
    /\ linked (heap w) (memory p) L
    /\ contiguous (heap w) (memory p) L (memory p + total_size p)
    /\ used_size p = in_use_total (heap w) L
    /\ num_blocks p = Z.of_nat (length L)
    /\ ((exists used r,
           L = used ++ [r] /\ Forall (in_use (heap w)) used
           /\ validate_block (heap w) r = true
           /\ is_free (load (heap w) r) = true
           /\ prev (load (heap w) r) = NULL
           /\ free_heads p (heap w) (Some r))
        \/ (Forall (in_use (heap w)) L /\ free_heads p (heap w) None)).

(** * Proofs *)

(** ** Region accesses *)

Lemma load_store_eq a f m : load (store a f m) a = f (load m a).
Proof. unfold store, load at 1. by rewrite lookup_insert_eq. Qed.

Lemma load_store_ne a b f m : a <> b -> load (store a f m) b = load m b.
Proof. intros H. unfold store, load. by rewrite lookup_insert_ne. Qed.

Lemma load_store a b f m :
  load (store a f m) b = if decide (a = b) then f (load m a) else load m b.
Proof.
  case_decide; [subst; apply load_store_eq | by apply load_store_ne].
Qed.

Lemma load_insert_eq a h (m : gmap Z BlockHeader) : load (<[a := h]> m) a = h.
Proof. unfold load. by rewrite lookup_insert_eq. Qed.

Lemma load_insert_ne a b h (m : gmap Z BlockHeader) :
  a <> b -> load (<[a := h]> m) b = load m b.
Proof. intros H. unfold load. by rewrite lookup_insert_ne. Qed.

Lemma eqb_NULL_false b : b <> NULL -> (b =? NULL) = false.
Proof. intros H. by apply Z.eqb_neq. Qed.

(** ** Free-list index *)

Lemma index_loop_range fuel sz index threshold :
  0 <= index <= 31 ->
  index <= index_loop fuel sz index threshold <= 31.
Proof.
  revert index threshold. induction fuel as [|fuel IH]; intros index threshold H; simpl.
  - lia.
  - unfold MAX_FREE_LISTS.
    destruct (index <? 32 - 1) eqn:E1; simpl; [|lia].
    destruct (threshold <? sz); [|lia].
    apply Z.ltb_lt in E1. specialize (IH (index + 1) (wrap (threshold * 2))). lia.
Qed.

Lemma get_free_list_index_range sz : 0 <= get_free_list_index sz <= 31.
Proof.
  unfold get_free_list_index.
  repeat (match goal with |- context [if ?c then _ else _] => destruct c end; [lia|]).
  pose proof (index_loop_range 22 sz 9 8192). lia.
Qed.

(** ** Invariants of the search loops *)

Lemma scan_bucket_inv (P : Z -> Z -> Prop) m a i fuel :
  forall block best bi r,
    P best bi ->
    (forall b, eligible m a b = true -> P b i) ->
    scan_bucket fuel m a i block best bi = Some r -> P r.1 r.2.
Proof.
  induction fuel as [|fuel IH]; intros block best bi r Hb Hi Hs; simpl in Hs; [discriminate Hs|].
  destruct (block =? NULL); [by inversion Hs|].
  fold (eligible m a block) in Hs.
  destruct (eligible m a block) eqn:El; [|by eapply IH].
  destruct ((best =? NULL) || (size (load m block) <? size (load m best))); [|by eapply IH].
  destruct (size (load m block) =? a).
  - inversion Hs; subst; simpl. by apply Hi.
  - eapply IH; [| |exact Hs]; auto.
Qed.

Lemma scan_lists_inv (P : Z -> Z -> Prop) p m a n :
  forall i best bi r,
    P best bi ->
    (forall j b, i <= j < i + Z.of_nat n -> eligible m a b = true -> P b j) ->
    scan_lists n p m a i best bi = Some r -> P r.1 r.2.
Proof.
  induction n as [|n IH]; intros i best bi r Hb Hi Hs; cbn [scan_lists] in Hs.
  - by inversion Hs.
  - destruct (scan_bucket _ m a i _ best bi) as [[b1 i1]|] eqn:E; [|discriminate Hs].
    assert (P b1 i1) as H1.
    { eapply (scan_bucket_inv P) in E; eauto. intros b Hb'. apply Hi; [lia|done]. }
    destruct (negb (b1 =? NULL) && (size (load m b1) =? a)).
    + by inversion Hs.
    + eapply IH; [exact H1| |exact Hs]. intros j b Hj. apply Hi. lia.
Qed.

Lemma find_best_block_inv p m a best bi :
  find_best_block p m a = Some (best, bi) ->
  (best = NULL \/ eligible m a best = true) /\ 0 <= bi < MAX_FREE_LISTS.
Proof.
  unfold find_best_block. intros H.
  pose proof (get_free_list_index_range a) as Hr.
  eapply (scan_lists_inv
            (fun b i => (b = NULL \/ eligible m a b = true) /\ 0 <= i < MAX_FREE_LISTS)) in H.
  - exact H.
  - unfold MAX_FREE_LISTS. split; [by left | lia].
  - unfold MAX_FREE_LISTS. intros j b Hj Hb. split; [by right | lia].
Qed.

(** ** Header validation *)

Lemma validate_block_true m b :
  validate_block m b = true <->
  b <> NULL /\ signature (load m b) = BLOCK_SIGNATURE
  /\ magic (load m b) = BLOCK_SIGNATURE /\ 0 < size (load m b).
Proof.
  unfold validate_block. destruct (b =? NULL) eqn:E.
  - apply Z.eqb_eq in E. split; [discriminate | tauto].
  - apply Z.eqb_neq in E.
    rewrite !andb_true_iff, !Z.eqb_eq, Z.ltb_lt. tauto.
Qed.

Lemma validate_block_corrupt m b :
  signature (load m b) <> BLOCK_SIGNATURE \/ magic (load m b) <> BLOCK_SIGNATURE
  \/ size (load m b) = 0 ->
  validate_block m b = false.
Proof.
  intros H. apply not_true_is_false. rewrite validate_block_true. lia.
Qed.

(** C9 (corruption atomicity on free).  When the header in front of [ptr]
    has a signature that differs from [BLOCK_SIGNATURE] or a zero payload
    size, [memory_pool_free] returns with the world exactly as it was, so
    [used_size] and [num_deallocations] keep their values; when the call
    gets as far as the header check (pool and pointer not null, pool
    signature intact) it reports the invalid header. *)
Theorem free_corrupt_header_unchanged w ptr :
  let b := load (heap w) (wrap (ptr - sizeof_BlockHeader)) in
  signature b <> BLOCK_SIGNATURE \/ magic b <> BLOCK_SIGNATURE \/ size b = 0 ->
  (exists r, memory_pool_free w ptr = Some (r, w))
  /\ (forall p, pool w = Some p -> pool_signature p = POOL_SIGNATURE ->
                ptr <> NULL ->
                memory_pool_free w ptr = Some (FreeInvalidHeader, w)).
Proof.
  intros b H. apply validate_block_corrupt in H.
  unfold memory_pool_free. split.
  - destruct (pool w) as [p|]; [|by eexists].
    destruct (negb (pool_signature p =? POOL_SIGNATURE) || (ptr =? NULL)); [by eexists|].
    rewrite H. by eexists.
  - intros p Hp Hsig Hptr. rewrite Hp.
    apply Z.eqb_eq in Hsig. rewrite Hsig, (eqb_NULL_false _ Hptr). simpl.
    by rewrite H.
Qed.

(** C7 as amended (init argument validation).  [memory_pool_init] returns
    false and leaves the world untouched when the pool pointer is null or
    the size is zero.  It does not inspect the alignment: whenever the pool
    pointer is not null, the size is not zero and [mmap] succeeds, it
    returns true for every alignment, storing the default 8 for 0 and the
    given value otherwise. *)
Theorem init_rejects_null_and_zero os w sz al nm :
  (pool w = None \/ sz = 0 -> memory_pool_init os w sz al nm = (false, w))
  /\ (forall p0 base,
        pool w = Some p0 -> sz <> 0 ->
        mmap os (align_size sz (getpagesize os)) = Some base ->
        exists w' p,
          memory_pool_init os w sz al nm = (true, w')
          /\ pool w' = Some p
          /\ alignment p = (if 0 <? al then al else DEFAULT_ALIGNMENT)).
Proof.
  unfold memory_pool_init. split.
  - intros [H | H].
    + by rewrite H.
    + subst sz. by destruct (pool w).
  - intros p0 base Hp Hsz Hm. rewrite Hp.
    apply Z.eqb_neq in Hsz. rewrite Hsz, Hm.
    eexists _, _. split; [reflexivity|]. split; reflexivity.
Qed.

(** ** Unlinking and splitting *)

Lemma remove_from_free_list_links w p b i :
  pool w = Some p -> b <> NULL -> 0 <= i < MAX_FREE_LISTS ->
  next (load (heap (remove_from_free_list w b i)) b) = NULL
  /\ prev (load (heap (remove_from_free_list w b i)) b) = NULL.
Proof.
  intros Hp Hb Hi. unfold remove_from_free_list. rewrite Hp.
  rewrite (eqb_NULL_false _ Hb).
  destruct (MAX_FREE_LISTS <=? i) eqn:E; [apply Z.leb_le in E; lia|].
  cbn [orb heap]. by rewrite !load_store_eq.
Qed.

Lemma split_block_null w b a w' :
  b <> NULL -> next (load (heap w) b) = NULL ->
  split_block w b a = (NULL, w') ->
  next (load (heap w') b) = NULL
  /\ prev (load (heap w') b) = prev (load (heap w) b).
Proof.
  intros Hb Hn. unfold split_block.
  destruct (pool w) as [p|]; [|by intros [= <-]].
  destruct ((b =? NULL) || negb (validate_block (heap w) b)); [by intros [= <-]|].
  destruct (_ <? sizeof_BlockHeader + MIN_BLOCK_SIZE); [by intros [= <-]|].
  intros [= Hnew <-]. cbn [heap].
  set (nb := wrap (b + sizeof_BlockHeader + align_size a (alignment p))) in *.
  assert (nb <> b) as Hne by (rewrite Hnew; auto).
  rewrite load_store_eq.
  assert (next (load (store b (set_size (align_size a (alignment p)))
                        (<[nb := mkBlockHeader BLOCK_SIGNATURE
                                   (wrap (wrap (size (load (heap w) b)
                                                - align_size a (alignment p))
                                          - sizeof_BlockHeader))
                                   true NULL b BLOCK_SIGNATURE]> (heap w))) b)
          = NULL) as Hn'.
  { rewrite load_store_eq, load_insert_ne by done. exact Hn. }
  rewrite Hn'. cbn [Z.eqb NULL].
  rewrite load_store_eq, load_insert_ne by done. simpl. split; [exact Hnew | done].
Qed.

(** ** The walk along [next] *)

Lemma chain_from_stops_at m b :
  next (load m b) = NULL ->
  forall fuel start l1 l2,
    chain_from fuel m start = l1 ++ b :: l2 -> l2 = [].
Proof.
  intros Hn. induction fuel as [|fuel IH]; intros start l1 l2 H; simpl in H.
  - by destruct l1.
  - destruct (start =? NULL); [by destruct l1|].
    destruct l1 as [|x l1]; simpl in H.
    + injection H as -> H. rewrite Hn in H.
      by destruct fuel; simpl in H.
    + injection H as -> H. by eapply IH.
Qed.


(** ** The search as a pass over the examined blocks *)

Lemma eligible_true m a b :
  eligible m a b = true <->
  validate_block m b = true /\ is_free (load m b) = true
  /\ a <= size (load m b).
Proof. unfold eligible. rewrite !andb_true_iff, Z.leb_le. tauto. Qed.

Lemma eligible_not_null m a b : eligible m a b = true -> b <> NULL.
Proof. rewrite eligible_true, validate_block_true. tauto. Qed.

Lemma scan_bucket_pick m a i fuel :
  forall block l best bi,
    list_nodes fuel m block = Some l ->
    scan_bucket fuel m a i block best bi
    = Some (pick m a (map (fun b => (b, i)) l) best bi).
Proof.
  induction fuel as [|fuel IH]; intros block l best bi H; simpl in H; [discriminate H|].
  simpl. destruct (block =? NULL).
  - by inversion H.
  - destruct (list_nodes fuel m (next (load m block))) as [l'|] eqn:E; [|discriminate H].
    injection H as <-. simpl. fold (eligible m a block).
    destruct (eligible m a block); [|by apply IH].
    destruct ((best =? NULL) || _); [|by apply IH].
    destruct (_ =? a); [done | by apply IH].
Qed.

Lemma pick_app m a l1 : forall l2 best bi,
  perfect m a best = false ->
  pick m a (l1 ++ l2) best bi
  = if perfect m a (pick m a l1 best bi).1 then pick m a l1 best bi
    else pick m a l2 (pick m a l1 best bi).1 (pick m a l1 best bi).2.
Proof.
  induction l1 as [|[b i] l1 IH]; intros l2 best bi Hp; simpl.
  - by rewrite Hp.
  - destruct (eligible m a b) eqn:El; [|by apply IH].
    destruct ((best =? NULL) || _); [|by apply IH].
    destruct (size (load m b) =? a) eqn:Es.
    + simpl. unfold perfect. by rewrite (eqb_NULL_false _ (eligible_not_null _ _ _ El)), Es.
    + apply IH. unfold perfect. by rewrite Es, andb_false_r.
Qed.

Lemma scan_lists_pick p m a n :
  forall i best bi l,
    perfect m a best = false ->
    examined_from n p m i = Some l ->
    scan_lists n p m a i best bi = Some (pick m a l best bi).
Proof.
  induction n as [|n IH]; intros i best bi l Hp H; cbn [examined_from] in H;
    cbn [scan_lists].
  - by inversion H.
  - destruct (bucket_nodes p m i) as [l1|] eqn:E1; [|discriminate H].
    destruct (examined_from n p m (i + 1)) as [l2|] eqn:E2; [|discriminate H].
    injection H as <-. unfold bucket_nodes in E1.
    rewrite (scan_bucket_pick m a i _ _ _ best bi E1), (pick_app _ _ _ _ _ _ Hp).
    destruct (pick m a (map (fun b => (b, i)) l1) best bi) as [b1 i1] eqn:Ep.
    simpl. fold (perfect m a b1).
    destruct (perfect m a b1) eqn:Ep1; [done|]. by apply IH.
Qed.

Lemma pick_spec m a l : forall best bi,
  best = NULL \/ eligible m a best = true ->
  let r := pick m a l best bi in
  (r = (best, bi)
   /\ forall b i, (b, i) ∈ l -> eligible m a b = true ->
                  best <> NULL /\ size (load m best) <= size (load m b))
  \/ (exists l1 l2,
        l = l1 ++ r :: l2 /\ eligible m a r.1 = true
        /\ (best <> NULL -> size (load m r.1) < size (load m best))
        /\ (forall b i, (b, i) ∈ l1 -> eligible m a b = true ->
                        size (load m r.1) < size (load m b))
        /\ (forall b i, (b, i) ∈ l2 -> eligible m a b = true ->
                        size (load m r.1) <= size (load m b))).
Proof.
  induction l as [|[b i] l IH]; intros best bi Hb; simpl.
  - left. split; [done|]. intros b i H. by apply elem_of_nil in H.
  - destruct (eligible m a b) eqn:El.
    + destruct ((best =? NULL) || (size (load m b) <? size (load m best))) eqn:Ec.
      * assert (best <> NULL -> size (load m b) < size (load m best)) as Hlt.
        { intros Hn. apply orb_true_iff in Ec as [Ec|Ec].
          - apply Z.eqb_eq in Ec. done.
          - by apply Z.ltb_lt in Ec. }
        destruct (size (load m b) =? a) eqn:Es.
        -- right. exists [], l. simpl. split; [done|]. split; [done|].
           split; [done|]. split.
           ++ intros b' i' H. by apply elem_of_nil in H.
           ++ intros b' i' _ H'. apply Z.eqb_eq in Es. apply eligible_true in H'. lia.
        -- destruct (IH b i (or_intror El)) as [[Hr Hall]|(l1 & l2 & Hl & He & Hlt' & H1 & H2)].
           ++ right. exists [], l. rewrite Hr. simpl. split; [done|]. split; [done|].
              split; [done|]. split.
              ** intros b' i' H. by apply elem_of_nil in H.
              ** intros b' i' Hin H'. by apply (Hall b' i').
           ++ right. exists ((b, i) :: l1), l2. split; [simpl; by rewrite <- Hl|].
              split; [done|].
              assert (size (load m (pick m a l b i).1) < size (load m b)) as Hrb.
              { apply Hlt'. by eapply eligible_not_null. }
              split; [intros Hn; specialize (Hlt Hn); lia|]. split; [|done].
              intros b' i' Hin H'. apply elem_of_cons in Hin as [[= -> ->]|Hin]; [done|].
              by apply (H1 b' i').
      * apply orb_false_iff in Ec as [Ec1 Ec2].
        apply Z.eqb_neq in Ec1. apply Z.ltb_ge in Ec2.
        destruct (IH best bi Hb) as [[Hr Hall]|(l1 & l2 & Hl & He & Hlt' & H1 & H2)].
        -- left. split; [done|]. intros b' i' Hin H'.
           apply elem_of_cons in Hin as [[= -> ->]|Hin]; [done|]. by apply (Hall b' i').
        -- right. exists ((b, i) :: l1), l2. split; [simpl; by rewrite <- Hl|].
           split; [done|]. split; [done|]. split; [|done].
           intros b' i' Hin H'. apply elem_of_cons in Hin as [[= -> ->]|Hin].
           ++ specialize (Hlt' Ec1). lia.
           ++ by apply (H1 b' i').
    + destruct (IH best bi Hb) as [[Hr Hall]|(l1 & l2 & Hl & He & Hlt' & H1 & H2)].
      * left. split; [done|]. intros b' i' Hin H'.
        apply elem_of_cons in Hin as [[= -> ->]|Hin]; [congruence|]. by apply (Hall b' i').
      * right. exists ((b, i) :: l1), l2. split; [simpl; by rewrite <- Hl|].
        split; [done|]. split; [done|]. split; [|done].
        intros b' i' Hin H'. apply elem_of_cons in Hin as [[= -> ->]|Hin]; [congruence|].
        by apply (H1 b' i').
Qed.

Lemma examined_from_range p m n : forall i l b j,
  examined_from n p m i = Some l -> (b, j) ∈ l -> i <= j < i + Z.of_nat n.
Proof.
  induction n as [|n IH]; intros i l b j H Hin; cbn [examined_from] in H.
  - injection H as <-. by apply elem_of_nil in Hin.
  - destruct (bucket_nodes p m i) as [l1|]; [|discriminate H].
    destruct (examined_from n p m (i + 1)) as [l2|] eqn:E2; [|discriminate H].
    injection H as <-. apply elem_of_app in Hin as [Hin|Hin].
    + apply list_elem_of_fmap in Hin as (x & [= -> ->] & _). lia.
    + specialize (IH _ _ _ _ E2 Hin). lia.
Qed.

(** ** The fuel of the list walks is enough *)

Lemma list_nodes_mono m n : forall n' b l,
  list_nodes n m b = Some l -> (n <= n')%nat -> list_nodes n' m b = Some l.
Proof.
  induction n as [|n IH]; intros n' b l H Hn; simpl in H; [discriminate H|].
  destruct n' as [|n']; [lia|]. simpl.
  destruct (b =? NULL); [done|].
  destruct (list_nodes n m (next (load m b))) as [l'|] eqn:E; [|discriminate H].
  rewrite (IH n' _ l' E) by lia. done.
Qed.

Lemma list_nodes_unique m n n' b l l' :
  list_nodes n m b = Some l -> list_nodes n' m b = Some l' -> l = l'.
Proof.
  intros H H'.
  apply (list_nodes_mono m n (n `max` n')) in H; [|lia].
  apply (list_nodes_mono m n' (n `max` n')) in H'; [|lia].
  congruence.
Qed.

Lemma list_nodes_length m n : forall b l,
  list_nodes n m b = Some l -> (length l < n)%nat.
Proof.
  induction n as [|n IH]; intros b l H; simpl in H; [discriminate H|].
  destruct (b =? NULL); [injection H as <-; simpl; lia|].
  destruct (list_nodes n m (next (load m b))) as [l'|] eqn:E; [|discriminate H].
  injection H as <-. specialize (IH _ _ E). simpl. lia.
Qed.

Lemma list_nodes_exact m n : forall b l,
  list_nodes n m b = Some l -> list_nodes (S (length l)) m b = Some l.
Proof.
  induction n as [|n IH]; intros b l H; simpl in H; [discriminate H|].
  destruct (b =? NULL) eqn:Eb; [injection H as <-; simpl; by rewrite Eb|].
  destruct (list_nodes n m (next (load m b))) as [l'|] eqn:E; [|discriminate H].
  injection H as <-.
  change (list_nodes (S (length (b :: l'))) m b)
    with (if b =? NULL then Some []
          else cons b <$> list_nodes (S (length l')) m (next (load m b))).
  by rewrite Eb, (IH _ _ E).
Qed.

Lemma list_nodes_suffix m n : forall l1 b x l2,
  list_nodes n m b = Some (l1 ++ x :: l2) ->
  exists n', list_nodes n' m x = Some (x :: l2).
Proof.
  induction n as [|n IH]; intros l1 b x l2 H; simpl in H; [discriminate H|].
  destruct (b =? NULL) eqn:Eb; [by destruct l1|].
  destruct (list_nodes n m (next (load m b))) as [l'|] eqn:E; [|discriminate H].
  destruct l1 as [|y l1]; simpl in H.
  - injection H as -> ->. exists (S n). simpl. by rewrite Eb, E.
  - injection H as -> ->. by eapply IH.
Qed.

Lemma list_nodes_NoDup m n : forall b l,
  list_nodes n m b = Some l -> NoDup l.
Proof.
  induction n as [|n IH]; intros b l H; pose proof H as H0; simpl in H;
    [discriminate H|].
  destruct (b =? NULL); [injection H as <-; constructor|].
  destruct (list_nodes n m (next (load m b))) as [l'|] eqn:E; [|discriminate H].
  injection H as <-. constructor; [|by eapply IH].
  intros Hin. apply list_elem_of_split in Hin as (l1 & l2 & ->).
  destruct (list_nodes_suffix m _ _ _ _ _ E) as (n' & Hs).
  pose proof (list_nodes_unique _ _ _ _ _ _ H0 Hs) as Heq.
  apply (f_equal length) in Heq. simpl in Heq. rewrite length_app in Heq.
  simpl in Heq. lia.
Qed.

(** Every node but the last holds a header. *)
Lemma list_nodes_dom m n : forall b l x l',
  list_nodes n m b = Some l -> l = l' ++ [x] -> forall y, y ∈ l' -> y ∈ dom m.
Proof.
  induction n as [|n IH]; intros b l x l' H Hl y Hy; simpl in H; [discriminate H|].
  destruct (b =? NULL); [injection H as <-; by destruct l'|].
  destruct (list_nodes n m (next (load m b))) as [l0|] eqn:E; [|discriminate H].
  injection H as <-. destruct l' as [|z l']; [by apply elem_of_nil in Hy|].
  simpl in Hl. injection Hl as <- ->.
  apply elem_of_cons in Hy as [->|Hy]; [|by eapply IH].
  destruct n; simpl in E; [discriminate E|].
  destruct (next (load m b) =? NULL) eqn:En; [by destruct l'|].
  apply Z.eqb_neq in En. apply elem_of_dom. unfold load in En.
  destruct (m !! b); [done|]. by simpl in En.
Qed.

Lemma list_nodes_fuel m n b l :
  list_nodes n m b = Some l -> list_nodes (list_fuel m) m b = Some l.
Proof.
  intros H. apply (list_nodes_mono m (S (length l))); [by eapply list_nodes_exact|].
  unfold list_fuel. destruct (decide (l = [])) as [->|Hne]; [simpl; lia|].
  destruct (exists_last Hne) as (l' & x & ->).
  assert (NoDup l') as Hnd.
  { apply list_nodes_NoDup in H. by apply NoDup_app in H as (? & _ & _). }
  assert (list_to_set l' ⊆ dom m) as Hsub.
  { intros y Hy. apply elem_of_list_to_set in Hy. by eapply list_nodes_dom. }
  apply subseteq_size in Hsub.
  rewrite size_list_to_set, size_dom in Hsub by done.
  rewrite length_app. simpl. lia.
Qed.

(** Null-terminated bucket lists make the examination order defined. *)
Lemma examined_from_total p m n : forall i,
  (forall j, i <= j < i + Z.of_nat n ->
             exists k l, list_nodes k m (head (free_list p j)) = Some l) ->
  exists l, examined_from n p m i = Some l.
Proof.
  induction n as [|n IH]; intros i H; cbn [examined_from]; [by eexists|].
  destruct (H i) as (k & l1 & Hl1); [lia|].
  unfold bucket_nodes. rewrite (list_nodes_fuel _ _ _ _ Hl1).
  destruct (IH (i + 1)) as (l2 & Hl2); [intros j Hj; apply H; lia|].
  rewrite Hl2. by eexists.
Qed.

(** ** Machine arithmetic *)

Lemma wrap_range z : 0 <= wrap z < 2 ^ 64.
Proof. unfold wrap. apply Z.mod_pos_bound. lia. Qed.

Lemma wrap_small z : 0 <= z < 2 ^ 64 -> wrap z = z.
Proof. unfold wrap. apply Z.mod_small. Qed.

Lemma wrap_testbit z i :
  0 <= i -> Z.testbit (wrap z) i = (i <? 64) && Z.testbit z i.
Proof.
  intros Hi. unfold wrap. destruct (i <? 64) eqn:E.
  - apply Z.ltb_lt in E. by rewrite Z.mod_pow2_bits_low.
  - apply Z.ltb_ge in E. by rewrite Z.mod_pow2_bits_high.
Qed.

Lemma testbit_high x i : 0 <= x < 2 ^ 64 -> 64 <= i -> Z.testbit x i = false.
Proof.
  intros Hx Hi. rewrite <- (wrap_small x Hx), wrap_testbit by lia.
  destruct (i <? 64) eqn:E; [apply Z.ltb_lt in E; lia | done].
Qed.

(** [x & ~mask] on 64-bit words is [Z.ldiff]. *)
Lemma land_wrap_lnot x mask :
  0 <= x < 2 ^ 64 -> Z.land x (wrap (Z.lnot mask)) = Z.ldiff x mask.
Proof.
  intros Hx. apply Z.bits_inj'. intros i Hi.
  rewrite Z.land_spec, Z.ldiff_spec, wrap_testbit, Z.lnot_spec by done.
  destruct (i <? 64) eqn:E; [done|].
  apply Z.ltb_ge in E. rewrite (testbit_high x i) by done. done.
Qed.

Lemma align_size_ldiff sz al :
  align_size sz al = Z.ldiff (wrap (sz + al - 1)) (wrap (al - 1)).
Proof. unfold align_size. apply land_wrap_lnot, wrap_range. Qed.

Lemma ldiff_range x mask : 0 <= x < 2 ^ 64 -> 0 <= Z.ldiff x mask <= x.
Proof.
  intros Hx.
  assert (Z.land (Z.ldiff x mask) (Z.land x mask) = 0) as Hdisj.
  { apply Z.bits_inj'. intros i Hi.
    rewrite !Z.land_spec, Z.ldiff_spec, Z.bits_0.
    by destruct (Z.testbit x i), (Z.testbit mask i). }
  assert (x = Z.ldiff x mask + Z.land x mask) as Hsum.
  { rewrite Z.add_nocarry_lxor, Z.lxor_lor by done.
    symmetry. apply Z.lor_ldiff_and. }
  assert (0 <= Z.ldiff x mask) by (apply Z.ldiff_nonneg; lia).
  assert (0 <= Z.land x mask) by (apply Z.land_nonneg; lia).
  lia.
Qed.

Lemma align_size_range sz al : 0 <= align_size sz al < 2 ^ 64.
Proof.
  rewrite align_size_ldiff.
  pose proof (wrap_range (sz + al - 1)) as H.
  pose proof (ldiff_range _ (wrap (al - 1)) H). lia.
Qed.

(** Rounding an already rounded size changes nothing. *)
Lemma align_size_idempotent sz al :
  align_size (align_size sz al) al = align_size sz al.
Proof.
  rewrite !align_size_ldiff.
  set (x := wrap (sz + al - 1)). set (k := wrap (al - 1)).
  set (y := Z.ldiff x k).
  assert (0 <= x < 2 ^ 64) as Hx by apply wrap_range.
  assert (0 <= k < 2 ^ 64) as Hk by apply wrap_range.
  assert (0 <= y < 2 ^ 64) as Hy by (pose proof (ldiff_range x k Hx); unfold y; lia).
  assert (Z.land y k = 0) as Hdisj.
  { apply Z.bits_inj'. intros i Hi. unfold y.
    rewrite Z.land_spec, Z.ldiff_spec, Z.bits_0. by destruct (Z.testbit k i), (Z.testbit x i). }
  assert (wrap (y + al - 1) = Z.lor y k) as ->.
  { assert (wrap (y + al - 1) = wrap (y + k)) as ->.
    { unfold k, wrap. replace (y + al - 1) with (y + (al - 1)) by lia.
      by rewrite Zplus_mod_idemp_r. }
    rewrite Z.add_nocarry_lxor, Z.lxor_lor by done.
    apply wrap_small. split; [apply Z.lor_nonneg; lia|].
    destruct (Z.eq_dec (Z.lor y k) 0) as [->|Hne]; [lia|].
    apply Z.log2_lt_cancel. rewrite Z.log2_lor by lia.
    rewrite Z.log2_pow2 by lia.
    assert (forall v, 0 <= v < 2 ^ 64 -> Z.log2 v < 64) as Hlog.
    { intros v Hv. destruct (Z.eq_dec v 0) as [->|Hv0]; [simpl; lia|].
      apply Z.log2_lt_pow2; lia. }
    pose proof (Hlog y Hy). pose proof (Hlog k Hk). lia. }
  apply Z.bits_inj'. intros i Hi. unfold y.
  rewrite !Z.ldiff_spec, Z.lor_spec, Z.ldiff_spec.
  by destruct (Z.testbit k i), (Z.testbit x i).
Qed.

(** Rounding to a power of two yields a multiple of it. *)
Lemma align_size_pow2 sz k :
  0 <= k < 64 -> exists q, 0 <= q /\ align_size sz (2 ^ k) = q * 2 ^ k.
Proof.
  intros Hk. rewrite align_size_ldiff.
  assert (0 < 2 ^ k) by (apply Z.pow_pos_nonneg; lia).
  assert (2 ^ k < 2 ^ 64) by (apply Z.pow_lt_mono_r; lia).
  rewrite (wrap_small (2 ^ k - 1)) by lia.
  replace (2 ^ k - 1) with (Z.ones k) by (rewrite Z.ones_equiv; lia).
  rewrite Z.ldiff_ones_r by lia.
  rewrite Z.shiftl_mul_pow2, Z.shiftr_div_pow2 by lia.
  eexists. split; [|reflexivity].
  apply Z.div_pos; [apply wrap_range | lia].
Qed.

(** ** Preservation of the region bounds *)

Lemma keeps_status_extent f : keeps_status f -> keeps_extent f.
Proof. intros H h. destruct (H h) as (? & ? & ? & ?). auto. Qed.

Lemma set_next_status v : keeps_status (set_next v).
Proof. by intros []. Qed.
Lemma set_prev_status v : keeps_status (set_prev v).
Proof. by intros []. Qed.
Lemma set_is_free_extent v : keeps_extent (set_is_free v).
Proof. by intros []. Qed.

Create HintDb pool.

#[local] Hint Resolve set_next_status set_prev_status set_is_free_extent
  keeps_status_extent : pool.

Lemma heap_bounded_store L a f m :
  keeps_extent f -> heap_bounded L m -> heap_bounded L (store a f m).
Proof.
  intros Hf Hm b. rewrite load_store. case_decide; [subst b|apply Hm].
  destruct (Hf (load m a)) as (Hs & Hg & Hz). specialize (Hm a).
  unfold block_bounded in *. rewrite Hs, Hg, Hz. exact Hm.
Qed.

Lemma heap_bounded_store_size L a v m :
  heap_bounded L m ->
  (signature (load m a) = BLOCK_SIGNATURE -> magic (load m a) = BLOCK_SIGNATURE ->
   0 < a /\ 0 <= v /\ a + sizeof_BlockHeader + v <= L) ->
  heap_bounded L (store a (set_size v) m).
Proof.
  intros Hm Hv b. rewrite load_store. case_decide; [subst b|apply Hm].
  unfold block_bounded. simpl. exact Hv.
Qed.

Lemma heap_bounded_insert L a h (m : gmap Z BlockHeader) :
  heap_bounded L m -> block_bounded L a h -> heap_bounded L (<[a := h]> m).
Proof.
  intros Hm Hh b. destruct (decide (a = b)) as [->|Hne].
  - by rewrite load_insert_eq.
  - rewrite load_insert_ne by done. apply Hm.
Qed.

Lemma heap_grows_refl m : heap_grows m m.
Proof. intros a. repeat split; lia. Qed.

Lemma heap_grows_trans m1 m2 m3 :
  heap_grows m1 m2 -> heap_grows m2 m3 -> heap_grows m1 m3.
Proof.
  intros H1 H2 a. destruct (H1 a) as (? & ? & ? & ?), (H2 a) as (? & ? & ? & ?).
  repeat split; try congruence; lia.
Qed.

Lemma heap_grows_store a f m : keeps_status f -> heap_grows m (store a f m).
Proof.
  intros Hf b. rewrite load_store. case_decide; [subst b|repeat split; lia].
  destruct (Hf (load m a)) as (? & ? & ? & ?). repeat split; try done; lia.
Qed.

Lemma heap_grows_store_size a v m :
  size (load m a) <= v -> heap_grows m (store a (set_size v) m).
Proof.
  intros Hv b. rewrite load_store. case_decide; [subst b|repeat split; lia].
  by simpl.
Qed.

Lemma pool_core_refl p : pool_core p p.
Proof. by repeat split. Qed.

Lemma pool_core_trans p1 p2 p3 :
  pool_core p1 p2 -> pool_core p2 p3 -> pool_core p1 p3.
Proof.
  unfold pool_core. intros (?&?&?&?&?&?) (?&?&?&?&?&?). repeat split; congruence.
Qed.

Lemma pool_core_free_list i f p : pool_core p (set_free_list i f p).
Proof. by repeat split. Qed.

Lemma pool_core_num_blocks v p : pool_core p (set_num_blocks v p).
Proof. by repeat split. Qed.

#[local] Hint Resolve heap_grows_refl pool_core_refl pool_core_free_list
  pool_core_num_blocks heap_bounded_store heap_grows_store : pool.

Lemma set_size_marks v : keeps_marks (set_size v).
Proof. by intros []. Qed.
Lemma set_next_marks v : keeps_marks (set_next v).
Proof. by intros []. Qed.
Lemma set_prev_marks v : keeps_marks (set_prev v).
Proof. by intros []. Qed.

Lemma same_marks_refl m : same_marks m m.
Proof. by intros a. Qed.

Lemma same_marks_trans m1 m2 m3 :
  same_marks m1 m2 -> same_marks m2 m3 -> same_marks m1 m3.
Proof.
  intros H1 H2 a. destruct (H1 a) as (? & ? & ?), (H2 a) as (? & ? & ?).
  repeat split; congruence.
Qed.

Lemma same_marks_store a f m : keeps_marks f -> same_marks m (store a f m).
Proof.
  intros Hf b. rewrite load_store. case_decide; [subst b|done]. apply Hf.
Qed.

Lemma heap_grows_marks m m' : heap_grows m m' -> same_marks m m'.
Proof. intros H a. destruct (H a) as (? & ? & ? & _). done. Qed.

#[local] Hint Resolve set_size_marks set_next_marks set_prev_marks
  same_marks_refl same_marks_store : pool.

(** *** The merge step *)

Lemma size_store_keeps a f m x :
  keeps_extent f -> size (load (store a f m) x) = size (load m x).
Proof.
  intros Hf. rewrite load_store. case_decide; [subst; apply Hf|done].
Qed.

Lemma absorb_ok L m x y :
  L < 2 ^ 64 -> heap_bounded L m ->
  signature (load m x) = BLOCK_SIGNATURE -> magic (load m x) = BLOCK_SIGNATURE ->
  validate_block m y = true ->
  x + sizeof_BlockHeader + size (load m x) = y ->
  heap_bounded L (absorb m x y) /\ heap_grows m (absorb m x y)
  /\ size (load (absorb m x y) x)
     = size (load m x) + sizeof_BlockHeader + size (load m y).
Proof.
  intros HL Hm Hsx Hgx Hy Hadj.
  apply validate_block_true in Hy as (Hy0 & Hsy & Hgy & Hzy).
  destruct (Hm x Hsx Hgx) as (Hx0 & Hx1 & Hx2).
  destruct (Hm y Hsy Hgy) as (_ & _ & Hy2).
  unfold sizeof_BlockHeader in *.
  assert (wrap (size (load m x) + 48 + size (load m y))
          = size (load m x) + 48 + size (load m y)) as Hw
    by (apply wrap_small; lia).
  unfold absorb. unfold sizeof_BlockHeader. rewrite Hw.
  set (m1 := store x (set_size (size (load m x) + 48 + size (load m y))) m).
  assert (heap_bounded L m1) as Hb1.
  { apply heap_bounded_store_size; [done|]. intros _ _. unfold sizeof_BlockHeader. lia. }
  assert (heap_grows m m1) as Hg1 by (apply heap_grows_store_size; lia).
  set (m2 := store x (set_next (next (load m1 y))) m1).
  assert (heap_bounded L m2) as Hb2 by (apply heap_bounded_store; auto with pool).
  assert (heap_grows m m2) as Hg2.
  { eapply heap_grows_trans; [exact Hg1|]. apply heap_grows_store; auto with pool. }
  assert (size (load m2 x) = size (load m x) + 48 + size (load m y)) as Hz2.
  { unfold m2. rewrite size_store_keeps by auto with pool.
    unfold m1. by rewrite load_store_eq. }
  destruct (next (load m2 y) =? NULL); [done|]. split; [|split].
  - apply heap_bounded_store; auto with pool.
  - eapply heap_grows_trans; [exact Hg2|]. apply heap_grows_store; auto with pool.
  - by rewrite size_store_keeps by auto with pool.
Qed.

Lemma coalesce_next_unfold fuel w block :
  coalesce_next (S fuel) w block =
  let m := heap w in
  let next_block := next (load m block) in
  if negb (next_block =? NULL) && is_free (load m next_block)
     && validate_block m next_block
  then
    if wrap (block + sizeof_BlockHeader + size (load m block)) =? next_block
    then
      coalesce_next fuel
        (upd_pool (fun p => set_num_blocks (wrap (num_blocks p - 1)) p)
                  (with_heap (absorb m block next_block) w)) block
    else Some w
  else Some w.
Proof. reflexivity. Qed.

Lemma coalesce_prev_unfold fuel w block :
  coalesce_prev (S fuel) w block =
  let m := heap w in
  let prev_block := prev (load m block) in
  if negb (prev_block =? NULL) && is_free (load m prev_block)
     && validate_block m prev_block
  then
    if wrap (prev_block + sizeof_BlockHeader + size (load m prev_block)) =? block
    then
      coalesce_prev fuel
        (upd_pool (fun p => set_num_blocks (wrap (num_blocks p - 1)) p)
                  (with_heap (absorb m prev_block block) w)) prev_block
    else Some (block, w)
  else Some (block, w).
Proof. reflexivity. Qed.

Lemma coalesce_next_ok L fuel : forall w b w' p,
  L < 2 ^ 64 -> pool w = Some p -> heap_bounded L (heap w) ->
  signature (load (heap w) b) = BLOCK_SIGNATURE ->
  magic (load (heap w) b) = BLOCK_SIGNATURE ->
  coalesce_next fuel w b = Some w' ->
  heap_bounded L (heap w') /\ heap_grows (heap w) (heap w')
  /\ exists p', pool w' = Some p' /\ pool_core p p'.
Proof.
  induction fuel as [|fuel IH]; intros w b w' p HL Hp Hm Hs Hg H; [discriminate H|].
  rewrite coalesce_next_unfold in H. cbv zeta in H.
  set (nb := next (load (heap w) b)) in *.
  destruct (negb (nb =? NULL) && is_free (load (heap w) nb)
            && validate_block (heap w) nb) eqn:Ec;
    [|injection H as <-; eauto with pool].
  destruct (_ =? nb) eqn:Ee; [|injection H as <-; eauto with pool].
  apply andb_true_iff in Ec as [_ Hv]. apply Z.eqb_eq in Ee.
  destruct (Hm b Hs Hg) as (Hb0 & Hb1 & Hb2).
  rewrite wrap_small in Ee by (unfold sizeof_BlockHeader in *; lia).
  destruct (absorb_ok L (heap w) b nb HL Hm Hs Hg Hv Ee) as (Hb & Hgr & _).
  destruct (Hgr b) as (Hs' & Hg' & _).
  eapply IH in H as (H1 & H2 & p' & H3 & H4); [| done | by (unfold upd_pool, with_heap; simpl; rewrite Hp) | done | simpl; congruence | simpl; congruence].
  split; [done|]. split; [by eapply heap_grows_trans|].
  exists p'. split; [done|]. eapply pool_core_trans; [|exact H4]. auto with pool.
Qed.

Lemma coalesce_prev_ok L fuel : forall w b b' w' p,
  L < 2 ^ 64 -> pool w = Some p -> heap_bounded L (heap w) ->
  signature (load (heap w) b) = BLOCK_SIGNATURE ->
  magic (load (heap w) b) = BLOCK_SIGNATURE ->
  0 < size (load (heap w) b) -> b <> NULL ->
  coalesce_prev fuel w b = Some (b', w') ->
  heap_bounded L (heap w') /\ heap_grows (heap w) (heap w')
  /\ validate_block (heap w') b' = true
  /\ exists p', pool w' = Some p' /\ pool_core p p'.
Proof.
  induction fuel as [|fuel IH]; intros w b b' w' p HL Hp Hm Hs Hg Hz Hn H; [discriminate H|].
  rewrite coalesce_prev_unfold in H. cbv zeta in H.
  set (pb := prev (load (heap w) b)) in *.
  assert (validate_block (heap w) b = true) as Hvb by (by apply validate_block_true).
  destruct (negb (pb =? NULL) && is_free (load (heap w) pb)
            && validate_block (heap w) pb) eqn:Ec;
    [|injection H as <- <-; eauto 10 with pool].
  destruct (_ =? b) eqn:Ee; [|injection H as <- <-; eauto 10 with pool].
  apply andb_true_iff in Ec as [_ Hv]. apply Z.eqb_eq in Ee.
  pose proof Hv as Hv'.
  apply validate_block_true in Hv' as (Hp0 & Hps & Hpg & Hpz).
  destruct (Hm pb Hps Hpg) as (Hb0 & Hb1 & Hb2).
  rewrite wrap_small in Ee by (unfold sizeof_BlockHeader in *; lia).
  destruct (absorb_ok L (heap w) pb b HL Hm Hps Hpg Hvb Ee) as (Hb & Hgr & _).
  destruct (Hgr pb) as (Hs' & Hg' & _ & Hz').
  eapply IH in H as (H1 & H2 & Hv2 & p' & H3 & H4);
    [| done | by (unfold upd_pool, with_heap; simpl; rewrite Hp) | done
     | simpl; congruence | simpl; congruence | simpl; lia | done].
  split; [done|]. split; [by eapply heap_grows_trans|]. split; [done|].
  exists p'. split; [done|]. eapply pool_core_trans; [|exact H4]. auto with pool.
Qed.

Lemma coalesce_blocks_ok L w b b' w' p :
  L < 2 ^ 64 -> pool w = Some p -> heap_bounded L (heap w) ->
  coalesce_blocks w b = Some (b', w') ->
  heap_bounded L (heap w') /\ heap_grows (heap w) (heap w')
  /\ exists p', pool w' = Some p' /\ pool_core p p'.
Proof.
  intros HL Hp Hm H. unfold coalesce_blocks in H. rewrite Hp in H.
  destruct ((b =? NULL) || negb (validate_block (heap w) b)
            || negb (is_free (load (heap w) b))) eqn:Ec;
    [injection H as <- <-; eauto with pool|].
  apply orb_false_iff in Ec as [Ec _]. apply orb_false_iff in Ec as [_ Ev].
  apply negb_false_iff, validate_block_true in Ev as (Hn & Hs & Hg & Hz).
  destruct (coalesce_next _ w b) as [w1|] eqn:E1; [|discriminate H].
  destruct (coalesce_next_ok L _ _ _ _ _ HL Hp Hm Hs Hg E1)
    as (Hb1 & Hg1 & p1 & Hp1 & Hc1).
  destruct (Hg1 b) as (Hs1 & Hm1 & _ & Hz1).
  eapply coalesce_prev_ok in H as (Hb2 & Hg2 & _ & p2 & Hp2 & Hc2);
    [| done | exact Hp1 | done | congruence | congruence | lia | done].
  split; [done|]. split; [by eapply heap_grows_trans|].
  exists p2. split; [done|]. by eapply pool_core_trans.
Qed.

Lemma add_to_free_list_ok L w b p :
  pool w = Some p -> heap_bounded L (heap w) ->
  heap_bounded L (heap (add_to_free_list w b))
  /\ heap_grows (heap w) (heap (add_to_free_list w b))
  /\ exists p', pool (add_to_free_list w b) = Some p' /\ pool_core p p'.
Proof.
  intros Hp Hm. unfold add_to_free_list. rewrite Hp.
  destruct ((b =? NULL) || negb (validate_block (heap w) b)); [eauto with pool|].
  cbn [heap pool].
  set (h := head (free_list p (get_free_list_index (size (load (heap w) b))))).
  set (m1 := store b (set_next h) (heap w)).
  set (m2 := store b (set_prev NULL) m1).
  assert (heap_bounded L m2) by (unfold m2, m1; auto with pool).
  assert (heap_grows (heap w) m2).
  { apply (heap_grows_trans _ m1); unfold m2, m1; auto with pool. }
  split; [|split].
  - destruct (h =? NULL); auto with pool.
  - destruct (h =? NULL); [done|].
    apply (heap_grows_trans _ m2); auto with pool.
  - eauto with pool.
Qed.

Lemma remove_from_free_list_ok L w b i p :
  pool w = Some p -> heap_bounded L (heap w) ->
  heap_bounded L (heap (remove_from_free_list w b i))
  /\ heap_grows (heap w) (heap (remove_from_free_list w b i))
  /\ exists p', pool (remove_from_free_list w b i) = Some p' /\ pool_core p p'.
Proof.
  intros Hp Hm. unfold remove_from_free_list. rewrite Hp.
  destruct ((b =? NULL) || (MAX_FREE_LISTS <=? i)); [eauto with pool|].
  cbn [heap pool].
  set (m1 := if next (load (heap w) b) =? NULL then heap w
             else store (next (load (heap w) b))
                        (set_prev (prev (load (heap w) b))) (heap w)).
  assert (heap_bounded L m1 /\ heap_grows (heap w) m1) as [Hb1 Hg1].
  { unfold m1. destruct (next (load (heap w) b) =? NULL); auto with pool. }
  set (m2 := if prev (load m1 b) =? NULL then m1
             else store (prev (load m1 b)) (set_next (next (load m1 b))) m1).
  assert (heap_bounded L m2 /\ heap_grows m1 m2) as [Hb2 Hg2].
  { unfold m2. destruct (prev (load m1 b) =? NULL); auto with pool. }
  split; [|split].
  - auto with pool.
  - eapply heap_grows_trans; [exact Hg1|]. eapply heap_grows_trans; [exact Hg2|].
    apply (heap_grows_trans _ (store b (set_next NULL) m2)); auto with pool.
  - eexists. split; [reflexivity|].
    destruct (head (free_list p i) =? b).
    + apply (pool_core_trans _ (set_free_list i (set_head (next (load (heap w) b))) p));
        auto with pool.
    + auto with pool.
Qed.

Lemma split_block_ok L w p b a r w' :
  L < 2 ^ 64 -> pool w = Some p -> heap_bounded L (heap w) ->
  align_size a (alignment p) = a ->
  (validate_block (heap w) b = true -> a <= size (load (heap w) b)) ->
  split_block w b a = (r, w') ->
  heap_bounded L (heap w')
  /\ (exists p', pool w' = Some p' /\ pool_core p p')
  /\ signature (load (heap w') b) = signature (load (heap w) b)
  /\ magic (load (heap w') b) = magic (load (heap w) b)
  /\ is_free (load (heap w') b) = is_free (load (heap w) b)
  /\ forall x,
       signature (load (heap w') x) = BLOCK_SIGNATURE ->
       signature (load (heap w) x) = BLOCK_SIGNATURE
       \/ (x = b + sizeof_BlockHeader + a
           /\ signature (load (heap w) b) = BLOCK_SIGNATURE).
Proof.
  intros HL Hp Hm Ha Hfit H. unfold split_block in H. rewrite Hp, Ha in H.
  destruct ((b =? NULL) || negb (validate_block (heap w) b)) eqn:Ec;
    [injection H as <- <-; eauto 10 with pool|].
  apply orb_false_iff in Ec as [_ Ev]. apply negb_false_iff in Ev.
  specialize (Hfit Ev).
  apply validate_block_true in Ev as (Hn & Hs & Hg & Hz).
  destruct (Hm b Hs Hg) as (Hb0 & _ & Hb2).
  pose proof (align_size_range a (alignment p)) as Har. rewrite Ha in Har.
  unfold sizeof_BlockHeader, MIN_BLOCK_SIZE in *.
  rewrite (wrap_small (size (load (heap w) b) - a)) in H by lia.
  destruct (_ <? 48 + 16) eqn:Er; [injection H as <- <-; eauto 10 with pool|].
  apply Z.ltb_ge in Er.
  rewrite (wrap_small (b + 48 + a)), (wrap_small (size (load (heap w) b) - a - 48))
    in H by lia.
  injection H as <- <-. cbn [heap pool].
  set (nb := b + 48 + a).
  set (m1 := <[nb := _]> (heap w)).
  assert (heap_bounded L m1) as Hb1.
  { apply heap_bounded_insert; [done|]. intros _ _. simpl.
    unfold sizeof_BlockHeader, nb. lia. }
  set (m2 := store b (set_size a) m1).
  assert (heap_bounded L m2) as Hb2'.
  { apply heap_bounded_store_size; [done|]. intros _ _.
    unfold sizeof_BlockHeader. lia. }
  set (m3 := if next (load m2 b) =? NULL then m2
             else store nb (set_next (next (load (store (next (load m2 b))
                                                   (set_prev nb) m2) b)))
                        (store (next (load m2 b)) (set_prev nb) m2)).
  assert (heap_bounded L m3 /\ same_marks m2 m3) as [Hb3 Hk3].
  { unfold m3. destruct (next (load m2 b) =? NULL); [auto with pool|]. split.
    - auto with pool.
    - eapply same_marks_trans; apply same_marks_store; auto with pool. }
  assert (same_marks m1 (store b (set_next nb) m3)) as Hk.
  { apply (same_marks_trans _ m2); [unfold m2; auto with pool|].
    apply (same_marks_trans _ m3); auto with pool. }
  assert (nb <> b) as Hne by (unfold nb; lia).
  assert (load m1 b = load (heap w) b) as Hl1
    by (unfold m1; by rewrite load_insert_ne).
  destruct (Hk b) as (Hks & Hkm & Hkf). rewrite Hl1 in Hks, Hkm, Hkf.
  split; [auto with pool|]. split; [eauto with pool|].
  split; [done|]. split; [done|]. split; [done|].
  intros x Hx. destruct (Hk x) as (Hxs & _). rewrite Hxs in Hx.
  destruct (decide (nb = x)) as [<-|Hnx].
  - right. split; [reflexivity | exact Hs].
  - left. unfold m1 in Hx. by rewrite load_insert_ne in Hx.
Qed.

(** ** Well-formedness is invariant *)

Lemma init_well_formed os w0 sz al nm w :
  os_ok os -> memory_pool_init os w0 sz al nm = (true, w) -> well_formed w.
Proof.
  intros [(k & Hk & Hpage) Hmmap] H. unfold memory_pool_init in H.
  destruct (pool w0); [|discriminate H].
  destruct (sz =? 0); [discriminate H|].
  destruct (mmap os (align_size sz (getpagesize os))) as [base|] eqn:Em;
    [|discriminate H].
  injection H as <-.
  destruct (Hmmap _ _ Em) as (Hlen & Hbase & Hend).
  rewrite Hpage in *.
  destruct (align_size_pow2 sz k) as (q & Hq & Hsz); [lia|].
  assert (2 ^ 6 <= 2 ^ k) as Hpow by (apply Z.pow_le_mono_r; lia).
  change (2 ^ 6) with 64 in Hpow.
  assert (64 <= align_size sz (2 ^ k)) as Hbig.
  { rewrite Hsz in Hlen |- *. assert (1 <= q) by nia. nia. }
  eexists. split; [reflexivity|]. split; [reflexivity|].
  unfold region_limit.
  cbn [memory total_size used_size set_free_list set_free_lists heap].
  split; [done|]. split; [lia|].
  intros a. destruct (decide (base = a)) as [<-|Hne].
  - unfold load. rewrite lookup_singleton_eq. intros _ _. simpl.
    unfold sizeof_BlockHeader. rewrite wrap_small by lia. lia.
  - unfold load. rewrite lookup_singleton_ne by done. intros Hs. discriminate Hs.
Qed.

(** What a successful [memory_pool_alloc] leaves behind. *)
Lemma alloc_body_post w sz best sr w' :
  well_formed w -> alloc_body w sz = Some (best, sr, w') -> best <> NULL ->
  exists p p',
    pool w = Some p /\ pool w' = Some p'
    /\ pool_signature p' = POOL_SIGNATURE
    /\ memory p' = memory p /\ total_size p' = total_size p
    /\ alignment p' = alignment p
    /\ used_size p' = wrap (used_size p + size (load (heap w') best))
    /\ heap_bounded (region_limit p) (heap w')
    /\ signature (load (heap w') best) = BLOCK_SIGNATURE
    /\ magic (load (heap w') best) = BLOCK_SIGNATURE
    /\ is_free (load (heap w') best) = false
    /\ forall x,
         signature (load (heap w') x) = BLOCK_SIGNATURE ->
         signature (load (heap w) x) = BLOCK_SIGNATURE
         \/ (x = best + sizeof_BlockHeader + align_size sz (alignment p)
             /\ signature (load (heap w) best) = BLOCK_SIGNATURE).
Proof.
  intros (p & Hp & Hsig & HL & Hused & Hm) H Hbest. unfold alloc_body in H.
  rewrite Hp in H.
  destruct (negb (pool_signature p =? POOL_SIGNATURE) || (sz =? 0));
    [by injection H as <- _ _|].
  destruct (_ <? _); [by injection H as <- _ _|].
  set (a := align_size sz (alignment p)) in *.
  destruct (find_best_block p (heap w) a) as [[b bi]|] eqn:Ef; [|discriminate H].
  destruct (b =? NULL) eqn:Eb; [by injection H as <- _ _|].
  apply Z.eqb_neq in Eb.
  apply find_best_block_inv in Ef as [[Hnull|Hel] Hbi]; [done|].
  apply eligible_true in Hel as (Hv & _ & Hfit).
  apply validate_block_true in Hv as (_ & Hbs & Hbm & _).
  destruct (remove_from_free_list_ok _ w b bi p Hp Hm)
    as (Hb1 & Hg1 & p1 & Hp1 & Hc1).
  destruct (split_block _ b a) as [sr' w2] eqn:Es.
  eapply split_block_ok in Es
    as (Hb2 & (p2 & Hp2 & Hc2) & Hss & Hsm & _ & Hnew);
    [| exact HL | exact Hp1 | exact Hb1 | |].
  2:{ destruct Hc1 as (_ & _ & _ & -> & _). apply align_size_idempotent. }
  2:{ intros _. destruct (Hg1 b) as (_ & _ & _ & Hz). lia. }
  assert (exists p3 w3,
             w3 = (if sr' =? NULL then w2 else add_to_free_list w2 sr')
             /\ pool w3 = Some p3 /\ pool_core p p3
             /\ heap_bounded (region_limit p) (heap w3)
             /\ same_marks (heap w2) (heap w3))
    as (p3 & w3 & Hw3 & Hp3 & Hc3 & Hb3 & Hk3).
  { destruct (sr' =? NULL).
    - exists p2, w2. split; [done|]. split; [done|].
      split; [by eapply pool_core_trans|]. auto with pool.
    - destruct (add_to_free_list_ok _ w2 sr' p2 Hp2 Hb2)
        as (Hb3 & Hg3 & p3 & Hp3 & Hc3).
      exists p3, (add_to_free_list w2 sr'). split; [done|]. split; [done|].
      split; [|split; [done|by apply heap_grows_marks]].
      eapply pool_core_trans; [exact Hc1|]. by eapply pool_core_trans. }
  rewrite <- Hw3 in H. injection H as <- _ <-.
  destruct Hc3 as (Hs3 & Hm3 & Ht3 & Ha3 & Hu3 & _).
  destruct (Hg1 b) as (Hg1s & Hg1m & _).
  destruct (Hk3 b) as (Hk3s & Hk3m & _).
  set (m4 := store b (set_is_free false) (heap w3)).
  assert (forall x, signature (load m4 x) = signature (load (heap w3) x)) as Hs4.
  { intros x. unfold m4. rewrite load_store. case_decide; [by subst|done]. }
  unfold upd_pool, with_heap. cbn [pool heap]. rewrite Hp3.
  cbn [fmap option_fmap option_map]. fold m4.
  exists p. eexists. split; [done|]. split; [reflexivity|].
  assert (heap_bounded (region_limit p) m4) as Hb4
    by (unfold m4; auto with pool).
  assert (forall x,
             signature (load m4 x) = BLOCK_SIGNATURE ->
             signature (load (heap w) x) = BLOCK_SIGNATURE
             \/ (x = b + sizeof_BlockHeader + a
                 /\ signature (load (heap w) b) = BLOCK_SIGNATURE)) as Hprov.
  { intros x Hx. rewrite Hs4 in Hx. destruct (Hk3 x) as (Hxs & _).
    rewrite Hxs in Hx. destruct (Hg1 x) as (Hxg & _).
    destruct (Hnew x Hx) as [Hold|[Hxeq Hold]].
    - left. congruence.
    - right. split; [done|congruence]. }
  match goal with |- context [if ?c then _ else _] => destruct c end;
    cbn [pool_signature memory total_size alignment used_size
         set_peak_usage set_num_allocations set_used_size];
    (split; [congruence|]); (split; [done|]); (split; [done|]);
    (split; [done|]); (split; [by rewrite Hu3|]); (split; [done|]);
    (split; [rewrite Hs4; congruence|]);
    (split; [unfold m4; rewrite load_store_eq; simpl; congruence|]);
    (split; [unfold m4; by rewrite load_store_eq|]);
    exact Hprov.
Qed.

Lemma alloc_well_formed w sz ptr w' :
  well_formed w -> memory_pool_alloc w sz = Some (ptr, w') -> well_formed w'.
Proof.
  intros Hw H. unfold memory_pool_alloc in H.
  destruct (alloc_body w sz) as [[[b sr] w1]|] eqn:E; [|discriminate H].
  injection H as _ <-.
  destruct (decide (b = NULL)) as [->|Hb].
  - assert (w1 = w) as ->; [|done].
    unfold alloc_body in E. destruct (pool w); [|by simplify_eq].
    destruct (_ || _); [by simplify_eq|].
    destruct (_ <? _); [by simplify_eq|].
    destruct (find_best_block _ _ _) as [[b bi]|]; [|discriminate E].
    destruct (b =? NULL) eqn:Eb; [by simplify_eq|].
    destruct (split_block _ _ _). by simplify_eq.
  - destruct (alloc_body_post _ _ _ _ _ Hw E Hb)
      as (p & p' & Hp & Hp' & Hs & Hm & Ht & _ & Hu & Hbd & _).
    exists p'. split; [done|]. split; [done|].
    assert (region_limit p' = region_limit p) as ->
      by (unfold region_limit; congruence).
    destruct Hw as (p0 & Hp0 & _ & HL & _). rewrite Hp in Hp0.
    injection Hp0 as <-.
    split; [done|]. split; [rewrite Hu; apply wrap_range|done].
Qed.

(** What a completed [memory_pool_free] leaves behind. *)
Lemma free_done_inv w ptr w' :
  well_formed w -> memory_pool_free w ptr = Some (FreeDone, w') ->
  let b := wrap (ptr - sizeof_BlockHeader) in
  ptr <> NULL
  /\ well_formed w'
  /\ validate_block (heap w) b = true
  /\ validate_block (heap w') b = true
  /\ is_free (load (heap w') b) = true
  /\ deallocation_count w' = wrap (deallocation_count w + 1)
  /\ used_bytes w' = wrap (used_bytes w - size (load (heap w) b))
  /\ (alignment <$> pool w') = (alignment <$> pool w)
  /\ forall x, signature (load (heap w') x) = signature (load (heap w) x).
Proof.
  intros (p & Hp & Hsig & HL & Hused & Hm) H b. unfold memory_pool_free in H.
  rewrite Hp in H.
  destruct (ptr =? NULL) eqn:En.
  { rewrite orb_true_r in H. discriminate H. }
  apply Z.eqb_neq in En. rewrite orb_false_r in H.
  destruct (negb (pool_signature p =? POOL_SIGNATURE)); [discriminate H|].
  fold b in H.
  destruct (validate_block (heap w) b) eqn:Ev; [|discriminate H].
  destruct (is_free (load (heap w) b)) eqn:Ef; [discriminate H|].
  cbn [negb] in H.
  set (p1 := set_num_deallocations (wrap (num_deallocations p + 1))
              (set_used_size (wrap (used_size p - size (load (heap w) b))) p)).
  set (w1 := with_heap _ _) in H.
  assert (pool w1 = Some p1) as Hp1
    by (unfold w1, with_heap, upd_pool; simpl; by rewrite Hp).
  assert (heap w1 = store b (set_is_free true) (heap w)) as Hh1 by done.
  assert (heap_bounded (region_limit p) (heap w1)) as Hb1.
  { rewrite Hh1. auto with pool. }
  destruct (coalesce_blocks w1 b) as [[b' w2]|] eqn:Ec; [|discriminate H].
  injection H as <-.
  destruct (coalesce_blocks_ok _ _ _ _ _ _ HL Hp1 Hb1 Ec)
    as (Hb2 & Hg2 & p2 & Hp2 & Hc2).
  destruct (add_to_free_list_ok _ w2 b' p2 Hp2 Hb2)
    as (Hb3 & Hg3 & p3 & Hp3 & Hc3).
  pose proof (pool_core_trans _ _ _ Hc2 Hc3) as (Hs3 & Hm3 & Ht3 & Ha3 & Hu3 & Hd3).
  pose proof (heap_grows_trans _ _ _ Hg2 Hg3) as Hg.
  destruct (Hg b) as (Hgs & Hgm & Hgf & Hgz).
  rewrite Hh1, load_store_eq in Hgs, Hgm, Hgf, Hgz. simpl in Hgs, Hgm, Hgf, Hgz.
  pose proof Ev as Ev'.
  apply validate_block_true in Ev' as (Hb0 & Hbs & Hbm & Hbz).
  split; [done|]. split; [|split; [done|split; [|split; [done|split; [|split; [|split]]]]]].
  - exists p3. split; [done|]. split; [by rewrite Hs3|].
    assert (region_limit p3 = region_limit p) as ->
      by (unfold region_limit; rewrite Hm3, Ht3; done).
    split; [done|]. split; [rewrite Hu3; apply wrap_range|done].
  - apply validate_block_true. repeat split; try congruence. lia.
  - unfold deallocation_count. by rewrite Hp3, Hp, Hd3.
  - unfold used_bytes. by rewrite Hp3, Hp, Hu3.
  - rewrite Hp3, Hp. simpl. by rewrite Ha3.
  - intros x. destruct (Hg x) as (Hxs & _). rewrite Hxs, Hh1, load_store.
    case_decide; [by subst|done].
Qed.

Lemma free_well_formed w ptr r w' :
  well_formed w -> memory_pool_free w ptr = Some (r, w') -> well_formed w'.
Proof.
  intros Hw H. destruct r.
  - unfold memory_pool_free in H. destruct (pool w); [|by injection H as <-].
    destruct (_ || _); [by injection H as <-|].
    destruct (negb _); [discriminate H|]. destruct (is_free _); [discriminate H|].
    by destruct (coalesce_blocks _ _) as [[]|].
  - unfold memory_pool_free in H. destruct (pool w); [|discriminate H].
    destruct (_ || _); [discriminate H|].
    destruct (negb _); [by injection H as <-|]. destruct (is_free _); [discriminate H|].
    by destruct (coalesce_blocks _ _) as [[]|].
  - unfold memory_pool_free in H. destruct (pool w); [|discriminate H].
    destruct (_ || _); [discriminate H|].
    destruct (negb _); [discriminate H|]. destruct (is_free _); [by injection H as <-|].
    by destruct (coalesce_blocks _ _) as [[]|].
  - by apply (free_done_inv w ptr w' Hw H).
Qed.

Lemma reachable_well_formed os w : os_ok os -> reachable os w -> well_formed w.
Proof.
  intros Hos Hr.
  induction Hr as [w0 sz al nm w H | w sz ptr w' _ IH H | w ptr r w' _ IH H].
  - by eapply init_well_formed.
  - by eapply alloc_well_formed.
  - by eapply free_well_formed.
Qed.


(** ** [memory_pool_free] returns on well-formed states *)

Lemma count_filter_le (P Q : Z -> bool) (l : list Z) :
  (forall a, Q a = true -> P a = true) ->
  (length (List.filter Q l) <= length (List.filter P l))%nat.
Proof.
  intros H. induction l as [|a l IH]; simpl; [lia|].
  destruct (Q a) eqn:Eq.
  - rewrite (H a Eq). simpl. lia.
  - destruct (P a); simpl; lia.
Qed.

Lemma count_filter_lt (P Q : Z -> bool) (l : list Z) x :
  (forall a, Q a = true -> P a = true) ->
  In x l -> P x = true -> Q x = false ->
  (length (List.filter Q l) < length (List.filter P l))%nat.
Proof.
  intros H Hin Hp Hq. induction l as [|a l IH]; simpl; [done|].
  destruct Hin as [->|Hin].
  - rewrite Hp, Hq. simpl. pose proof (count_filter_le P Q l H). lia.
  - specialize (IH Hin). destruct (Q a) eqn:Eq.
    + rewrite (H a Eq). simpl. lia.
    + destruct (P a); simpl; lia.
Qed.

Lemma count_filter_all (P : Z -> bool) (l : list Z) :
  (length (List.filter P l) <= length l)%nat.
Proof.
  induction l as [|a l IH]; simpl; [lia|]. destruct (P a); simpl; lia.
Qed.

Lemma count_filter_size (P : Z -> bool) (m : gmap Z BlockHeader) :
  (length (List.filter P (elements (dom m))) < list_fuel m)%nat.
Proof.
  pose proof (count_filter_all P (elements (dom m))) as H. unfold list_fuel.
  change (length (elements (dom m))) with (base.size (dom m)) in H.
  rewrite size_dom in H. lia.
Qed.

Lemma intact_in_dom (m : gmap Z BlockHeader) a :
  signature (load m a) = BLOCK_SIGNATURE -> In a (elements (dom m)).
Proof.
  intros H. apply list_elem_of_In, elem_of_elements, elem_of_dom.
  unfold load in H. destruct (m !! a); [done|]. discriminate H.
Qed.

Lemma coalesce_next_total L m0 fuel : forall w b,
  L < 2 ^ 64 -> heap_bounded L (heap w) ->
  (forall a, signature (load (heap w) a) = signature (load m0 a)) ->
  signature (load (heap w) b) = BLOCK_SIGNATURE ->
  magic (load (heap w) b) = BLOCK_SIGNATURE ->
  (length (List.filter
             (fun a => (b + sizeof_BlockHeader + size (load (heap w) b) <=? a)%Z)
             (elements (dom m0))) < fuel)%nat ->
  is_Some (coalesce_next fuel w b).
Proof.
  induction fuel as [|fuel IH]; intros w b HL Hm H0 Hs Hg Hf; [lia|].
  rewrite coalesce_next_unfold. cbv zeta.
  set (nb := next (load (heap w) b)).
  destruct (negb (nb =? NULL) && is_free (load (heap w) nb)
            && validate_block (heap w) nb) eqn:Ec; [|done].
  destruct (_ =? nb) eqn:Ee; [|done].
  apply andb_true_iff in Ec as [_ Hv]. apply Z.eqb_eq in Ee.
  destruct (Hm b Hs Hg) as (Hb0 & Hb1 & Hb2).
  rewrite wrap_small in Ee by (unfold sizeof_BlockHeader in *; lia).
  destruct (absorb_ok L (heap w) b nb HL Hm Hs Hg Hv Ee) as (Hb & Hgr & Hsz).
  pose proof Hv as Hv'.
  apply validate_block_true in Hv' as (_ & Hns & Hng & Hnz).
  destruct (Hm nb Hns Hng) as (_ & _ & Hn2).
  destruct (Hgr b) as (Hs' & Hg' & _).
  apply IH; [done | done | | simpl; congruence | simpl; congruence |].
  - intros a. cbn [heap upd_pool with_heap]. destruct (Hgr a) as (-> & _). apply H0.
  - cbn [heap upd_pool with_heap]. rewrite Hsz.
    eapply Nat.lt_le_trans; [|apply Nat.lt_succ_r; exact Hf].
    apply (count_filter_lt _ _ _ nb).
    + intros a Ha. apply Z.leb_le in Ha. apply Z.leb_le.
      unfold sizeof_BlockHeader in *. lia.
    + apply intact_in_dom. by rewrite <- H0.
    + apply Z.leb_le. lia.
    + apply Z.leb_gt. unfold sizeof_BlockHeader in *. lia.
Qed.

Lemma coalesce_prev_total L m0 fuel : forall w b,
  L < 2 ^ 64 -> heap_bounded L (heap w) ->
  (forall a, signature (load (heap w) a) = signature (load m0 a)) ->
  validate_block (heap w) b = true ->
  (length (List.filter (fun a => (a <? b)%Z) (elements (dom m0))) < fuel)%nat ->
  is_Some (coalesce_prev fuel w b).
Proof.
  induction fuel as [|fuel IH]; intros w b HL Hm H0 Hvb Hf; [lia|].
  rewrite coalesce_prev_unfold. cbv zeta.
  set (pb := prev (load (heap w) b)).
  destruct (negb (pb =? NULL) && is_free (load (heap w) pb)
            && validate_block (heap w) pb) eqn:Ec; [|done].
  destruct (_ =? b) eqn:Ee; [|done].
  apply andb_true_iff in Ec as [_ Hv]. apply Z.eqb_eq in Ee.
  pose proof Hv as Hv'.
  apply validate_block_true in Hv' as (Hp0 & Hps & Hpg & Hpz).
  destruct (Hm pb Hps Hpg) as (Hb0 & Hb1 & Hb2).
  rewrite wrap_small in Ee by (unfold sizeof_BlockHeader in *; lia).
  destruct (absorb_ok L (heap w) pb b HL Hm Hps Hpg Hvb Ee) as (Hb & Hgr & _).
  destruct (Hgr pb) as (Hs' & Hg' & _ & Hz').
  apply IH; [done | done | | |].
  - intros a. cbn [heap upd_pool with_heap]. destruct (Hgr a) as (-> & _). apply H0.
  - cbn [heap upd_pool with_heap]. apply validate_block_true.
    repeat split; [done | congruence | congruence | lia].
  - eapply Nat.lt_le_trans; [|apply Nat.lt_succ_r; exact Hf].
    apply (count_filter_lt _ _ _ pb).
    + intros a Ha. apply Z.ltb_lt in Ha. apply Z.ltb_lt.
      unfold sizeof_BlockHeader in *. lia.
    + apply intact_in_dom. by rewrite <- H0.
    + apply Z.ltb_lt. unfold sizeof_BlockHeader in *. lia.
    + apply Z.ltb_ge. lia.
Qed.

Lemma coalesce_blocks_total L w b p :
  L < 2 ^ 64 -> pool w = Some p -> heap_bounded L (heap w) ->
  is_Some (coalesce_blocks w b).
Proof.
  intros HL Hp Hm. unfold coalesce_blocks. rewrite Hp.
  destruct ((b =? NULL) || negb (validate_block (heap w) b)
            || negb (is_free (load (heap w) b))) eqn:Ec; [done|].
  apply orb_false_iff in Ec as [Ec _]. apply orb_false_iff in Ec as [_ Ev].
  apply negb_false_iff in Ev. pose proof Ev as Ev'.
  apply validate_block_true in Ev' as (Hn & Hs & Hg & Hz).
  destruct (coalesce_next_total L (heap w) (list_fuel (heap w)) w b HL Hm)
    as [w1 E1]; [done | done | done | apply count_filter_size|].
  rewrite E1.
  destruct (coalesce_next_ok L _ _ _ _ _ HL Hp Hm Hs Hg E1)
    as (Hb1 & Hg1 & _).
  destruct (Hg1 b) as (Hs1 & Hm1 & _ & Hz1).
  apply (coalesce_prev_total L (heap w1)); [done | done | done | | apply count_filter_size].
  apply validate_block_true. repeat split; [done | congruence | congruence | lia].
Qed.

Lemma free_returns w ptr :
  well_formed w -> is_Some (memory_pool_free w ptr).
Proof.
  intros (p & Hp & Hsig & HL & Hused & Hm). unfold memory_pool_free. rewrite Hp.
  destruct (_ || _); [done|]. destruct (negb _); [done|].
  destruct (is_free _); [done|].
  match goal with
  | |- context [coalesce_blocks ?w1 ?b] =>
      assert (exists p1, pool w1 = Some p1) as (p1 & Hp1)
        by (unfold with_heap, upd_pool; simpl; rewrite Hp; by eexists);
      destruct (coalesce_blocks_total (region_limit p) w1 b p1 HL Hp1)
        as [[b' w'] E]
  end.
  - cbn [heap with_heap upd_pool]. auto with pool.
  - by rewrite E.
Qed.


(** ** Size classes are monotone *)

Lemma index_loop_ge fuel s : forall index threshold,
  index <= index_loop fuel s index threshold.
Proof.
  induction fuel as [|fuel IH]; intros index threshold; simpl; [lia|].
  destruct ((index <? MAX_FREE_LISTS - 1) && (threshold <? s)); [|lia].
  specialize (IH (index + 1) (wrap (threshold * 2))). lia.
Qed.

Lemma index_loop_mono fuel s1 s2 : s1 <= s2 ->
  forall index threshold,
    index_loop fuel s1 index threshold <= index_loop fuel s2 index threshold.
Proof.
  intros Hs. induction fuel as [|fuel IH]; intros index threshold; simpl; [lia|].
  destruct (index <? MAX_FREE_LISTS - 1) eqn:Ei; simpl; [|lia].
  destruct (threshold <? s1) eqn:E1.
  - apply Z.ltb_lt in E1.
    destruct (threshold <? s2) eqn:E2; [apply IH|apply Z.ltb_ge in E2; lia].
  - destruct (threshold <? s2) eqn:E2; [|lia].
    pose proof (index_loop_ge fuel s2 (index + 1) (wrap (threshold * 2))). lia.
Qed.

(** X3 (size classes).  The size-class function is monotone and its
    values are bucket indices: for [s1 <= s2],
    [0 <= class s1 <= class s2 <= 31]. *)
Theorem get_free_list_index_monotone s1 s2 :
  s1 <= s2 ->
  0 <= get_free_list_index s1 <= get_free_list_index s2
  /\ get_free_list_index s2 < MAX_FREE_LISTS.
Proof.
  intros Hs.
  pose proof (get_free_list_index_range s1) as Hr1.
  pose proof (get_free_list_index_range s2) as Hr2.
  unfold MAX_FREE_LISTS.
  enough (get_free_list_index s1 <= get_free_list_index s2) by lia.
  clear Hr1 Hr2. unfold get_free_list_index.
  pose proof (index_loop_ge 22 s2 9 8192) as Hge.
  pose proof (index_loop_mono 22 s1 s2 Hs 9 8192) as Hmono.
  repeat match goal with
         | |- context [?a <=? ?b] =>
             let E := fresh "E" in
             destruct (Z.leb_spec a b) as [E|E]
         end; lia.
Qed.

(** ** Calls that change nothing *)

Lemma free_not_done w ptr r w' :
  memory_pool_free w ptr = Some (r, w') -> r <> FreeDone -> w' = w.
Proof.
  unfold memory_pool_free. intros H Hr.
  destruct (pool w); [|by simplify_eq].
  destruct (_ || _); [by simplify_eq|].
  destruct (negb _); [by simplify_eq|].
  destruct (is_free _); [by simplify_eq|].
  destruct (coalesce_blocks _ _) as [[]|]; by simplify_eq.
Qed.

Lemma alloc_body_null w sz sr w' :
  alloc_body w sz = Some (NULL, sr, w') -> w' = w.
Proof.
  unfold alloc_body. intros E.
  destruct (pool w); [|by simplify_eq].
  destruct (_ || _); [by simplify_eq|].
  destruct (_ <? _); [by simplify_eq|].
  destruct (find_best_block _ _ _) as [[b bi]|]; [|discriminate E].
  destruct (b =? NULL) eqn:Eb; [by simplify_eq|].
  destruct (split_block _ _ _). by simplify_eq.
Qed.

(** ** Used bytes over an alloc/free round trip *)


(** ** The validator's walk *)

Lemma validate_walk_sound m fuel : forall current total_blocks calc u,
  validate_walk fuel m current total_blocks calc = Some u ->
  exists l,
    list_nodes fuel m current = Some l
    /\ Forall (fun b => validate_block m b = true) l
    /\ wrap u = wrap (calc + in_use_total m l).
Proof.
  induction fuel as [|fuel IH]; intros current tb calc u H; simpl in H;
    [discriminate H|].
  simpl. destruct (current =? NULL).
  - injection H as <-. exists []. simpl. by rewrite Z.add_0_r.
  - destruct (validate_block m current) eqn:Ev; [|discriminate H].
    cbn [negb] in H. destruct (10000 <? wrap (tb + 1)); [discriminate H|].
    apply IH in H as (l & Hl & Hall & Hu). rewrite Hl.
    exists (current :: l). split; [done|]. split; [by constructor|].
    rewrite Hu. simpl. destruct (is_free (load m current)); [done|].
    unfold wrap. rewrite Zplus_mod_idemp_l. f_equal. lia.
Qed.

(** X2 (validator accounting).  When [validate_pool] returns true, the
    walk from [first_block] reaches [NULL], every block on it passes
    [validate_block], and the payload sizes of its blocks that are not free
    add up to [used_size] modulo 2^64. *)
Theorem validate_pool_checks_used_size w :
  validate_pool w = true ->
  exists p l,
    pool w = Some p
    /\ list_nodes (Z.to_nat 10002) (heap w) (first_block p) = Some l
    /\ Forall (fun b => validate_block (heap w) b = true) l
    /\ wrap (in_use_total (heap w) l) = wrap (used_size p).
Proof.
  unfold validate_pool. intros H.
  destruct (pool w) as [p|]; [|discriminate H].
  destruct (negb _); [discriminate H|]. destruct (_ || _); [discriminate H|].
  destruct (validate_walk _ _ _ _ _) as [u|] eqn:E; [|discriminate H].
  apply Z.eqb_eq in H. subst u.
  apply validate_walk_sound in E as (l & Hl & Hall & Hu).
  exists p, l. by rewrite Hu.
Qed.

(** ** Payload alignment for alignments that divide the header size *)

Lemma small_alignment_divides al k x :
  al = 8 \/ al = 16 -> 6 <= k -> x mod 2 ^ k = 0 -> x mod al = 0.
Proof.
  intros Hal Hk Hx.
  apply Z.mod_divide in Hx; [|apply Z.pow_nonzero; lia].
  apply Z.mod_divide; [lia|].
  eapply Z.divide_trans; [|exact Hx].
  destruct Hal as [-> | ->].
  - exists (2 ^ (k - 3)). change 8 with (2 ^ 3). rewrite <- Z.pow_add_r by lia.
    f_equal. lia.
  - exists (2 ^ (k - 4)). change 16 with (2 ^ 4). rewrite <- Z.pow_add_r by lia.
    f_equal. lia.
Qed.

Lemma align_size_small_alignment sz al :
  al = 8 \/ al = 16 -> align_size sz al mod al = 0.
Proof.
  intros [-> | ->].
  - destruct (align_size_pow2 sz 3) as (q & _ & Hq); [lia|].
    change (2 ^ 3) with 8 in Hq. rewrite Hq. apply Z.mod_mul. lia.
  - destruct (align_size_pow2 sz 4) as (q & _ & Hq); [lia|].
    change (2 ^ 4) with 16 in Hq. rewrite Hq. apply Z.mod_mul. lia.
Qed.

Lemma reachable_aligned os w :
  os_ok os -> mmap_page_aligned os -> reachable os w ->
  forall p, pool w = Some p -> alignment p = 8 \/ alignment p = 16 ->
            heap_aligned (alignment p) (heap w).
Proof.
  intros Hos Hpa Hr.
  induction Hr as [w0 sz al nm w H | w sz ptr w' Hr IH H | w ptr r w' Hr IH H];
    intros p Hp Hal.
  - destruct Hos as [(k & Hk & Hpage) _]. unfold memory_pool_init in H.
    destruct (pool w0); [|discriminate H].
    destruct (sz =? 0); [discriminate H|].
    destruct (mmap os (align_size sz (getpagesize os))) as [base|] eqn:Em;
      [|discriminate H].
    injection H as <-. specialize (Hpa _ _ Em). rewrite Hpage in Hpa.
    intros x Hx. cbn [heap] in Hx. unfold load in Hx.
    destruct (decide (base = x)) as [<-|Hne].
    + apply (small_alignment_divides _ k); [done | lia | done].
    + rewrite lookup_singleton_ne in Hx by done. discriminate Hx.
  - pose proof (reachable_well_formed os w Hos Hr) as Hw.
    unfold memory_pool_alloc in H.
    destruct (alloc_body w sz) as [[[best sr] w1]|] eqn:E; [|discriminate H].
    injection H as _ <-.
    destruct (decide (best = NULL)) as [->|Hb].
    { apply alloc_body_null in E as ->. by apply IH. }
    destruct (alloc_body_post _ _ _ _ _ Hw E Hb)
      as (p0 & p' & Hp0 & Hp' & _ & _ & _ & Ha & _ & _ & _ & _ & _ & Hprov).
    rewrite Hp in Hp'. injection Hp' as <-. rewrite Ha in *.
    specialize (IH p0 Hp0 Hal).
    intros x Hx. destruct (Hprov x Hx) as [Hold|[-> Hold]]; [by apply IH|].
    specialize (IH best Hold).
    pose proof (align_size_small_alignment sz _ Hal) as Hsz.
    rewrite <- Z.add_assoc, Z.add_mod, IH, Z.add_0_l, Z.mod_mod by lia.
    rewrite Z.add_mod, Hsz, Z.add_0_r, Z.mod_mod by lia.
    unfold sizeof_BlockHeader. by destruct Hal as [-> | ->].
  - pose proof (reachable_well_formed os w Hos Hr) as Hw.
    destruct (decide (r = FreeDone)) as [->|Hnd].
    + destruct (free_done_inv _ _ _ Hw H) as (_ & _ & _ & _ & _ & _ & _ & Ha & Hs).
      destruct Hw as (p0 & Hp0 & _). rewrite Hp, Hp0 in Ha.
      injection Ha as Ha. rewrite Ha in *. specialize (IH p0 Hp0 Hal).
      intros x Hx. rewrite Hs in Hx. by apply IH.
    + apply free_not_done in H as ->; [|done]. by apply IH.
Qed.


(** ** What the helpers leave alone in the pool structure *)

Lemma lists_only_refl p : lists_only p p.
Proof. exists (free_lists p), (num_blocks p). by destruct p. Qed.

Lemma lists_only_trans p1 p2 p3 :
  lists_only p1 p2 -> lists_only p2 p3 -> lists_only p1 p3.
Proof.
  intros (f1 & n1 & H1 & ->) (f2 & n2 & H2 & ->). exists f2, n2.
  destruct p1. simpl in *. split; [congruence|done].
Qed.

Lemma lists_only_free_list i f p : lists_only p (set_free_list i f p).
Proof.
  exists (<[Z.to_nat i := f (free_list p i)]> (free_lists p)), (num_blocks p).
  split; [apply length_insert|by destruct p].
Qed.

Lemma lists_only_num_blocks v p : lists_only p (set_num_blocks v p).
Proof. exists (free_lists p), v. by destruct p. Qed.

Lemma remove_from_free_list_lists w b i p :
  pool w = Some p ->
  exists p', pool (remove_from_free_list w b i) = Some p' /\ lists_only p p'.
Proof.
  intros Hp. unfold remove_from_free_list. rewrite Hp.
  destruct (_ || _); [exists p; split; [done|apply lists_only_refl]|].
  eexists. split; [reflexivity|].
  destruct (head (free_list p i) =? b).
  - eapply lists_only_trans; apply lists_only_free_list.
  - apply lists_only_free_list.
Qed.

Lemma add_to_free_list_lists w b p :
  pool w = Some p ->
  exists p', pool (add_to_free_list w b) = Some p' /\ lists_only p p'.
Proof.
  intros Hp. unfold add_to_free_list. rewrite Hp.
  destruct (_ || _); [exists p; split; [done|apply lists_only_refl]|].
  eexists. split; [reflexivity|]. apply lists_only_free_list.
Qed.

Lemma split_block_lists w b a r w' p :
  pool w = Some p -> split_block w b a = (r, w') ->
  exists p', pool w' = Some p' /\ lists_only p p'.
Proof.
  intros Hp H. unfold split_block in H. rewrite Hp in H.
  destruct (_ || _); [injection H as _ <-; exists p; split;
                       [done|apply lists_only_refl]|].
  destruct (_ <? _); injection H as _ <-.
  - exists p. split; [done|apply lists_only_refl].
  - eexists. split; [reflexivity|]. apply lists_only_num_blocks.
Qed.

Lemma coalesce_next_lists fuel : forall w b w' p,
  pool w = Some p -> coalesce_next fuel w b = Some w' ->
  exists p', pool w' = Some p' /\ lists_only p p'.
Proof.
  induction fuel as [|fuel IH]; intros w b w' p Hp H; [discriminate H|].
  rewrite coalesce_next_unfold in H. cbv zeta in H.
  destruct (_ && _).
  - destruct (_ =? _).
    + eapply IH in H as (p' & Hp' & Hl).
      2:{ unfold upd_pool, with_heap. cbn [pool]. rewrite Hp. reflexivity. }
      exists p'. split; [done|].
      eapply lists_only_trans; [apply lists_only_num_blocks|exact Hl].
    + injection H as <-. exists p. split; [done|apply lists_only_refl].
  - injection H as <-. exists p. split; [done|apply lists_only_refl].
Qed.

Lemma coalesce_prev_lists fuel : forall w b b' w' p,
  pool w = Some p -> coalesce_prev fuel w b = Some (b', w') ->
  exists p', pool w' = Some p' /\ lists_only p p'.
Proof.
  induction fuel as [|fuel IH]; intros w b b' w' p Hp H; [discriminate H|].
  rewrite coalesce_prev_unfold in H. cbv zeta in H.
  destruct (_ && _).
  - destruct (_ =? _).
    + eapply IH in H as (p' & Hp' & Hl).
      2:{ unfold upd_pool, with_heap. cbn [pool]. rewrite Hp. reflexivity. }
      exists p'. split; [done|].
      eapply lists_only_trans; [apply lists_only_num_blocks|exact Hl].
    + injection H as _ <-. exists p. split; [done|apply lists_only_refl].
  - injection H as _ <-. exists p. split; [done|apply lists_only_refl].
Qed.

Lemma coalesce_blocks_lists w b b' w' p :
  pool w = Some p -> coalesce_blocks w b = Some (b', w') ->
  exists p', pool w' = Some p' /\ lists_only p p'.
Proof.
  intros Hp H. unfold coalesce_blocks in H. rewrite Hp in H.
  destruct (_ || _); [injection H as _ <-; exists p; split;
                       [done|apply lists_only_refl]|].
  destruct (coalesce_next _ _ _) as [w1|] eqn:E1; [|discriminate H].
  destruct (coalesce_next_lists _ _ _ _ _ Hp E1) as (p1 & Hp1 & Hl1).
  destruct (coalesce_prev_lists _ _ _ _ _ _ Hp1 H) as (p2 & Hp2 & Hl2).
  exists p2. split; [done|]. by eapply lists_only_trans.
Qed.

(** ** Rounding and size classes *)

Lemma ldiff_land_sum x mask : x = Z.ldiff x mask + Z.land x mask.
Proof.
  assert (Z.land (Z.ldiff x mask) (Z.land x mask) = 0) as Hdisj.
  { apply Z.bits_inj'. intros i Hi.
    rewrite !Z.land_spec, Z.ldiff_spec, Z.bits_0.
    by destruct (Z.testbit x i), (Z.testbit mask i). }
  rewrite Z.add_nocarry_lxor, Z.lxor_lor by done.
  symmetry. apply Z.lor_ldiff_and.
Qed.

Lemma ldiff_lower x mask : 0 <= x -> 0 <= mask -> x - mask <= Z.ldiff x mask.
Proof.
  intros Hx Hm.
  pose proof (ldiff_land_sum x mask) as H1.
  pose proof (ldiff_land_sum mask x) as H2.
  rewrite (Z.land_comm mask x) in H2.
  assert (0 <= Z.ldiff mask x) by (apply Z.ldiff_nonneg; lia).
  lia.
Qed.

(** Without overflow the rounded size is at least the size. *)
Lemma align_size_ge sz al :
  0 <= sz -> sz + wrap (al - 1) < 2 ^ 64 ->
  sz <= align_size sz al <= sz + wrap (al - 1).
Proof.
  intros Hsz Hno. rewrite align_size_ldiff.
  pose proof (wrap_range (al - 1)) as Hm.
  assert (wrap (sz + al - 1) = sz + wrap (al - 1)) as ->.
  { rewrite <- (wrap_small (sz + wrap (al - 1))) by lia.
    unfold wrap. replace (sz + al - 1) with (sz + (al - 1)) by lia.
    by rewrite Zplus_mod_idemp_r. }
  pose proof (ldiff_lower (sz + wrap (al - 1)) (wrap (al - 1))).
  pose proof (ldiff_range (sz + wrap (al - 1)) (wrap (al - 1))). lia.
Qed.

(** When [size + alignment - 1] does not fit in 64 bits the rounded size
    is 0. *)
Lemma align_size_overflow sz k :
  0 <= k < 64 -> 0 <= sz < 2 ^ 64 -> 2 ^ 64 <= sz + 2 ^ k - 1 ->
  align_size sz (2 ^ k) = 0.
Proof.
  intros Hk Hsz Hov.
  assert (0 < 2 ^ k) by (apply Z.pow_pos_nonneg; lia).
  assert (2 ^ k < 2 ^ 64) by (apply Z.pow_lt_mono_r; lia).
  rewrite align_size_ldiff.
  rewrite (wrap_small (2 ^ k - 1)) by lia.
  replace (2 ^ k - 1) with (Z.ones k) by (rewrite Z.ones_equiv; lia).
  rewrite Z.ldiff_ones_r by lia.
  assert (wrap (sz + 2 ^ k - 1) = sz + 2 ^ k - 1 - 2 ^ 64) as ->.
  { unfold wrap. symmetry. apply (Z.mod_unique_pos _ _ 1). lia. lia. }
  rewrite Z.shiftr_div_pow2 by lia.
  rewrite Z.div_small by lia. apply Z.shiftl_0_l.
Qed.

(** X9 (rounding).  For a power-of-two alignment 2^k and a size below
    2^64, [align_size] yields the least multiple of the alignment that is
    at least the size, as long as [size + alignment - 1] fits in 64 bits;
    for the larger sizes the sum wraps around and the result is 0. *)
Theorem align_size_rounds_up sz k :
  0 <= k < 64 -> 0 <= sz < 2 ^ 64 ->
  let r := align_size sz (2 ^ k) in
  (sz + 2 ^ k - 1 < 2 ^ 64 -> sz <= r < sz + 2 ^ k /\ r mod 2 ^ k = 0)
  /\ (2 ^ 64 <= sz + 2 ^ k - 1 -> r = 0).
Proof.
  intros Hk Hsz r.
  assert (0 < 2 ^ k) by (apply Z.pow_pos_nonneg; lia).
  assert (2 ^ k < 2 ^ 64) by (apply Z.pow_lt_mono_r; lia).
  split.
  - intros Hno.
    pose proof (align_size_ge sz (2 ^ k)) as Hge.
    rewrite (wrap_small (2 ^ k - 1)) in Hge by lia.
    destruct (align_size_pow2 sz k Hk) as (q & _ & Hq). fold r in Hge, Hq.
    split; [lia|]. rewrite Hq. apply Z.mod_mul. lia.
  - intros Hov. by apply align_size_overflow.
Qed.

Lemma index_loop_bounds s fuel : forall index,
  9 <= index <= 31 -> 31 - index <= Z.of_nat fuel -> 2 ^ (index + 3) < s ->
  let r := index_loop fuel s index (2 ^ (index + 4)) in
  2 ^ (r + 3) < s /\ (r < 31 -> s <= 2 ^ (r + 4)).
Proof.
  induction fuel as [|fuel IH]; intros index Hi Hf Hs; simpl.
  - split; [done|lia].
  - unfold MAX_FREE_LISTS.
    destruct (index <? 32 - 1) eqn:E1; cbn [andb].
    + destruct (2 ^ (index + 4) <? s) eqn:E2.
      * apply Z.ltb_lt in E1, E2.
        assert (wrap (2 ^ (index + 4) * 2) = 2 ^ (index + 1 + 4)) as ->.
        { replace (index + 1 + 4) with (Z.succ (index + 4)) by lia.
          rewrite Z.pow_succ_r by lia. rewrite Z.mul_comm.
          apply wrap_small. split; [lia|].
          rewrite <- Z.pow_succ_r by lia. apply Z.pow_lt_mono_r; lia. }
        apply IH; [lia|lia|].
        by replace (index + 1 + 3) with (index + 4) by lia.
      * apply Z.ltb_ge in E2. split; [done|]. intros _. done.
    + apply Z.ltb_ge in E1. split; [done|lia].
Qed.

(** X10 (size classes are powers of two).  Class 0 takes the sizes up to
    16, a class i between 1 and 30 the sizes in (2^(i+3), 2^(i+4)], and
    class 31 every size above 2^34. *)
Theorem get_free_list_index_bounds s :
  let i := get_free_list_index s in
  (0 < i -> 2 ^ (i + 3) < s) /\ (i < 31 -> s <= 2 ^ (i + 4)).
Proof.
  unfold get_free_list_index.
  repeat match goal with
         | |- context [if ?a <=? ?b then _ else _] =>
             let E := fresh "E" in
             destruct (a <=? b) eqn:E;
             [apply Z.leb_le in E; cbv zeta; split; intros; simpl; lia
             |apply Z.leb_gt in E]
         end.
  cbv zeta.
  destruct (index_loop_bounds s 22 9) as [H1 H2]; [lia|lia|simpl; lia|].
  change (2 ^ (9 + 4)) with 8192 in H1, H2. cbv zeta in H1, H2. split; auto.
Qed.

(** ** The pool structure across [memory_pool_alloc] and [memory_pool_free] *)

Lemma lists_only_fields p p' :
  lists_only p p' ->
  pool_signature p' = pool_signature p /\ memory p' = memory p
  /\ total_size p' = total_size p /\ used_size p' = used_size p
  /\ peak_usage p' = peak_usage p /\ alignment p' = alignment p
  /\ num_allocations p' = num_allocations p
  /\ num_deallocations p' = num_deallocations p
  /\ first_block p' = first_block p.
Proof. intros (fl & nb & _ & ->). by destruct p. Qed.

Lemma alloc_body_pool w sz best sr w' p :
  pool w = Some p -> alloc_body w sz = Some (best, sr, w') -> best <> NULL ->
  exists p1,
    lists_only p p1
    /\ pool w' = Some (account_alloc (size (load (heap w') best)) p1).
Proof.
  intros Hp H Hbest. unfold alloc_body in H. rewrite Hp in H.
  destruct (_ || _); [by injection H as <- _ _|].
  destruct (_ <? _); [by injection H as <- _ _|].
  destruct (find_best_block _ _ _) as [[b bi]|]; [|discriminate H].
  destruct (b =? NULL); [by injection H as <- _ _|].
  destruct (remove_from_free_list_lists w b bi p Hp) as (p1 & Hp1 & Hl1).
  destruct (split_block _ b _) as [sr' w2] eqn:Es.
  destruct (split_block_lists _ _ _ _ _ _ Hp1 Es) as (p2 & Hp2 & Hl2).
  assert (exists p3,
             pool (if sr' =? NULL then w2 else add_to_free_list w2 sr') = Some p3
             /\ lists_only p p3) as (p3 & Hp3 & Hl3).
  { destruct (sr' =? NULL).
    - exists p2. split; [done|]. by eapply lists_only_trans.
    - destruct (add_to_free_list_lists w2 sr' p2 Hp2) as (p3 & Hp3 & Hl3).
      exists p3. split; [done|].
      eapply lists_only_trans; [exact Hl1|]. by eapply lists_only_trans. }
  injection H as <- _ <-. exists p3. split; [done|].
  unfold upd_pool, with_heap. cbn [pool heap]. rewrite Hp3. reflexivity.
Qed.

Lemma free_done_pool w ptr w' p :
  pool w = Some p -> memory_pool_free w ptr = Some (FreeDone, w') ->
  exists p',
    pool w' = Some p'
    /\ lists_only
         (account_free (size (load (heap w) (wrap (ptr - sizeof_BlockHeader)))) p)
         p'.
Proof.
  intros Hp H. unfold memory_pool_free in H. rewrite Hp in H.
  destruct (_ || _); [discriminate H|].
  destruct (negb _); [discriminate H|].
  destruct (is_free _); [discriminate H|].
  destruct (coalesce_blocks _ _) as [[b' w2]|] eqn:Ec; [|discriminate H].
  injection H as <-.
  eapply coalesce_blocks_lists in Ec as (p2 & Hp2 & Hl2).
  2:{ unfold upd_pool, with_heap. cbn [pool]. rewrite Hp. reflexivity. }
  destruct (add_to_free_list_lists w2 b' p2 Hp2) as (p3 & Hp3 & Hl3).
  exists p3. split; [done|]. by eapply lists_only_trans.
Qed.

(** A non-null block of a well-formed state has a non-null payload. *)
Lemma alloc_pointer_not_null w sz best sr w' :
  well_formed w -> alloc_body w sz = Some (best, sr, w') -> best <> NULL ->
  wrap (best + sizeof_BlockHeader) = best + sizeof_BlockHeader
  /\ 0 < best.
Proof.
  intros Hw E Hb.
  destruct (alloc_body_post _ _ _ _ _ Hw E Hb)
    as (p & p' & Hp & Hp' & _ & _ & _ & _ & _ & Hbd & Hs & Hg & _).
  destruct Hw as (p0 & Hp0 & _ & HL & _). rewrite Hp in Hp0. injection Hp0 as <-.
  destruct (Hbd best Hs Hg) as (Hb0 & Hb1 & Hb2).
  unfold sizeof_BlockHeader in *. split; [apply wrap_small; lia|done].
Qed.

Lemma alloc_null_unchanged w sz ptr w' :
  well_formed w -> memory_pool_alloc w sz = Some (ptr, w') -> ptr = NULL ->
  w' = w.
Proof.
  intros Hw H Hptr. unfold memory_pool_alloc in H.
  destruct (alloc_body w sz) as [[[best sr] w1]|] eqn:E; [|discriminate H].
  injection H as H <-.
  destruct (decide (best = NULL)) as [->|Hb]; [by eapply alloc_body_null|].
  destruct (alloc_pointer_not_null _ _ _ _ _ Hw E Hb) as [Hwrap Hpos].
  rewrite (eqb_NULL_false _ Hb), Hwrap in H.
  unfold sizeof_BlockHeader, NULL in *. lia.
Qed.

(** X11 (failed allocation).  In every state reachable from a successful
    init, a call of [memory_pool_alloc] that returns NULL leaves the pool
    structure and the region as they were. *)
Theorem alloc_failure_changes_nothing os w sz ptr w' :
  os_ok os -> reachable os w ->
  memory_pool_alloc w sz = Some (ptr, w') -> ptr = NULL -> w' = w.
Proof.
  intros Hos Hr. apply alloc_null_unchanged.
  by apply (reachable_well_formed os).
Qed.

(** ** Where the blocks lie *)

Lemma split_block_size w b a r w' p :
  pool w = Some p -> split_block w b a = (r, w') ->
  w' = w \/ size (load (heap w') b) = align_size a (alignment p).
Proof.
  intros Hp H. unfold split_block in H. rewrite Hp in H.
  destruct (_ || _); [injection H as _ <-; by left|].
  destruct (_ <? _); injection H as _ <-; [by left|].
  right. cbn [heap].
  rewrite size_store_keeps by (apply keeps_status_extent, set_next_status).
  match goal with |- context [if ?c then _ else _] => destruct c end.
  - by rewrite load_store_eq.
  - rewrite !size_store_keeps
      by (apply keeps_status_extent;
          first [apply set_next_status | apply set_prev_status]).
    by rewrite load_store_eq.
Qed.

(** The payload size of the block that [memory_pool_alloc] hands out is at
    least the rounded request. *)
Lemma alloc_body_size w sz best sr w' p :
  well_formed w -> pool w = Some p ->
  alloc_body w sz = Some (best, sr, w') -> best <> NULL ->
  align_size sz (alignment p) <= size (load (heap w') best).
Proof.
  intros (p0 & Hp0 & Hsig & HL & Hused & Hm) Hp H Hbest.
  rewrite Hp in Hp0. injection Hp0 as <-.
  unfold alloc_body in H. rewrite Hp in H.
  destruct (_ || _); [by injection H as <- _ _|].
  destruct (_ <? _); [by injection H as <- _ _|].
  set (a := align_size sz (alignment p)) in *.
  destruct (find_best_block p (heap w) a) as [[b bi]|] eqn:Ef; [|discriminate H].
  destruct (b =? NULL) eqn:Eb; [by injection H as <- _ _|].
  apply find_best_block_inv in Ef as [[Hnull|Hel] Hbi];
    [by rewrite Hnull in Eb|].
  apply eligible_true in Hel as (Hv & _ & Hfit).
  destruct (remove_from_free_list_ok _ w b bi p Hp Hm)
    as (Hb1 & Hg1 & p1 & Hp1 & Hc1).
  destruct (split_block _ b a) as [sr' w2] eqn:Es.
  assert (a <= size (load (heap w2) b)) as H2.
  { destruct (split_block_size _ _ _ _ _ _ Hp1 Es) as [-> | ->].
    - destruct (Hg1 b) as (_ & _ & _ & Hz). lia.
    - destruct Hc1 as (_ & _ & _ & -> & _). unfold a.
      rewrite align_size_idempotent. lia. }
  assert (a <= size (load (heap (if sr' =? NULL then w2
                                 else add_to_free_list w2 sr')) b)) as H3.
  { destruct (sr' =? NULL); [done|].
    eapply split_block_ok in Es as (Hb2 & (p2 & Hp2 & Hc2) & _);
      [| exact HL | exact Hp1 | exact Hb1 | |].
    - destruct (add_to_free_list_ok _ w2 sr' p2 Hp2 Hb2) as (_ & Hg3 & _).
      destruct (Hg3 b) as (_ & _ & _ & Hz). lia.
    - destruct Hc1 as (_ & _ & _ & -> & _). apply align_size_idempotent.
    - intros _. destruct (Hg1 b) as (_ & _ & _ & Hz). lia. }
  injection H as <- _ <-. unfold upd_pool, with_heap. cbn [heap].
  rewrite size_store_keeps by apply set_is_free_extent. exact H3.
Qed.

Lemma reachable_above os w :
  os_ok os -> reachable os w ->
  forall p, pool w = Some p -> heap_above (memory p) (heap w).
Proof.
  intros Hos Hr.
  induction Hr as [w0 sz al nm w H | w sz ptr w' Hr IH H | w ptr r w' Hr IH H];
    intros p Hp.
  - unfold memory_pool_init in H.
    destruct (pool w0); [|discriminate H].
    destruct (sz =? 0); [discriminate H|].
    destruct (mmap os (align_size sz (getpagesize os))) as [base|] eqn:Em;
      [|discriminate H].
    injection H as <-. cbn [pool] in Hp. injection Hp as <-.
    intros x Hx. cbn [heap] in Hx. unfold load in Hx.
    cbn [memory set_free_list set_free_lists].
    destruct (decide (base = x)) as [<-|Hne]; [lia|].
    rewrite lookup_singleton_ne in Hx by done. discriminate Hx.
  - pose proof (reachable_well_formed os w Hos Hr) as Hw.
    unfold memory_pool_alloc in H.
    destruct (alloc_body w sz) as [[[best sr] w1]|] eqn:E; [|discriminate H].
    injection H as _ <-.
    destruct (decide (best = NULL)) as [->|Hb].
    { apply alloc_body_null in E as ->. by apply IH. }
    destruct (alloc_body_post _ _ _ _ _ Hw E Hb)
      as (p0 & p' & Hp0 & Hp' & _ & Hm & _ & _ & _ & _ & _ & _ & _ & Hprov).
    rewrite Hp in Hp'. injection Hp' as <-. rewrite Hm.
    specialize (IH p0 Hp0).
    intros x Hx. destruct (Hprov x Hx) as [Hold|[-> Hold]]; [by apply IH|].
    specialize (IH best Hold).
    pose proof (align_size_range sz (alignment p0)).
    unfold sizeof_BlockHeader. lia.
  - pose proof (reachable_well_formed os w Hos Hr) as Hw.
    destruct (decide (r = FreeDone)) as [->|Hnd].
    + destruct (free_done_inv _ _ _ Hw H)
        as (_ & _ & _ & _ & _ & _ & _ & _ & Hs).
      destruct Hw as (p0 & Hp0 & _).
      destruct (free_done_pool _ _ _ _ Hp0 H) as (p' & Hp' & Hl).
      rewrite Hp in Hp'. injection Hp' as <-.
      apply lists_only_fields in Hl as (_ & Hm & _).
      rewrite Hm. cbn [memory account_free set_num_deallocations set_used_size].
      specialize (IH p0 Hp0).
      intros x Hx. rewrite Hs in Hx. by apply IH.
    + apply free_not_done in H as ->; [|done]. by apply IH.
Qed.


(** ** Counters *)

Lemma counted_reachable os w a d : counted os w a d -> reachable os w.
Proof.
  induction 1 as [w0 sz al nm w H | w a d sz ptr w' _ IH H
                 | w a d ptr r w' _ IH H].
  - by eapply reach_init.
  - by eapply reach_alloc.
  - by eapply reach_free.
Qed.

Lemma wrap_succ a : wrap (wrap a + 1) = wrap (a + 1).
Proof. unfold wrap. by rewrite Zplus_mod_idemp_l. Qed.

Lemma counted_counters os w a d :
  os_ok os -> counted os w a d ->
  exists p,
    pool w = Some p
    /\ num_allocations p = wrap a /\ num_deallocations p = wrap d.
Proof.
  intros Hos Hc.
  induction Hc as [w0 sz al nm w H | w a d sz ptr w' Hc IH H
                  | w a d ptr r w' Hc IH H].
  - unfold memory_pool_init in H.
    destruct (pool w0); [|discriminate H].
    destruct (sz =? 0); [discriminate H|].
    destruct (mmap os _); [|discriminate H].
    injection H as <-. eexists. split; [reflexivity|]. done.
  - destruct IH as (p & Hp & Hna & Hnd).
    pose proof (reachable_well_formed os w Hos (counted_reachable _ _ _ _ Hc))
      as Hw.
    destruct (ptr =? NULL) eqn:En.
    + apply Z.eqb_eq in En.
      rewrite (alloc_null_unchanged _ _ _ _ Hw H En). by exists p.
    + unfold memory_pool_alloc in H.
      destruct (alloc_body w sz) as [[[best sr] w1]|] eqn:E; [|discriminate H].
      injection H as H <-.
      destruct (decide (best = NULL)) as [->|Hb].
      { rewrite Z.eqb_refl in H. subst ptr. by rewrite Z.eqb_refl in En. }
      destruct (alloc_body_pool _ _ _ _ _ _ Hp E Hb) as (p1 & Hl & Hp1).
      apply lists_only_fields in Hl as (_ & _ & _ & _ & _ & _ & Ha1 & Hd1 & _).
      eexists. split; [exact Hp1|]. unfold account_alloc.
      match goal with |- context [if ?c then _ else _] => destruct c end;
        cbn [num_allocations num_deallocations set_peak_usage
             set_num_allocations set_used_size];
        rewrite Ha1, Hd1, Hna, Hnd, wrap_succ; done.
  - destruct IH as (p & Hp & Hna & Hnd).
    destruct (decide (r = FreeDone)) as [->|Hne].
    + destruct (free_done_pool _ _ _ _ Hp H) as (p' & Hp' & Hl).
      apply lists_only_fields in Hl as (_ & _ & _ & _ & _ & _ & Ha1 & Hd1 & _).
      exists p'. split; [done|].
      rewrite Ha1, Hd1. unfold account_free.
      cbn [num_allocations num_deallocations set_num_deallocations
           set_used_size].
      by rewrite Hna, Hnd, wrap_succ.
    + apply free_not_done in H as ->; [|done]. by exists p.
Qed.

(** X13 (the counters are exact).  Along every run from a successful init,
    [num_allocations] is the number of calls of [memory_pool_alloc] that
    returned a non-null pointer and [num_deallocations] the number of calls
    of [memory_pool_free] that released a block (both modulo 2^64). *)
Theorem counters_count_successes os w a d :
  os_ok os -> counted os w a d ->
  exists p,
    pool w = Some p
    /\ num_allocations p = wrap a /\ num_deallocations p = wrap d.
Proof. apply counted_counters. Qed.

(** ** The high-water mark *)

(** X15 (peak usage).  [memory_pool_alloc] never lowers [peak_usage], and
    when it hands out a block [peak_usage] is at least [used_size]
    afterwards; [memory_pool_free] leaves [peak_usage] alone. *)
Theorem peak_usage_is_high_water_mark w :
  (forall sz ptr w',
     memory_pool_alloc w sz = Some (ptr, w') ->
     peak_usage (pool_of w) <= peak_usage (pool_of w')
     /\ (ptr <> NULL -> used_size (pool_of w') <= peak_usage (pool_of w')))
  /\ (forall ptr r w',
        memory_pool_free w ptr = Some (r, w') ->
        peak_usage (pool_of w') = peak_usage (pool_of w)).
Proof.
  split.
  - intros sz ptr w' H. unfold memory_pool_alloc in H.
    destruct (alloc_body w sz) as [[[best sr] w1]|] eqn:E; [|discriminate H].
    injection H as H <-.
    destruct (decide (best = NULL)) as [->|Hb].
    { apply alloc_body_null in E as ->. rewrite Z.eqb_refl in H.
      split; [lia|]. by intros []. }
    destruct (pool w) as [p|] eqn:Hp.
    2:{ unfold alloc_body in E. rewrite Hp in E. by injection E as <- _ _. }
    destruct (alloc_body_pool _ _ _ _ _ _ Hp E Hb) as (p1 & Hl & Hp1).
    apply lists_only_fields in Hl as (_ & _ & _ & _ & Hpk & _).
    unfold pool_of. rewrite Hp, Hp1. cbn [default from_option id].
    unfold account_alloc.
    cbv zeta.
    match goal with |- context [if ?c then _ else _] => destruct c eqn:Ec end;
      cbn [peak_usage used_size set_peak_usage set_num_allocations
           set_used_size] in *; rewrite ?Hpk in *;
      [apply Z.ltb_lt in Ec | apply Z.ltb_ge in Ec]; lia.
  - intros ptr r w' H.
    destruct (decide (r = FreeDone)) as [->|Hne].
    + destruct (pool w) as [p|] eqn:Hp.
      2:{ unfold memory_pool_free in H. rewrite Hp in H. discriminate H. }
      destruct (free_done_pool _ _ _ _ Hp H) as (p' & Hp' & Hl).
      apply lists_only_fields in Hl as (_ & _ & _ & _ & Hpk & _).
      unfold pool_of. rewrite Hp, Hp'. cbn [default from_option id].
      by rewrite Hpk.
    + by apply free_not_done in H as ->.
Qed.

(** ** The state after initialisation *)

Lemma free_list_set_eq i f p :
  0 <= i -> (Z.to_nat i < length (free_lists p))%nat ->
  free_list (set_free_list i f p) i = f (free_list p i).
Proof.
  intros Hi Hlen. unfold free_list, set_free_list. cbn [free_lists set_free_lists].
  by rewrite list_lookup_insert_eq.
Qed.

Lemma free_list_set_ne i j f p :
  0 <= i -> 0 <= j -> i <> j ->
  free_list (set_free_list i f p) j = free_list p j.
Proof.
  intros Hi Hj Hne. unfold free_list, set_free_list.
  cbn [free_lists set_free_lists].
  rewrite list_lookup_insert_ne; [done|]. lia.
Qed.

Lemma validate_walk_unfold fuel m current total_blocks calculated_used :
  validate_walk (S fuel) m current total_blocks calculated_used =
  if current =? NULL then Some calculated_used
  else if negb (validate_block m current) then None
  else if 10000 <? wrap (total_blocks + 1) then None
  else
    validate_walk fuel m (next (load m current)) (wrap (total_blocks + 1))
      (if is_free (load m current) then calculated_used
       else wrap (calculated_used + size (load m current))).
Proof. reflexivity. Qed.

(** X14 (a fresh pool is valid).  After a successful [memory_pool_init] on
    a sane host the region is a whole number of pages that covers the
    requested size, it holds one free
    block that spans it, that block is the chain and the head of the
    bucket of its size class, nothing is in use, and [validate_pool]
    passes. *)
Theorem init_gives_valid_pool os w0 sz al nm w :
  os_ok os -> memory_pool_init os w0 sz al nm = (true, w) ->
  exists p,
    pool w = Some p
    /\ total_size p = align_size sz (getpagesize os)
    /\ total_size p mod getpagesize os = 0
    /\ (0 <= sz -> sz + getpagesize os - 1 < 2 ^ 64 -> sz <= total_size p)
    /\ used_size p = 0 /\ num_blocks p = 1
    /\ first_block p = memory p
    /\ load (heap w) (memory p)
       = mkBlockHeader BLOCK_SIGNATURE (total_size p - sizeof_BlockHeader)
                       true NULL NULL BLOCK_SIGNATURE
    /\ block_chain w = [memory p]
    /\ head (free_list p (get_free_list_index
                            (total_size p - sizeof_BlockHeader))) = memory p
    /\ validate_pool w = true.
Proof.
  intros [(k & Hk & Hpage) Hmmap] H. unfold memory_pool_init in H.
  destruct (pool w0); [|discriminate H].
  destruct (sz =? 0); [discriminate H|].
  destruct (mmap os (align_size sz (getpagesize os))) as [base|] eqn:Em;
    [|discriminate H].
  injection H as <-.
  destruct (Hmmap _ _ Em) as (Hlen & Hbase & Hend).
  rewrite Hpage in *.
  destruct (align_size_pow2 sz k) as (q & Hq & Hsz); [lia|].
  assert (2 ^ 6 <= 2 ^ k) as Hpow by (apply Z.pow_le_mono_r; lia).
  change (2 ^ 6) with 64 in Hpow.
  set (T := align_size sz (2 ^ k)) in *.
  assert (64 <= T) as Hbig.
  { rewrite Hsz in Hlen |- *. assert (1 <= q) by nia. nia. }
  assert (wrap (T - sizeof_BlockHeader) = T - sizeof_BlockHeader) as Hw
    by (unfold sizeof_BlockHeader; apply wrap_small; lia).
  rewrite Hw.
  assert ((base =? NULL) = false) as Hnn
    by (apply Z.eqb_neq; unfold NULL; lia).
  unfold set_free_list. eexists. split; [reflexivity|].
  cbn [pool heap total_size used_size num_blocks first_block memory
       set_free_lists pool_signature].
  split; [done|]. split; [rewrite Hsz; apply Z.mod_mul; lia|].
  split.
  { intros Hsz0 Hno. pose proof (align_size_ge sz (2 ^ k) Hsz0) as Hge.
    assert (2 ^ k < 2 ^ 64) by (apply Z.pow_lt_mono_r; lia).
    rewrite (wrap_small (2 ^ k - 1)) in Hge by lia. fold T in Hge. lia. }
  split; [done|]. split; [done|]. split; [done|].
  split; [unfold load; by rewrite lookup_singleton_eq|].
  split.
  { unfold block_chain. cbn [pool heap first_block set_free_lists].
    unfold list_fuel. rewrite map_size_singleton. cbn [chain_from].
    rewrite Hnn. unfold load at 1. rewrite lookup_singleton_eq.
    cbn [default from_option id next]. done. }
  split.
  { pose proof (get_free_list_index_range (T - sizeof_BlockHeader)) as Hr.
    set (j := get_free_list_index (T - sizeof_BlockHeader)) in *.
    unfold free_list. cbn [free_lists set_free_lists].
    rewrite list_lookup_insert_eq; [done|].
    unfold empty_lists. rewrite length_replicate. unfold MAX_FREE_LISTS. lia. }
  unfold validate_pool. cbn [pool heap pool_signature memory total_size
                             first_block used_size set_free_lists].
  rewrite Hnn. assert ((T =? 0) = false) as -> by (apply Z.eqb_neq; lia).
  cbn [negb orb]. rewrite Z.eqb_refl. cbn [negb].
  change (Z.to_nat 10002) with (S (S (Z.to_nat 10000))).
  rewrite validate_walk_unfold, Hnn.
  assert (validate_block
            {[base := mkBlockHeader BLOCK_SIGNATURE (T - sizeof_BlockHeader)
                                    true NULL NULL BLOCK_SIGNATURE]} base
          = true) as ->.
  { apply validate_block_true. unfold load. rewrite lookup_singleton_eq.
    simpl. repeat split; try done. unfold NULL; lia.
    unfold sizeof_BlockHeader; lia. }
  unfold load. rewrite lookup_singleton_eq.
  cbn [negb default from_option id is_free next].
  change (10000 <? wrap (0 + 1)) with false. cbv iota.
  rewrite validate_walk_unfold. change (NULL =? NULL) with true. cbv iota.
  apply Z.eqb_refl.
Qed.

(** ** Statistics *)

Lemma largest_in_list_nodes m fuel : forall block l largest,
  list_nodes fuel m block = Some l ->
  largest_in_list fuel m block largest = Some (largest_of m l largest).
Proof.
  induction fuel as [|fuel IH]; intros block l largest H; [discriminate H|].
  simpl in H |- *. destruct (block =? NULL).
  - by injection H as <-.
  - destruct (list_nodes fuel m (next (load m block))) as [l'|] eqn:E;
      [|discriminate H].
    injection H as <-. by rewrite (IH _ _ _ E).
Qed.

Lemma largest_of_app m l1 l2 largest :
  largest_of m (l1 ++ l2) largest = largest_of m l2 (largest_of m l1 largest).
Proof. unfold largest_of. apply fold_left_app. Qed.

Lemma stats_loop_examined p m n : forall i l free_blocks largest,
  0 <= free_blocks < 2 ^ 64 ->
  examined_from n p m i = Some l ->
  stats_loop n p m i free_blocks largest
  = Some (wrap (free_blocks + sum_counts n p i),
          largest_of m (map fst l) largest).
Proof.
  induction n as [|n IH]; intros i l fb lg Hfb H.
  - injection H as <-. simpl. rewrite Z.add_0_r. by rewrite wrap_small.
  - cbn [examined_from] in H. unfold bucket_nodes in H.
    destruct (list_nodes (list_fuel m) m (head (free_list p i))) as [l1|] eqn:E1;
      [|discriminate H].
    destruct (examined_from n p m (i + 1)) as [rest|] eqn:E2; [|discriminate H].
    injection H as <-. cbn [stats_loop sum_counts].
    rewrite (largest_in_list_nodes _ _ _ _ _ E1).
    rewrite (IH _ _ _ _ (wrap_range _) E2).
    rewrite map_app, map_map, largest_of_app. cbn [fst]. rewrite map_id.
    do 2 f_equal. unfold wrap. rewrite Zplus_mod_idemp_l. f_equal. lia.
Qed.

Lemma largest_of_spec m l : forall largest,
  let r := largest_of m l largest in
  largest <= r
  /\ (forall b, b ∈ l -> size (load m b) <= r)
  /\ (r = largest \/ exists b, b ∈ l /\ r = size (load m b)).
Proof.
  induction l as [|a l IH]; intros lg; cbv zeta.
  - simpl. split; [lia|]. split; [|by left]. intros b Hb. by apply elem_of_nil in Hb.
  - set (lg' := if lg <? size (load m a) then size (load m a) else lg).
    change (largest_of m (a :: l) lg) with (largest_of m l lg').
    destruct (IH lg') as (H1 & H2 & H3).
    assert (lg <= lg' /\ size (load m a) <= lg'
            /\ (lg' = lg \/ lg' = size (load m a))) as (Ha & Hb & Hc).
    { unfold lg'. destruct (lg <? size (load m a)) eqn:E;
        [apply Z.ltb_lt in E | apply Z.ltb_ge in E]; lia. }
    split; [lia|]. split.
    + intros b Hin. apply elem_of_cons in Hin as [->|Hin]; [lia|by apply H2].
    + destruct H3 as [H3|(b & Hin & H3)].
      * destruct Hc as [Hc|Hc]; [left; lia|].
        right. exists a. split; [apply elem_of_cons; by left|lia].
      * right. exists b. split; [apply elem_of_cons; by right|done].
Qed.

(** X16 (what the statistics report).  When the pool signature is intact,
    the pool holds at least one header's worth of bytes and all 32 free
    lists are null-terminated, [memory_pool_get_stats] returns true; the
    usage figures are the fields of the pool, [free_blocks] is the sum of
    the buckets' counters (modulo 2^64), and [largest_free_block] is the
    largest [size] field among the entries of the free lists, whether or
    not an entry is free or intact (0 when no entry has a positive
    size). *)
Theorem get_stats_reports_the_free_lists w p l st0 :
  pool w = Some p -> pool_signature p = POOL_SIGNATURE ->
  sizeof_BlockHeader <= total_size p ->
  examined_from (Z.to_nat MAX_FREE_LISTS) p (heap w) 0 = Some l ->
  exists st,
    memory_pool_get_stats w (Some st0) = Some (true, Some st)
    /\ Stats.current_usage st = used_size p
    /\ Stats.peak_usage st = peak_usage p
    /\ Stats.allocation_count st = num_allocations p
    /\ Stats.deallocation_count st = num_deallocations p
    /\ Stats.free_blocks st
       = wrap (sum_counts (Z.to_nat MAX_FREE_LISTS) p 0)
    /\ 0 <= Stats.largest_free_block st
    /\ (forall b i, (b, i) ∈ l ->
                    size (load (heap w) b) <= Stats.largest_free_block st)
    /\ (Stats.largest_free_block st = 0
        \/ exists b i, (b, i) ∈ l
                       /\ Stats.largest_free_block st = size (load (heap w) b)).
Proof.
  intros Hp Hsig Hbig Hex. unfold memory_pool_get_stats. rewrite Hp, Hsig.
  rewrite Z.eqb_refl. cbn [negb].
  assert ((total_size p / sizeof_BlockHeader =? 0) = false) as ->.
  { apply Z.eqb_neq. unfold sizeof_BlockHeader in *.
    assert (1 <= total_size p / 48) by (apply Z.div_le_lower_bound; lia). lia. }
  rewrite andb_false_r.
  rewrite (stats_loop_examined p (heap w) _ 0 l 0 0); [|lia|exact Hex].
  eexists. split; [reflexivity|].
  cbn [Stats.current_usage Stats.peak_usage Stats.allocation_count
       Stats.deallocation_count Stats.free_blocks Stats.largest_free_block].
  rewrite Z.add_0_l.
  do 5 (split; [done|]).
  destruct (largest_of_spec (heap w) (map fst l) 0) as (H1 & H2 & H3).
  split; [done|]. split.
  - intros b i Hin. apply H2. apply list_elem_of_In, in_map_iff.
    exists (b, i). split; [done|by apply list_elem_of_In].
  - destruct H3 as [H3|(b & Hin & H3)]; [by left|]. right.
    apply list_elem_of_In, in_map_iff in Hin as ([b' i] & <- & Hin).
    exists b', i. split; [by apply list_elem_of_In|done].
Qed.

(** ** Layout dump *)

Lemma dump_walk_lines m : forall fuel l current n k,
  list_nodes k m current = Some l ->
  Forall (fun b => validate_block m b = true) l ->
  0 <= n <= 1000 -> Z.of_nat fuel = 1001 - n ->
  dump_walk fuel m current n
  = (layout_lines m (take fuel l) n, (fuel <=? length l)%nat).
Proof.
  induction fuel as [|fuel IH]; intros l current n k Hl Hv Hn Hf; [lia|].
  destruct k as [|k]; [discriminate Hl|].
  cbn [dump_walk]. cbn [list_nodes] in Hl.
  destruct (current =? NULL) eqn:Ec.
  - injection Hl as <-. done.
  - destruct (list_nodes k m (next (load m current))) as [l'|] eqn:El;
      [|discriminate Hl].
    injection Hl as <-. apply Forall_cons in Hv as [Hv1 Hv2].
    rewrite Hv1. cbn [negb orb].
    rewrite (wrap_small (n + 1)) by lia.
    destruct (1000 <? n + 1) eqn:E; [apply Z.ltb_lt in E | apply Z.ltb_ge in E].
    + assert (fuel = O) as -> by lia. done.
    + rewrite (IH l' _ (n + 1) k El Hv2) by lia. done.
Qed.

(** X17 (the dump shows what the validator walked).  Whenever
    [validate_pool] passes, [dump_pool_layout] prints the blocks of the
    chain that the validator walked from [first_block], in order and
    numbered from 0, at most 1001 of them; the truncation notice appears
    exactly when the chain has more than 1000 blocks. *)
Theorem dump_lists_the_validated_chain w :
  validate_pool w = true ->
  exists p l,
    pool w = Some p
    /\ list_nodes (Z.to_nat 10002) (heap w) (first_block p) = Some l
    /\ dump_pool_layout w
       = Some (layout_lines (heap w) (take 1001 l) 0, (1001 <=? length l)%nat).
Proof.
  unfold validate_pool, dump_pool_layout. intros H.
  destruct (pool w) as [p|]; [|discriminate H].
  destruct (negb (pool_signature p =? POOL_SIGNATURE)); [discriminate H|].
  destruct (_ || _); [discriminate H|].
  destruct (validate_walk _ _ _ _ _) as [u|] eqn:E; [|discriminate H].
  apply validate_walk_sound in E as (l & Hl & Hv & _).
  exists p, l. split; [done|]. split; [done|].
  f_equal. by eapply dump_walk_lines.
Qed.

(** ** Teardown *)

(** X18 (a destroyed pool is inert).  After [memory_pool_destroy], every
    entry point refuses the pool: [memory_pool_alloc] returns NULL,
    [memory_pool_free] ignores the call, [memory_pool_get_stats] and
    [validate_pool] return false, [dump_pool_layout] prints nothing and a
    second [memory_pool_destroy] does nothing; none of them changes the
    pool structure. *)
Theorem destroyed_pool_refuses_every_call w :
  let w' := snd (memory_pool_destroy w) in
  (forall sz, memory_pool_alloc w' sz = Some (NULL, w'))
  /\ (forall ptr, memory_pool_free w' ptr = Some (FreeIgnored, w'))
  /\ (forall st, memory_pool_get_stats w' st = Some (false, st))
  /\ validate_pool w' = false
  /\ dump_pool_layout w' = None
  /\ memory_pool_destroy w' = (false, w').
Proof.
  unfold memory_pool_destroy.
  destruct (pool w) as [p|] eqn:Hp.
  - destruct (pool_signature p =? POOL_SIGNATURE) eqn:Hs; cbn [negb snd].
    + unfold memory_pool_alloc, alloc_body, memory_pool_free,
        memory_pool_get_stats, validate_pool, dump_pool_layout.
      cbn [pool]. repeat split; try done. by intros [].
    + unfold memory_pool_alloc, alloc_body, memory_pool_free,
        memory_pool_get_stats, validate_pool, dump_pool_layout.
      rewrite Hp, Hs. cbn [negb orb]. repeat split; try done. by intros [].
  - cbn [snd].
    unfold memory_pool_alloc, alloc_body, memory_pool_free,
      memory_pool_get_stats, validate_pool, dump_pool_layout.
    rewrite Hp. repeat split; try done.
Qed.

(** X19 (the leak warning).  Along every run from a successful init with
    fewer than 2^64 calls, [memory_pool_destroy] logs the leak warning
    exactly when the number of allocations that returned a non-null
    pointer differs from the number of frees that released a block. *)
Theorem destroy_warns_of_unreleased_blocks os w a d :
  os_ok os -> counted os w a d -> 0 <= a < 2 ^ 64 -> 0 <= d < 2 ^ 64 ->
  fst (memory_pool_destroy w) = true <-> a <> d.
Proof.
  intros Hos Hc Ha Hd.
  pose proof (reachable_well_formed os w Hos (counted_reachable _ _ _ _ Hc))
    as (p & Hp & Hsig & _).
  destruct (counted_counters os w a d Hos Hc) as (p' & Hp' & Hna & Hnd).
  rewrite Hp in Hp'. injection Hp' as <-.
  unfold memory_pool_destroy. rewrite Hp, Hsig, Z.eqb_refl. cbn [negb fst].
  rewrite Hna, Hnd, !wrap_small by done.
  rewrite negb_true_iff. apply Z.eqb_neq.
Qed.

(** ** Command line *)

Lemma land_pred_pow2 a :
  0 < a -> Z.land a (a - 1) = 0 -> exists k, 0 <= k /\ a = 2 ^ k.
Proof.
  intros Ha Hl. exists (Z.log2 a). split; [apply Z.log2_nonneg|].
  destruct (Z.log2_spec a Ha) as [Hlo Hhi].
  destruct (Z.eq_dec a (2 ^ Z.log2 a)) as [|Hne]; [done|]. exfalso.
  assert (Z.testbit a (Z.log2 a) = true) as H1 by (apply Z.bit_log2; lia).
  assert (Z.log2 (a - 1) = Z.log2 a) as Hlog.
  { apply Z.log2_unique; [apply Z.log2_nonneg|]. lia. }
  assert (Z.testbit (a - 1) (Z.log2 a) = true) as H2.
  { rewrite <- Hlog. apply Z.bit_log2. pose proof (Z.log2_nonneg a).
    assert (0 < 2 ^ Z.log2 a) by (apply Z.pow_pos_nonneg; lia). lia. }
  assert (Z.testbit (Z.land a (a - 1)) (Z.log2 a) = true) as H3
    by (by rewrite Z.land_spec, H1, H2).
  rewrite Hl, Z.bits_0 in H3. discriminate H3.
Qed.

Lemma land_pow2_pred k : 0 <= k -> Z.land (2 ^ k) (2 ^ k - 1) = 0.
Proof.
  intros Hk. replace (2 ^ k - 1) with (Z.ones k) by (rewrite Z.ones_equiv; lia).
  rewrite Z.land_ones by done. apply Z.mod_same.
  apply Z.pow_nonzero; lia.
Qed.

Lemma str_to_int_range libc s v :
  str_to_int libc s = Some v -> INT_MIN <= v <= INT_MAX.
Proof.
  unfold str_to_int. destruct s as [s|]; [|done].
  destruct (strtol libc s) as [[val consumed] erange].
  destruct erange; [done|]. cbn [orb].
  destruct (val <? INT_MIN) eqn:E1; [done|].
  destruct (INT_MAX <? val) eqn:E2; [done|]. cbn [orb].
  destruct (_ || _); [done|]. intros [= <-].
  apply Z.ltb_ge in E1, E2. lia.
Qed.

Lemma substring_length_le n : forall s,
  (String.length (substring 0 n s) <= n)%nat.
Proof.
  induction n as [|n IH]; intros [|c s]; simpl; try lia.
  specialize (IH s). lia.
Qed.

(** What the option loop guarantees of the locals it sets. *)
Lemma parse_args_checked libc n : forall args o0 o,
  (length args <= n)%nat ->
  (exists k, 0 <= k <= 30 /\ Cli.alignment o0 = 2 ^ k) ->
  0 < Cli.pool_size o0 <= INT_MAX ->
  (String.length (Cli.pool_name o0) <= 63)%nat ->
  parse_args libc args o0 = ParseDone o ->
  (exists k, 0 <= k <= 30 /\ Cli.alignment o = 2 ^ k)
  /\ 0 < Cli.pool_size o <= INT_MAX
  /\ (String.length (Cli.pool_name o) <= 63)%nat.
Proof.
  induction n as [|n IH]; intros args o0 o Hlen Ha Hs Hn H.
  - destruct args; [|simpl in Hlen; lia]. simpl in H. by injection H as <-.
  - destruct args as [|arg rest]; [simpl in H; by injection H as <-|].
    cbn [parse_args] in H. cbn [length] in Hlen.
    destruct (arg =? "--help")%string; [discriminate H|].
    destruct (is_option arg "-s" "--size").
    { destruct rest as [|v rest']; [discriminate H|]. cbn [length] in Hlen.
      destruct (str_to_int libc (Some v)) as [sz|] eqn:Ev; [|discriminate H].
      destruct (sz <=? 0) eqn:Ez; [discriminate H|]. apply Z.leb_gt in Ez.
      apply str_to_int_range in Ev.
      apply IH in H; [done|lia|done|cbn [Cli.pool_size]; lia|done]. }
    destruct (is_option arg "-a" "--alignment").
    { destruct rest as [|v rest']; [discriminate H|]. cbn [length] in Hlen.
      destruct (str_to_int libc (Some v)) as [al|] eqn:Ev; [|discriminate H].
      destruct (al <=? 0) eqn:Ez; [discriminate H|]. apply Z.leb_gt in Ez.
      cbn [orb] in H.
      destruct (Z.land al (al - 1) =? 0) eqn:El; [|discriminate H].
      apply Z.eqb_eq in El. cbn [negb] in H.
      apply str_to_int_range in Ev.
      apply IH in H; [done|lia| |done|done].
      cbn [Cli.alignment].
      destruct (land_pred_pow2 al Ez El) as (k & Hk & ->).
      exists k. split; [|done]. split; [done|].
      unfold INT_MAX in Ev.
      assert (k < 31); [|lia].
      apply (Z.pow_lt_mono_r_iff 2); lia. }
    destruct (is_option arg "-n" "--name").
    { destruct rest as [|v rest']; [discriminate H|]. cbn [length] in Hlen.
      apply IH in H; [done|lia|done|done|].
      cbn [Cli.pool_name]. apply substring_length_le. }
    destruct (is_option arg "-i" "--interactive");
      [apply IH in H; [done|lia|done|done|done]|].
    destruct (is_option arg "-t" "--test");
      [apply IH in H; [done|lia|done|done|done]|].
    destruct (is_option arg "-d" "--debug");
      [apply IH in H; [done|lia|done|done|done]|].
    discriminate H.
Qed.

(** X20 (the options reaching [memory_pool_init]).  Whenever the option
    loop of [main] completes, the alignment it passes on is a power of two
    of at most 2^30, the pool size is a positive [int] and the pool name
    has at most 63 characters; conversely every power of two that
    [str_to_int] reads after [-a] is accepted. *)
Theorem cli_alignment_is_a_power_of_two libc :
  (forall args o,
     parse_args libc args default_options = ParseDone o ->
     (exists k, 0 <= k <= 30 /\ Cli.alignment o = 2 ^ k)
     /\ 0 < Cli.pool_size o <= INT_MAX
     /\ (String.length (Cli.pool_name o) <= 63)%nat)
  /\ (forall v k rest o,
        str_to_int libc (Some v) = Some (2 ^ k) -> 0 <= k ->
        parse_args libc ("-a"%string :: v :: rest) o
        = parse_args libc rest
            (Cli.mkOptions (Cli.pool_size o) (2 ^ k) (Cli.pool_name o)
               (Cli.interactive_mode o) (Cli.run_tests o)
               (Cli.debug_mode o))).
Proof.
  split.
  - intros args o H.
    apply (parse_args_checked libc (length args) args default_options o);
      [done| | | |done].
    + exists 3. split; [lia|done].
    + unfold INT_MAX. simpl. lia.
    + simpl. lia.
  - intros v k rest o Hv Hk. cbn [parse_args].
    change ("-a" =? "--help")%string with false. cbv iota.
    change (is_option "-a" "-s" "--size") with false. cbv iota.
    change (is_option "-a" "-a" "--alignment") with true. cbv iota.
    rewrite Hv.
    assert (0 < 2 ^ k) by (apply Z.pow_pos_nonneg; lia).
    assert ((2 ^ k <=? 0) = false) as -> by (apply Z.leb_gt; lia).
    rewrite land_pow2_pred, Z.eqb_refl by done. done.
Qed.

(** ** The default run *)

(** X21 (the default run).  Started without options on a host with 4 KiB
    pages, [main] builds the 1 MiB pool and runs the self test: every call
    of the test returns, its payload fills touch no header, the final
    [validate_pool] passes, [memory_pool_destroy] logs no leak warning and
    the exit status is 0. *)
Theorem default_run_completes libc interactive program_name :
  main demo_os libc interactive [program_name]
  = Some (mkMainRun 0 false false true).
Proof. vm_compute. reflexivity. Qed.

(** ** Free lists as stacks *)

Lemma list_nodes_ext m m' k : forall b l,
  list_nodes k m b = Some l ->
  (forall x, x ∈ l -> next (load m' x) = next (load m x)) ->
  list_nodes k m' b = Some l.
Proof.
  induction k as [|k IH]; intros b l H Hn; [discriminate H|].
  cbn [list_nodes] in H |- *. destruct (b =? NULL); [done|].
  destruct (list_nodes k m (next (load m b))) as [l'|] eqn:E; [|discriminate H].
  injection H as <-.
  rewrite (Hn b) by (apply elem_of_cons; by left).
  rewrite (IH _ _ E); [done|].
  intros x Hx. apply Hn. apply elem_of_cons. by right.
Qed.

Lemma list_nodes_head m k b l :
  list_nodes k m b = Some l -> b <> NULL -> exists l', l = b :: l'.
Proof.
  destruct k as [|k]; [done|]. cbn [list_nodes]. intros H Hb.
  rewrite (eqb_NULL_false _ Hb) in H.
  destruct (list_nodes k m (next (load m b))) as [l'|]; [|discriminate H].
  injection H as <-. by exists l'.
Qed.

Lemma list_nodes_cons m k b l :
  b <> NULL -> list_nodes k m (next (load m b)) = Some l ->
  list_nodes (S k) m b = Some (b :: l).
Proof.
  intros Hb H. cbn [list_nodes]. by rewrite (eqb_NULL_false _ Hb), H.
Qed.

Lemma wrap_succ_pred c : 0 <= c < 2 ^ 64 -> wrap (wrap (c + 1) - 1) = c.
Proof.
  intros Hc. unfold wrap. rewrite Zminus_mod_idemp_l.
  replace (c + 1 - 1) with c by lia. by apply Z.mod_small.
Qed.


(** ** Where a freed block goes *)

Lemma lists_only_length p p' :
  lists_only p p' -> length (free_lists p') = length (free_lists p).
Proof. intros (fl & nb & H & ->). by destruct p. Qed.

Lemma reachable_lists_length os w :
  reachable os w ->
  forall p, pool w = Some p ->
            length (free_lists p) = Z.to_nat MAX_FREE_LISTS.
Proof.
  induction 1 as [w0 sz al nm w H | w sz ptr w' Hr IH H | w ptr r w' Hr IH H];
    intros p Hp.
  - unfold memory_pool_init in H.
    destruct (pool w0); [|discriminate H].
    destruct (sz =? 0); [discriminate H|].
    destruct (mmap os _); [|discriminate H].
    injection H as <-. cbn [pool] in Hp. injection Hp as <-.
    unfold set_free_list. cbn [free_lists set_free_lists].
    rewrite length_insert. unfold empty_lists. apply length_replicate.
  - unfold memory_pool_alloc in H.
    destruct (alloc_body w sz) as [[[best sr] w1]|] eqn:E; [|discriminate H].
    injection H as _ <-.
    destruct (decide (best = NULL)) as [->|Hb].
    { apply alloc_body_null in E as ->. by apply IH. }
    destruct (pool w) as [p0|] eqn:Hp0.
    2:{ unfold alloc_body in E. rewrite Hp0 in E. by injection E as <- _ _. }
    destruct (alloc_body_pool _ _ _ _ _ _ Hp0 E Hb) as (p1 & Hl & Hp1).
    rewrite Hp in Hp1. injection Hp1 as ->.
    apply lists_only_length in Hl. rewrite <- (IH p0 eq_refl), <- Hl.
    unfold account_alloc. cbv zeta.
    by match goal with |- context [if ?c then _ else _] => destruct c end.
  - destruct (decide (r = FreeDone)) as [->|Hnd].
    + destruct (pool w) as [p0|] eqn:Hp0.
      2:{ unfold memory_pool_free in H. rewrite Hp0 in H. discriminate H. }
      destruct (free_done_pool _ _ _ _ Hp0 H) as (p' & Hp' & Hl).
      rewrite Hp in Hp'. injection Hp' as <-.
      apply lists_only_length in Hl. rewrite Hl.
      unfold account_free. cbn [free_lists set_num_deallocations set_used_size].
      by apply IH.
    + apply free_not_done in H as ->; [|done]. by apply IH.
Qed.

Lemma absorb_marks m x y : same_marks m (absorb m x y).
Proof.
  unfold absorb. cbv zeta.
  match goal with |- context [if ?c then _ else _] => destruct c end.
  - eapply same_marks_trans; apply same_marks_store;
      [apply set_size_marks | apply set_next_marks].
  - eapply same_marks_trans; [|apply same_marks_store, set_prev_marks].
    eapply same_marks_trans; apply same_marks_store;
      [apply set_size_marks | apply set_next_marks].
Qed.

Lemma coalesce_prev_free fuel : forall w b b' w',
  is_free (load (heap w) b) = true ->
  coalesce_prev fuel w b = Some (b', w') ->
  is_free (load (heap w') b') = true.
Proof.
  induction fuel as [|fuel IH]; intros w b b' w' Hf H; [discriminate H|].
  rewrite coalesce_prev_unfold in H. cbv zeta in H.
  destruct (negb (prev (load (heap w) b) =? NULL)
            && is_free (load (heap w) (prev (load (heap w) b)))
            && validate_block (heap w) (prev (load (heap w) b))) eqn:Ec.
  - destruct (_ =? b).
    + apply IH in H; [done|]. cbn [heap upd_pool with_heap].
      apply andb_true_iff in Ec as [Ec _].
      apply andb_true_iff in Ec as [_ Ec].
      destruct (absorb_marks (heap w) (prev (load (heap w) b)) b
                             (prev (load (heap w) b))) as (_ & _ & ->).
      done.
    + by injection H as <- <-.
  - by injection H as <- <-.
Qed.

Lemma add_to_free_list_sizes w b x :
  size (load (heap (add_to_free_list w b)) x) = size (load (heap w) x).
Proof.
  unfold add_to_free_list. destruct (pool w); [|done].
  destruct (_ || _); [done|]. cbn [heap].
  match goal with |- context [if ?c then _ else _] => destruct c end;
    rewrite !size_store_keeps
      by (apply keeps_status_extent;
          first [apply set_next_status | apply set_prev_status]);
    done.
Qed.

Lemma freed_block_head os w ptr w' :
  os_ok os -> reachable os w ->
  memory_pool_free w ptr = Some (FreeDone, w') ->
  exists p' b,
    pool w' = Some p'
    /\ validate_block (heap w') b = true
    /\ is_free (load (heap w') b) = true
    /\ head (free_list p' (get_free_list_index (size (load (heap w') b)))) = b.
Proof.
  intros Hos Hr H.
  pose proof (reachable_well_formed os w Hos Hr) as (p & Hp & Hsig & HL & Hused & Hm).
  pose proof (reachable_lists_length os w Hr p Hp) as Hlen.
  unfold memory_pool_free in H. rewrite Hp in H.
  destruct (_ || _); [discriminate H|].
  set (b := wrap (ptr - sizeof_BlockHeader)) in *.
  destruct (validate_block (heap w) b) eqn:Ev; [|discriminate H].
  destruct (is_free (load (heap w) b)) eqn:Ef; [discriminate H|].
  cbn [negb] in H.
  set (w1 := with_heap _ _) in H.
  assert (exists p1, pool w1 = Some p1 /\ length (free_lists p1) = length (free_lists p))
    as (p1 & Hp1 & Hlen1).
  { unfold w1, with_heap, upd_pool. cbn [pool]. rewrite Hp.
    eexists. split; [reflexivity|]. done. }
  assert (heap w1 = store b (set_is_free true) (heap w)) as Hh1 by done.
  assert (heap_bounded (region_limit p) (heap w1)) as Hb1
    by (rewrite Hh1; auto with pool).
  pose proof Ev as Ev'.
  apply validate_block_true in Ev' as (Hb0 & Hbs & Hbm & Hbz).
  assert (validate_block (heap w1) b = true) as Ev1.
  { apply validate_block_true. rewrite Hh1, load_store_eq. by simpl. }
  assert (is_free (load (heap w1) b) = true) as Ef1
    by (by rewrite Hh1, load_store_eq).
  destruct (coalesce_blocks w1 b) as [[b' w2]|] eqn:Ec; [|discriminate H].
  injection H as <-.
  destruct (coalesce_blocks_lists _ _ _ _ _ Hp1 Ec) as (p2 & Hp2 & Hl2).
  apply lists_only_length in Hl2.
  unfold coalesce_blocks in Ec. rewrite Hp1, Ev1, Ef1 in Ec.
  rewrite (eqb_NULL_false _ Hb0) in Ec. cbn [negb orb] in Ec.
  destruct (coalesce_next _ w1 b) as [w1'|] eqn:En; [|discriminate Ec].
  apply validate_block_true in Ev1 as (_ & Hs1 & Hm1 & Hz1).
  destruct (coalesce_next_ok _ _ _ _ _ _ HL Hp1 Hb1 Hs1 Hm1 En)
    as (Hb1' & Hg1' & p1' & Hp1' & _).
  destruct (Hg1' b) as (Hgs & Hgm & Hgf & Hgz).
  assert (signature (load (heap w1') b) = BLOCK_SIGNATURE) as Hs1' by congruence.
  assert (magic (load (heap w1') b) = BLOCK_SIGNATURE) as Hm1' by congruence.
  assert (0 < size (load (heap w1') b)) as Hz1' by lia.
  destruct (coalesce_prev_ok _ _ _ _ _ _ _ HL Hp1' Hb1' Hs1' Hm1' Hz1' Hb0 Ec)
    as (Hb2 & _ & Ev2 & _).
  assert (is_free (load (heap w2) b') = true) as Ef2.
  { eapply coalesce_prev_free; [|exact Ec]. congruence. }
  pose proof Ev2 as Ev2'.
  apply validate_block_true in Ev2' as (Hb0' & Hbs' & Hbm' & Hbz').
  destruct (add_to_free_list_ok _ w2 b' p2 Hp2 Hb2) as (_ & Hg3 & _).
  destruct (Hg3 b') as (Hs3 & Hm3 & Hf3 & _).
  pose proof (add_to_free_list_sizes w2 b' b') as Hz3.
  set (w3 := add_to_free_list w2 b') in *.
  pose proof (get_free_list_index_range (size (load (heap w2) b'))) as Hi.
  assert (exists p3, pool w3 = Some p3
            /\ head (free_list p3 (get_free_list_index
                                     (size (load (heap w2) b')))) = b')
    as (p3 & Hp3 & Hh3).
  { unfold w3, add_to_free_list. rewrite Hp2, Ev2, (eqb_NULL_false _ Hb0').
    cbn [negb orb pool]. eexists. split; [reflexivity|].
    rewrite free_list_set_eq; [done|lia|].
    rewrite Hl2, Hlen1, Hlen. unfold MAX_FREE_LISTS. lia. }
  exists p3, b'. split; [done|]. split.
  { apply validate_block_true. rewrite Hz3. repeat split; congruence || done. }
  split; [congruence|]. by rewrite Hz3.
Qed.


(** A perfect fit at the head of the first bucket searched ends the
    search at once. *)
Lemma find_best_block_perfect_head p m a b :
  head (free_list p (get_free_list_index a)) = b ->
  validate_block m b = true -> is_free (load m b) = true ->
  size (load m b) = a ->
  find_best_block p m a = Some (b, get_free_list_index a).
Proof.
  intros Hh Hv Hf Hs. unfold find_best_block.
  pose proof (get_free_list_index_range a) as Hr.
  set (i := get_free_list_index a) in *.
  assert (b <> NULL) as Hb by (by apply validate_block_true in Hv as (? & _)).
  replace (Z.to_nat (MAX_FREE_LISTS - i)) with (S (Z.to_nat (31 - i)))
    by (unfold MAX_FREE_LISTS; lia).
  cbn [scan_lists]. rewrite Hh. unfold list_fuel. cbn [scan_bucket].
  rewrite (eqb_NULL_false _ Hb), Hv, Hf, Hs.
  assert ((a <=? a) = true) as -> by (apply Z.leb_le; lia).
  change (NULL =? NULL) with true. cbn [andb orb].
  rewrite Z.eqb_refl, (eqb_NULL_false _ Hb), Hs, Z.eqb_refl. done.
Qed.


(** ** Splitting and merging again *)

Lemma header_eta h :
  h = mkBlockHeader (signature h) (size h) (is_free h) (next h) (prev h)
                    (magic h).
Proof. by destruct h. Qed.


(** ** Dynamic array *)

Lemma window_after_write (d e : list Byte.byte) (off n : nat) :
  (off + n <= length d)%nat -> (n <= length e)%nat ->
  let d' := take off d ++ take n e ++ drop (off + n) d in
  length d' = length d
  /\ take n (drop off d') = take n e
  /\ forall k, (k + n <= off)%nat -> take n (drop k d') = take n (drop k d).
Proof.
  intros Hd He d'. unfold d'.
  assert (length (take off d) = off) as Hl1 by (apply length_take_le; lia).
  assert (length (take n e) = n) as Hl2 by (apply length_take_le; lia).
  split; [|split].
  - rewrite !length_app, Hl1, Hl2, length_drop. lia.
  - rewrite drop_app_length' by done. by rewrite take_app_length'.
  - intros k Hk. rewrite drop_app_le by lia.
    rewrite take_app_le by (rewrite length_drop; lia).
    rewrite !take_drop_commute, take_take. do 2 f_equal. lia.
Qed.

(** Writing one element at index [s] of a buffer of [c] elements. *)
Lemma write_element d s es c e :
  0 < es -> 0 <= s < c -> c * es < 2 ^ 63 ->
  Z.of_nat (length d) = c * es -> es <= Z.of_nat (length e) ->
  exists d',
    copy_in d (wrap (s * es)) es e = Some d'
    /\ Z.of_nat (length d') = c * es
    /\ copy_out d' (wrap (s * es)) es = Some (take (Z.to_nat es) e)
    /\ forall i, 0 <= i < s ->
                 copy_out d' (wrap (i * es)) es = copy_out d (wrap (i * es)) es.
Proof.
  intros Hes Hs Hc Hd He.
  assert (forall i, 0 <= i <= s -> wrap (i * es) = i * es) as Hw
    by (intros i Hi; apply wrap_small; nia).
  assert (s * es + es <= c * es) as Hfit by nia.
  destruct (window_after_write d e (Z.to_nat (s * es)) (Z.to_nat es))
    as (H1 & H2 & H3); [lia|lia|].
  unfold copy_in. rewrite (Hw s) by lia.
  assert ((Z.of_nat (length e) <? es) = false) as -> by (apply Z.ltb_ge; lia).
  assert ((Z.of_nat (length d) <? s * es + es) = false) as ->
    by (apply Z.ltb_ge; lia).
  cbn [orb]. rewrite Z2Nat.inj_add by nia.
  eexists. split; [reflexivity|]. split; [lia|]. split.
  - unfold copy_out.
    match goal with |- context [Z.of_nat (length ?l) <? _] =>
      assert ((Z.of_nat (length l) <? s * es + es) = false) as ->
        by (apply Z.ltb_ge; lia)
    end.
    by rewrite H2.
  - intros i Hi. unfold copy_out. rewrite (Hw i) by lia.
    assert (i * es + es <= s * es) by nia.
    match goal with |- context [Z.of_nat (length ?l) <? _] =>
      assert ((Z.of_nat (length l) <? i * es + es) = false) as ->
        by (apply Z.ltb_ge; lia)
    end.
    assert ((Z.of_nat (length d) <? i * es + es) = false) as ->
      by (apply Z.ltb_ge; lia).
    rewrite H3; [done|]. lia.
Qed.

Lemma reallocated_length h n old :
  Z.of_nat (length old) <= n ->
  Z.of_nat (length (reallocated h n old)) = n
  /\ take (length old) (reallocated h n old) = old.
Proof.
  intros Hn. unfold reallocated.
  rewrite (take_ge old) by lia. split.
  - rewrite length_app, length_replicate. lia.
  - apply take_app_length.
Qed.

(** Reading below the old length is not affected by [realloc]. *)
Lemma copy_out_reallocated h n old off k :
  Z.of_nat (length old) <= n -> 0 <= off -> 0 <= k ->
  off + k <= Z.of_nat (length old) ->
  copy_out (reallocated h n old) off k = copy_out old off k.
Proof.
  intros Hn Hoff Hk Hfit.
  destruct (reallocated_length h n old Hn) as [Hlen _].
  unfold copy_out. rewrite Hlen.
  assert ((n <? off + k) = false) as -> by (apply Z.ltb_ge; lia).
  assert ((Z.of_nat (length old) <? off + k) = false) as ->
    by (apply Z.ltb_ge; lia).
  unfold reallocated. rewrite (take_ge old) by lia.
  rewrite drop_app_le by lia.
  rewrite take_app_le by (rewrite length_drop; lia). done.
Qed.

(** X25 (pushing onto a dynamic array).  On an array whose buffer holds
    [capacity] elements, with an allocator that grants no request of 2^63
    bytes or more, [darray_push] stays inside its buffers.  It fails only
    when the array is full and the allocator refuses to double it, and then
    leaves the array as it was; otherwise the size grows by one, the
    capacity is unchanged or doubled (doubled exactly when the array was
    full), the new element is read back by [darray_get] at the old size,
    and the elements below keep their values. *)
Theorem darray_push_appends h a e :
  allocator_bounded h -> darray_ok a ->
  DynamicArray.element_size a <= Z.of_nat (length e) ->
  exists r,
    darray_push h (Some a) (Some e) = Some r
    /\ ((r = (false, Some a)
         /\ DynamicArray.size a = DynamicArray.capacity a)
        \/ exists a',
             r = (true, Some a')
             /\ darray_ok a'
             /\ DynamicArray.size a' = DynamicArray.size a + 1
             /\ DynamicArray.element_size a' = DynamicArray.element_size a
             /\ DynamicArray.capacity a'
                = (if DynamicArray.capacity a <=? DynamicArray.size a
                   then 2 * DynamicArray.capacity a
                   else DynamicArray.capacity a)
             /\ darray_get (Some a') (DynamicArray.size a)
                = Some (Some (take (Z.to_nat (DynamicArray.element_size a)) e))
             /\ forall i, 0 <= i < DynamicArray.size a ->
                          darray_get (Some a') i = darray_get (Some a) i).
Proof.
  intros Hh (Hes & Hs & Hc & Hbytes & Hlen) He.
  destruct a as [d s c es]. cbn [DynamicArray.data DynamicArray.size
    DynamicArray.capacity DynamicArray.element_size] in *.
  assert (s < 2 ^ 63 /\ c < 2 ^ 63) as [Hs63 Hc63] by nia.
  unfold darray_push. cbn [DynamicArray.capacity DynamicArray.size].
  destruct (c <=? s) eqn:Efull; [apply Z.leb_le in Efull|apply Z.leb_gt in Efull].
  - (* the array is full *)
    assert (s = c) as -> by lia.
    unfold darray_grow. cbn [DynamicArray.capacity DynamicArray.element_size
      DynamicArray.data DynamicArray.size].
    unfold GROWTH_FACTOR. rewrite (wrap_small (c * 2)) by lia.
    assert ((c * 2 <? c) = false) as -> by (apply Z.ltb_ge; lia).
    destruct (Z_lt_le_dec (c * 2 * es) (2 ^ 64)) as [Hsmall|Hlarge].
    + rewrite (wrap_small (c * 2 * es)) by nia.
      destruct (can_allocate h (c * 2 * es)) eqn:Eg.
      * specialize (Hh _ Eg). cbn [negb].
        destruct (reallocated_length h (c * 2 * es) d) as [Hrl _]; [nia|].
        destruct (write_element (reallocated h (c * 2 * es) d) c es (c * 2) e)
          as (d' & Hw1 & Hw2 & Hw3 & Hw4); [lia|lia|lia|lia|lia|].
        cbn [DynamicArray.data DynamicArray.size DynamicArray.element_size
             DynamicArray.capacity].
        rewrite Hw1. eexists. split; [reflexivity|]. right.
        eexists. split; [reflexivity|].
        cbn [DynamicArray.data DynamicArray.size DynamicArray.element_size
             DynamicArray.capacity].
        rewrite (wrap_small (c + 1)) by lia.
        split; [unfold darray_ok; simpl; lia|].
        split; [done|]. split; [done|]. split; [lia|].
        unfold darray_get.
        cbn [DynamicArray.data DynamicArray.size DynamicArray.element_size].
        split.
        { assert ((c + 1 <=? c) = false) as -> by (apply Z.leb_gt; lia).
          by rewrite Hw3. }
        intros i Hi.
        assert ((c + 1 <=? i) = false) as -> by (apply Z.leb_gt; lia).
        assert ((c <=? i) = false) as -> by (apply Z.leb_gt; lia).
        rewrite Hw4 by done. f_equal.
        rewrite (wrap_small (i * es)) by nia.
        apply copy_out_reallocated; nia.
      * cbn [negb]. eexists. split; [reflexivity|]. by left.
    + (* the doubled byte count wraps around *)
      nia.
  - (* there is room *)
    cbn [negb DynamicArray.data DynamicArray.size DynamicArray.element_size
         DynamicArray.capacity].
    destruct (write_element d s es c e)
      as (d' & Hw1 & Hw2 & Hw3 & Hw4); [lia|lia|lia|lia|lia|].
    rewrite Hw1. eexists. split; [reflexivity|]. right.
    eexists. split; [reflexivity|].
    cbn [DynamicArray.data DynamicArray.size DynamicArray.element_size
         DynamicArray.capacity].
    rewrite (wrap_small (s + 1)) by lia.
    split; [unfold darray_ok; simpl; lia|].
    split; [done|]. split; [done|]. split; [done|].
    unfold darray_get.
    cbn [DynamicArray.data DynamicArray.size DynamicArray.element_size].
    split.
    { assert ((s + 1 <=? s) = false) as -> by (apply Z.leb_gt; lia).
      by rewrite Hw3. }
    intros i Hi.
    assert ((s + 1 <=? i) = false) as -> by (apply Z.leb_gt; lia).
    assert ((s <=? i) = false) as -> by (apply Z.leb_gt; lia).
    by rewrite Hw4.
Qed.

(** X26 (creating a dynamic array).  [darray_create] refuses an element
    size of 0.  When it succeeds for a capacity whose byte count fits in 64
    bits, the array is empty, its capacity is the requested one (8 when 0
    was requested), its buffer holds that many elements, and [darray_get]
    fails at every index. *)
Theorem darray_create_gives_empty_array h es cap :
  darray_create h 0 cap = None
  /\ forall a,
       allocator_bounded h -> 0 <= es -> 0 <= cap ->
       (if cap =? 0 then DEFAULT_CAPACITY else cap) * es < 2 ^ 64 ->
       darray_create h es cap = Some a ->
       darray_ok a
       /\ darray_size (Some a) = 0
       /\ darray_capacity (Some a)
          = (if cap =? 0 then DEFAULT_CAPACITY else cap)
       /\ DynamicArray.element_size a = es
       /\ forall i, 0 <= i -> darray_get (Some a) i = Some None.
Proof.
  split; [done|]. intros a Hh Hes Hcap Hfit H. unfold darray_create in H.
  destruct (es =? 0) eqn:E0; [discriminate H|]. apply Z.eqb_neq in E0.
  destruct (negb _); [discriminate H|].
  set (c := if cap =? 0 then DEFAULT_CAPACITY else cap) in *.
  assert (0 < c) as Hc.
  { unfold c, DEFAULT_CAPACITY. destruct (cap =? 0) eqn:E;
      [lia|apply Z.eqb_neq in E; lia]. }
  rewrite (wrap_small (c * es)) in H by nia.
  destruct (can_allocate h (c * es)) eqn:Eg; [|discriminate H].
  injection H as <-. specialize (Hh _ Eg).
  cbn [darray_size darray_capacity DynamicArray.size DynamicArray.capacity
       DynamicArray.element_size].
  split.
  { unfold darray_ok. cbn [DynamicArray.size DynamicArray.capacity
      DynamicArray.element_size DynamicArray.data].
    rewrite length_replicate. nia. }
  split; [done|]. split; [done|]. split; [done|].
  intros i Hi. unfold darray_get. cbn [DynamicArray.size].
  by assert ((0 <=? i) = true) as -> by (apply Z.leb_le; lia).
Qed.

(** ** The first allocation from a fresh pool *)

Lemma init_is_initial_world os w0 sz al nm w :
  os_ok os -> memory_pool_init os w0 sz al nm = (true, w) ->
  exists base T nm',
    w = initial_world base T (if 0 <? al then al else DEFAULT_ALIGNMENT) nm'
    /\ 0 < base /\ 64 <= T /\ base + T < 2 ^ 64.
Proof.
  intros [(k & Hk & Hpage) Hmmap] H. unfold memory_pool_init in H.
  destruct (pool w0); [|discriminate H].
  destruct (sz =? 0); [discriminate H|].
  destruct (mmap os (align_size sz (getpagesize os))) as [base|] eqn:Em;
    [|discriminate H].
  injection H as <-.
  destruct (Hmmap _ _ Em) as (Hlen & Hbase & Hend).
  rewrite Hpage in *.
  destruct (align_size_pow2 sz k) as (q & Hq & Hsz); [lia|].
  assert (2 ^ 6 <= 2 ^ k) as Hpow by (apply Z.pow_le_mono_r; lia).
  change (2 ^ 6) with 64 in Hpow.
  set (T := align_size sz (2 ^ k)) in *.
  assert (64 <= T) as Hbig.
  { rewrite Hsz in Hlen |- *. assert (1 <= q) by nia. nia. }
  exists base, T. eexists. split; [|done].
  unfold initial_world, initial_block.
  rewrite (wrap_small (T - sizeof_BlockHeader))
    by (unfold sizeof_BlockHeader; lia).
  reflexivity.
Qed.

Lemma class_le s1 s2 :
  s1 <= s2 -> get_free_list_index s1 <= get_free_list_index s2.
Proof.
  intros Hs. unfold get_free_list_index.
  pose proof (index_loop_ge 22 s2 9 8192) as Hge.
  pose proof (index_loop_mono 22 s1 s2 Hs 9 8192) as Hmono.
  repeat match goal with
         | |- context [?a <=? ?b] =>
             let E := fresh "E" in
             destruct (Z.leb_spec a b) as [E|E]
         end; lia.
Qed.

Lemma initial_head base T al nm p i :
  pool (initial_world base T al nm) = Some p -> 0 <= i ->
  head (free_list p i)
  = if i =? get_free_list_index (T - sizeof_BlockHeader) then base else NULL.
Proof.
  intros Hp Hi. cbn [initial_world pool] in Hp. injection Hp as <-.
  pose proof (get_free_list_index_range (T - sizeof_BlockHeader)) as Hj.
  set (j := get_free_list_index (T - sizeof_BlockHeader)) in *.
  destruct (i =? j) eqn:E; [apply Z.eqb_eq in E | apply Z.eqb_neq in E].
  - subst i. rewrite free_list_set_eq; [done|lia|].
    cbn [free_lists]. unfold empty_lists. rewrite length_replicate.
    unfold MAX_FREE_LISTS. lia.
  - rewrite free_list_set_ne by lia. unfold free_list. cbn [free_lists].
    destruct (empty_lists !! Z.to_nat i) as [y|] eqn:El; [|done].
    apply lookup_replicate in El as [-> _]. done.
Qed.

Lemma initial_bucket base T al nm p i :
  pool (initial_world base T al nm) = Some p -> 0 <= i -> 0 < base ->
  bucket_nodes p (heap (initial_world base T al nm)) i
  = Some (if i =? get_free_list_index (T - sizeof_BlockHeader) then [base]
          else []).
Proof.
  intros Hp Hi Hb. unfold bucket_nodes.
  rewrite (initial_head _ _ _ _ _ _ Hp Hi).
  cbn [initial_world heap]. unfold list_fuel. rewrite map_size_singleton.
  destruct (i =? _); [|done].
  cbn [list_nodes]. rewrite eqb_NULL_false by (unfold NULL; lia).
  unfold load. rewrite lookup_singleton_eq. done.
Qed.

Lemma initial_examined base T al nm p n :
  pool (initial_world base T al nm) = Some p -> 0 < base ->
  forall i, 0 <= i ->
    examined_from n p (heap (initial_world base T al nm)) i
    = Some (if (i <=? get_free_list_index (T - sizeof_BlockHeader))
               && (get_free_list_index (T - sizeof_BlockHeader)
                   <? i + Z.of_nat n)
            then [(base, get_free_list_index (T - sizeof_BlockHeader))]
            else []).
Proof.
  intros Hp Hb. set (j := get_free_list_index (T - sizeof_BlockHeader)).
  induction n as [|n IH]; intros i Hi.
  - cbn [examined_from]. f_equal.
    destruct (i <=? j) eqn:E1; [|done]. apply Z.leb_le in E1.
    assert ((j <? i + Z.of_nat 0) = false) as -> by (apply Z.ltb_ge; lia). done.
  - cbn [examined_from].
    rewrite (initial_bucket _ _ _ _ _ _ Hp Hi Hb), (IH (i + 1)) by lia.
    fold j. f_equal.
    destruct (i =? j) eqn:E; [apply Z.eqb_eq in E | apply Z.eqb_neq in E].
    + subst i.
      assert ((j + 1 <=? j) = false) as -> by (apply Z.leb_gt; lia).
      assert ((j <=? j) = true) as -> by (apply Z.leb_le; lia).
      assert ((j <? j + Z.of_nat (S n)) = true) as -> by (apply Z.ltb_lt; lia).
      done.
    + cbn [map app].
      destruct (i <=? j) eqn:E1; [apply Z.leb_le in E1 | apply Z.leb_gt in E1].
      * assert ((i + 1 <=? j) = true) as -> by (apply Z.leb_le; lia).
        cbn [andb].
        replace (i + 1 + Z.of_nat n) with (i + Z.of_nat (S n)) by lia. done.
      * assert ((i + 1 <=? j) = false) as -> by (apply Z.leb_gt; lia). done.
Qed.

(** The search on a fresh pool. *)
Lemma initial_find_best_block base T al nm p a :
  pool (initial_world base T al nm) = Some p ->
  0 < base -> 64 <= T -> 0 <= a ->
  find_best_block p (heap (initial_world base T al nm)) a
  = Some (if a <=? T - sizeof_BlockHeader
          then (base, get_free_list_index (T - sizeof_BlockHeader))
          else (NULL, 0)).
Proof.
  intros Hp Hb HT Ha. unfold find_best_block.
  pose proof (get_free_list_index_range a) as Hs.
  pose proof (get_free_list_index_range (T - sizeof_BlockHeader)) as Hj.
  assert (0 <= get_free_list_index a) as Hs0 by lia.
  rewrite (scan_lists_pick p (heap (initial_world base T al nm)) a _
             (get_free_list_index a) NULL 0 _ (eq_refl false)
             (initial_examined _ _ _ _ _ _ Hp Hb _ Hs0)).
  f_equal. set (m := heap (initial_world base T al nm)).
  assert (load m base = initial_block T) as Hl
    by (unfold m, load; cbn [initial_world heap];
        by rewrite lookup_singleton_eq).
  assert (eligible m a base = (a <=? T - sizeof_BlockHeader)) as He.
  { unfold eligible.
    assert (validate_block m base = true) as ->.
    { apply validate_block_true. rewrite Hl. simpl.
      unfold NULL, sizeof_BlockHeader. repeat split; try done; lia. }
    by rewrite Hl. }
  destruct (a <=? T - sizeof_BlockHeader) eqn:Efit.
  - apply Z.leb_le in Efit.
    pose proof (class_le _ _ Efit) as Hle.
    assert ((get_free_list_index a
             <=? get_free_list_index (T - sizeof_BlockHeader)) = true) as ->
      by (apply Z.leb_le; lia).
    assert ((get_free_list_index (T - sizeof_BlockHeader)
             <? get_free_list_index a
                + Z.of_nat (Z.to_nat (MAX_FREE_LISTS - get_free_list_index a)))
            = true) as -> by (apply Z.ltb_lt; unfold MAX_FREE_LISTS; lia).
    cbn [andb pick]. rewrite He. change (NULL =? NULL) with true.
    cbn [orb]. by destruct (_ =? a).
  - destruct (_ && _); [|done]. cbn [pick]. by rewrite He.
Qed.

Lemma remove_from_free_list_sizes w b i x :
  size (load (heap (remove_from_free_list w b i)) x) = size (load (heap w) x).
Proof.
  unfold remove_from_free_list. destruct (pool w); [|done].
  destruct (_ || _); [done|]. cbn [heap].
  rewrite !size_store_keeps
    by (apply keeps_status_extent;
        first [apply set_next_status | apply set_prev_status]).
  repeat match goal with
         | |- context [if ?c then _ else _] => destruct c
         end;
    rewrite ?size_store_keeps
      by (apply keeps_status_extent;
          first [apply set_next_status | apply set_prev_status]);
    done.
Qed.

Lemma remove_from_free_list_valid L w b i p x :
  pool w = Some p -> heap_bounded L (heap w) ->
  validate_block (heap (remove_from_free_list w b i)) x
  = validate_block (heap w) x.
Proof.
  intros Hp Hm.
  destruct (remove_from_free_list_ok _ w b i p Hp Hm) as (_ & Hg & _).
  unfold validate_block. destruct (x =? NULL); [done|].
  destruct (Hg x) as (-> & -> & _). by rewrite remove_from_free_list_sizes.
Qed.

Lemma split_block_size_exact w b a r w' p :
  pool w = Some p -> validate_block (heap w) b = true ->
  split_block w b a = (r, w') ->
  size (load (heap w') b)
  = if wrap (size (load (heap w) b) - align_size a (alignment p))
       <? sizeof_BlockHeader + MIN_BLOCK_SIZE
    then size (load (heap w) b) else align_size a (alignment p).
Proof.
  intros Hp Hv H. unfold split_block in H. rewrite Hp, Hv in H.
  assert (b <> NULL) as Hb by (by apply validate_block_true in Hv as (? & _)).
  rewrite (eqb_NULL_false _ Hb) in H. cbn [negb orb] in H.
  destruct (_ <? _); injection H as _ <-; [done|].
  cbn [heap].
  rewrite size_store_keeps by (apply keeps_status_extent, set_next_status).
  match goal with |- context [if ?c then _ else _] => destruct c end.
  - by rewrite load_store_eq.
  - rewrite !size_store_keeps
      by (apply keeps_status_extent;
          first [apply set_next_status | apply set_prev_status]).
    by rewrite load_store_eq.
Qed.

Lemma first_allocation os w0 sz0 al nm w sz :
  os_ok os -> memory_pool_init os w0 sz0 al nm = (true, w) ->
  exists p,
    pool w = Some p
    /\ let a := align_size sz (alignment p) in
       (sz = 0 \/ total_size p < a + sizeof_BlockHeader ->
        memory_pool_alloc w sz = Some (NULL, w))
       /\ (sz <> 0 -> a + sizeof_BlockHeader <= total_size p ->
           exists w',
             memory_pool_alloc w sz
             = Some (memory p + sizeof_BlockHeader, w')
             /\ is_free (load (heap w') (memory p)) = false
             /\ size (load (heap w') (memory p))
                = (if total_size p - sizeof_BlockHeader - a
                      <? sizeof_BlockHeader + MIN_BLOCK_SIZE
                   then total_size p - sizeof_BlockHeader else a)
             /\ used_bytes w' = size (load (heap w') (memory p))).
Proof.
  intros Hos Hinit.
  destruct (init_is_initial_world _ _ _ _ _ _ Hos Hinit)
    as (base & T & nm' & -> & Hb & HT & Hend).
  set (al' := if 0 <? al then al else DEFAULT_ALIGNMENT) in *.
  set (w := initial_world base T al' nm') in *.
  destruct (pool w) as [p|] eqn:Hp; [|discriminate Hp].
  exists p. split; [done|].
  assert (pool_signature p = POOL_SIGNATURE /\ memory p = base
          /\ total_size p = T /\ used_size p = 0 /\ alignment p = al')
    as (Hsig & Hmem & Htot & Hused & Hal).
  { cbn [w initial_world pool] in Hp. injection Hp as <-. done. }
  rewrite Hmem, Htot, Hal. intros a.
  pose proof (align_size_range sz al') as Ha. fold a in Ha.
  assert (load (heap w) base = initial_block T) as Hl
    by (unfold w, load; cbn [initial_world heap];
        by rewrite lookup_singleton_eq).
  unfold sizeof_BlockHeader, MIN_BLOCK_SIZE in *.
  split.
  - intros Hfail. unfold memory_pool_alloc, alloc_body.
    rewrite Hp, Hsig, Z.eqb_refl, Hal, Htot, Hused. cbn [negb orb]. fold a.
    destruct (sz =? 0) eqn:Ez; [done|]. apply Z.eqb_neq in Ez.
    destruct Hfail as [Hz|Hbig]; [done|].
    destruct (wrap (T - 0) <? wrap (a + sizeof_BlockHeader)); [done|].
    rewrite (initial_find_best_block _ _ _ _ _ _ Hp Hb HT) by lia.
    unfold sizeof_BlockHeader.
    assert ((a <=? T - 48) = false) as -> by (apply Z.leb_gt; lia). done.
  - intros Hz Hfit.
    assert ((sz =? 0) = false) as Hz0 by (by apply Z.eqb_neq).
    pose proof (reachable_well_formed os w Hos
                  (reach_init os _ _ _ _ _ Hinit)) as Hw.
    destruct (alloc_body w sz) as [[[best sr] w']|] eqn:E.
    2:{ exfalso. unfold alloc_body in E.
        rewrite Hp, Hsig, Z.eqb_refl, Hal, Htot, Hused in E.
        cbn [negb orb] in E. fold a in E.
        rewrite Hz0 in E.
        destruct (wrap (T - 0) <? wrap (a + sizeof_BlockHeader));
          [discriminate E|].
        rewrite (initial_find_best_block _ _ _ _ _ _ Hp Hb HT) in E by lia.
        destruct (a <=? _); [|discriminate E].
        rewrite eqb_NULL_false in E by (unfold NULL; lia).
        by destruct (split_block _ _ _). }
    assert (best = base) as ->.
    { unfold alloc_body in E.
      rewrite Hp, Hsig, Z.eqb_refl, Hal, Htot, Hused in E.
      cbn [negb orb] in E. fold a in E.
      rewrite Hz0 in E.
      rewrite Z.sub_0_r, (wrap_small T), (wrap_small (a + sizeof_BlockHeader))
        in E by (unfold sizeof_BlockHeader; lia).
      assert ((T <? a + sizeof_BlockHeader) = false) as Hchk
        by (apply Z.ltb_ge; unfold sizeof_BlockHeader; lia).
      rewrite Hchk in E.
      rewrite (initial_find_best_block _ _ _ _ _ _ Hp Hb HT) in E by lia.
      unfold sizeof_BlockHeader in E.
      assert ((a <=? T - 48) = true) as Hle by (apply Z.leb_le; lia).
      rewrite Hle in E.
      rewrite eqb_NULL_false in E by (unfold NULL; lia).
      destruct (split_block _ _ _). by injection E as <- _ _. }
    assert (base <> NULL) as Hbn by (unfold NULL; lia).
    exists w'. split.
    { unfold memory_pool_alloc. rewrite E, (eqb_NULL_false _ Hbn).
      unfold sizeof_BlockHeader. by rewrite wrap_small by lia. }
    destruct (alloc_body_post _ _ _ _ _ Hw E Hbn)
      as (p0 & p' & Hp0 & Hp' & _ & _ & _ & _ & _ & _ & _ & _ & Hfree & _).
    split; [done|].
    destruct (alloc_body_pool _ _ _ _ _ _ Hp E Hbn) as (p1 & Hl1 & Hp1).
    apply lists_only_fields in Hl1 as (_ & _ & _ & Hu1 & _).
    assert (size (load (heap w') base)
            = if T - 48 - a <? 48 + 16 then T - 48 else a) as Hsize.
    { unfold alloc_body in E.
      rewrite Hp, Hsig, Z.eqb_refl, Hal, Htot, Hused in E.
      cbn [negb orb] in E. fold a in E.
      rewrite Hz0 in E.
      destruct (wrap (T - 0) <? wrap (a + sizeof_BlockHeader));
        [by injection E as E _ _|].
      rewrite (initial_find_best_block _ _ _ _ _ _ Hp Hb HT) in E by lia.
      unfold sizeof_BlockHeader in E.
      assert ((a <=? T - 48) = true) as Hle by (apply Z.leb_le; lia).
      rewrite Hle in E. rewrite (eqb_NULL_false _ Hbn) in E.
      set (j := get_free_list_index (T - 48)) in E.
      destruct (remove_from_free_list_lists w base j p Hp)
        as (pr & Hpr & Hlr).
      apply lists_only_fields in Hlr as (_ & _ & _ & _ & _ & Halr & _).
      destruct (split_block (remove_from_free_list w base j) base a)
        as [sr' w2] eqn:Es.
      eapply split_block_size_exact in Es; [|exact Hpr|].
      2:{ destruct Hw as (pw & Hpw & _ & _ & _ & Hbd).
          rewrite (remove_from_free_list_valid _ _ _ _ _ _ Hpw Hbd).
          apply validate_block_true.
          rewrite Hl. simpl. unfold sizeof_BlockHeader.
          repeat split; try done; lia. }
      rewrite remove_from_free_list_sizes, Hl, Halr, Hal in Es.
      fold a in Es. unfold a in Es at 1 2. rewrite align_size_idempotent in Es.
      fold a in Es. cbn [size initial_block] in Es.
      unfold sizeof_BlockHeader, MIN_BLOCK_SIZE in Es.
      rewrite (wrap_small (T - 48 - a)) in Es by lia.
      injection E as _ <-. unfold upd_pool, with_heap. cbn [heap].
      rewrite size_store_keeps by apply set_is_free_extent.
      destruct (sr' =? NULL); [done|].
      by rewrite add_to_free_list_sizes. }
    split; [exact Hsize|].
    unfold used_bytes. rewrite Hp1. unfold account_alloc. cbv zeta.
    match goal with |- context [if ?c then _ else _] => destruct c end;
      cbn [used_size set_peak_usage set_num_allocations set_used_size];
      rewrite Hu1, Hused, Z.add_0_l; apply wrap_small;
      rewrite Hsize; destruct (T - 48 - a <? 48 + 16); lia.
Qed.

(** X27 (the first allocation).  On a pool fresh from a successful init,
    [memory_pool_alloc] of a size below 2^64 fails, changing nothing, when
    the size is 0 or the rounded size plus one header exceeds the region;
    otherwise it returns the address one header above the base of the
    region, and the block there is marked in use and has the rounded size
    as payload, or the whole region less its header when the remainder
    would be smaller than 64 bytes; [used_size] is that payload. *)
Theorem first_allocation_starts_the_region os w0 sz0 al nm w sz :
  os_ok os -> memory_pool_init os w0 sz0 al nm = (true, w) ->
  exists p,
    pool w = Some p
    /\ let a := align_size sz (alignment p) in
       (sz = 0 \/ total_size p < a + sizeof_BlockHeader ->
        memory_pool_alloc w sz = Some (NULL, w))
       /\ (sz <> 0 -> a + sizeof_BlockHeader <= total_size p ->
           exists w',
             memory_pool_alloc w sz
             = Some (memory p + sizeof_BlockHeader, w')
             /\ is_free (load (heap w') (memory p)) = false
             /\ size (load (heap w') (memory p))
                = (if total_size p - sizeof_BlockHeader - a
                      <? sizeof_BlockHeader + MIN_BLOCK_SIZE
                   then total_size p - sizeof_BlockHeader else a)
             /\ used_bytes w' = size (load (heap w') (memory p))).
Proof. apply first_allocation. Qed.

(** X28 (a size that wraps around).  On a fresh pool of at least 112 bytes
    whose alignment is a power of two, a request for a size within the
    alignment of 2^64 is not refused: its rounded size is 0, so
    [memory_pool_alloc] returns the start of the region with a payload of
    0 bytes, and because a header with size 0 is not intact,
    [memory_pool_free] rejects the pointer it was given. *)
Theorem alloc_of_a_wrapping_size_succeeds os w0 sz0 k nm w sz :
  os_ok os -> 0 <= k < 64 ->
  memory_pool_init os w0 sz0 (2 ^ k) nm = (true, w) ->
  2 ^ 64 - 2 ^ k < sz < 2 ^ 64 ->
  exists p,
    pool w = Some p
    /\ (112 <= total_size p ->
        exists w',
          memory_pool_alloc w sz = Some (memory p + sizeof_BlockHeader, w')
          /\ size (load (heap w') (memory p)) = 0
          /\ memory_pool_free w' (memory p + sizeof_BlockHeader)
             = Some (FreeInvalidHeader, w')).
Proof.
  intros Hos Hk Hinit Hsz.
  assert (0 < 2 ^ k) as Hpos by (apply Z.pow_pos_nonneg; lia).
  assert (2 ^ k < 2 ^ 64) as Hlt by (apply Z.pow_lt_mono_r; lia).
  destruct (first_allocation os w0 sz0 (2 ^ k) nm w sz Hos Hinit)
    as (p & Hp & _ & Hok).
  exists p. split; [done|]. intros Hbig.
  destruct (init_is_initial_world _ _ _ _ _ _ Hos Hinit)
    as (base & T & nm' & Hw & Hb & HT & Hend).
  assert (memory p = base /\ total_size p = T /\ alignment p = 2 ^ k)
    as (Hmem & Htot & Hal).
  { rewrite Hw in Hp. cbn [initial_world pool] in Hp. injection Hp as <-.
    cbn [memory total_size alignment set_free_list set_free_lists].
    by assert ((0 <? 2 ^ k) = true) as -> by (by apply Z.ltb_lt). }
  assert (align_size sz (alignment p) = 0) as Ha
    by (rewrite Hal; apply align_size_overflow; lia).
  rewrite Ha in Hok. unfold sizeof_BlockHeader, MIN_BLOCK_SIZE in *.
  destruct Hok as (w' & Halloc & _ & Hsize & _); [lia|lia|].
  assert ((total_size p - 48 - 0 <? 48 + 16) = false) as Hsplit
    by (apply Z.ltb_ge; lia).
  rewrite Hsplit in Hsize.
  exists w'. split; [done|]. split; [done|].
  pose proof (reachable_well_formed os w' Hos
                (reach_alloc os _ _ _ _ (reach_init os _ _ _ _ _ Hinit) Halloc))
    as (p' & Hp' & Hsig' & _).
  unfold memory_pool_free. rewrite Hp', Hsig', Z.eqb_refl.
  rewrite eqb_NULL_false by (unfold NULL; lia). cbn [negb orb].
  unfold sizeof_BlockHeader.
  replace (memory p + 48 - 48) with (memory p) by lia.
  rewrite (wrap_small (memory p)) by lia.
  rewrite validate_block_corrupt by (right; right; done). done.
Qed.

(** ** Runs that only allocate *)

Lemma linked_ext m m' : forall L b,
  (forall x, x ∈ L -> next (load m' x) = next (load m x)) ->
  linked m b L -> linked m' b L.
Proof.
  induction L as [|x L IH]; intros b Hn H; [done|].
  destruct H as (-> & Hx & H). split; [done|]. split; [done|].
  rewrite (Hn x) by (apply elem_of_cons; by left).
  apply IH; [|done]. intros y Hy. apply Hn. apply elem_of_cons. by right.
Qed.

Lemma linked_last m : forall used b r,
  linked m b (used ++ [r]) -> r <> NULL /\ next (load m r) = NULL.
Proof.
  induction used as [|x used IH]; intros b r H.
  - by destruct H as (_ & Hr & H).
  - destruct H as (_ & _ & H). by eapply IH.
Qed.

Lemma linked_snoc m m' r r' : forall used b,
  linked m b (used ++ [r]) ->
  (forall x, x ∈ used -> next (load m' x) = next (load m x)) ->
  next (load m' r) = r' -> r' <> NULL -> next (load m' r') = NULL ->
  linked m' b (used ++ [r; r']).
Proof.
  induction used as [|x used IH]; intros b H Hn Hr Hr' Hl.
  - destruct H as (-> & Hx & _). simpl. rewrite Hr, Hl. done.
  - destruct H as (-> & Hx & H). split; [done|]. split; [done|].
    rewrite (Hn x) by (apply elem_of_cons; by left).
    apply IH; try done. intros y Hy. apply Hn. apply elem_of_cons. by right.
Qed.

Lemma linked_nodes m : forall L b,
  linked m b L -> list_nodes (S (length L)) m b = Some L.
Proof.
  induction L as [|x L IH]; intros b H.
  - simpl in H. subst b. done.
  - destruct H as (-> & Hx & H). apply list_nodes_cons; [done|]. by apply IH.
Qed.

Lemma contiguous_ext m m' : forall L s e,
  (forall x, x ∈ L -> size (load m' x) = size (load m x)) ->
  contiguous m s L e -> contiguous m' s L e.
Proof.
  induction L as [|x L IH]; intros s e Hn H; [done|].
  destruct H as (-> & Hx & H). cbn [contiguous].
  rewrite (Hn s) by (apply elem_of_cons; by left).
  split; [done|]. split; [done|].
  apply IH; [|done]. intros y Hy. apply Hn. apply elem_of_cons. by right.
Qed.

Lemma contiguous_snoc m m' r r' a : forall used s e,
  contiguous m s (used ++ [r]) e ->
  (forall x, x ∈ used -> size (load m' x) = size (load m x)) ->
  size (load m' r) = a -> 0 <= a ->
  r' = r + sizeof_BlockHeader + a ->
  size (load m' r') = size (load m r) - a - sizeof_BlockHeader ->
  0 <= size (load m' r') ->
  contiguous m' s (used ++ [r; r']) e.
Proof.
  induction used as [|x used IH]; intros s e H Hn Hr Ha Hr' Hs Hs0.
  - destruct H as (-> & Hx & H). simpl in H. simpl.
    rewrite Hr, Hs. repeat split; try done; lia.
  - destruct H as (-> & Hx & H). cbn [app contiguous].
    rewrite (Hn s) by (apply elem_of_cons; by left).
    split; [done|]. split; [done|].
    apply IH; try done. intros y Hy. apply Hn. apply elem_of_cons. by right.
Qed.

(** The blocks before the last one lie below it, and the last one ends at
    [stop]. *)
Lemma contiguous_last m : forall used s e r,
  contiguous m s (used ++ [r]) e ->
  s <= r /\ (forall x, x ∈ used -> s <= x < r)
  /\ 0 <= size (load m r) /\ r + sizeof_BlockHeader + size (load m r) = e.
Proof.
  induction used as [|x used IH]; intros s e r H.
  - destruct H as (-> & Hx & H). simpl in H. split; [lia|]. split; [|done].
    intros x Hin. by apply elem_of_nil in Hin.
  - destruct H as (-> & Hx & H). apply IH in H as (H1 & H2 & H3 & H4).
    unfold sizeof_BlockHeader in *. split; [lia|]. split; [|done].
    intros y Hy. apply elem_of_cons in Hy as [->|Hy]; [lia|].
    specialize (H2 y Hy). lia.
Qed.

Lemma contiguous_measure m : forall L s e,
  contiguous m s L e ->
  covered_length m L = e - s
  /\ 0 <= in_use_total m L <= e - s
  /\ sizeof_BlockHeader * Z.of_nat (length L) <= e - s.
Proof.
  induction L as [|x L IH]; intros s e H.
  - simpl in H. subst e. simpl. lia.
  - destruct H as (-> & Hx & H). apply IH in H as (H1 & H2 & H3).
    cbn [covered_length in_use_total fold_right length].
    fold (covered_length m L). fold (in_use_total m L).
    unfold sizeof_BlockHeader in *.
    destruct (is_free (load m s)); lia.
Qed.

Lemma in_use_total_app m L1 L2 :
  in_use_total m (L1 ++ L2) = in_use_total m L1 + in_use_total m L2.
Proof.
  induction L1 as [|x L1 IH]; [done|].
  cbn [app in_use_total fold_right]. fold (in_use_total m (L1 ++ L2)).
  fold (in_use_total m L1). rewrite IH. destruct (is_free (load m x)); lia.
Qed.

Lemma in_use_total_ext m m' : forall L,
  (forall x, x ∈ L -> load m' x = load m x) ->
  in_use_total m' L = in_use_total m L.
Proof.
  induction L as [|x L IH]; intros Hn; [done|].
  cbn [in_use_total fold_right]. fold (in_use_total m L).
  fold (in_use_total m' L).
  rewrite (Hn x) by (apply elem_of_cons; by left).
  rewrite IH; [done|]. intros y Hy. apply Hn. apply elem_of_cons. by right.
Qed.

Lemma in_use_ext m m' L :
  (forall x, x ∈ L -> load m' x = load m x) ->
  Forall (in_use m) L -> Forall (in_use m') L.
Proof.
  intros Hn H. apply Forall_forall. intros x Hx.
  rewrite Forall_forall in H. unfold in_use. rewrite (Hn x Hx). by apply H.
Qed.

Lemma no_free_neighbours m : forall used r,
  Forall (in_use m) used -> has_free_neighbours m (used ++ [r]) = false.
Proof.
  induction used as [|x used IH]; intros r H; [done|].
  apply Forall_cons in H as [Hx H]. unfold in_use in Hx.
  cbn [app has_free_neighbours].
  destruct (used ++ [r]) as [|y l] eqn:E.
  - by destruct used.
  - rewrite Hx. cbn [andb orb]. rewrite <- E. by apply IH.
Qed.

Lemma no_free_neighbours_all m : forall L,
  Forall (in_use m) L -> has_free_neighbours m L = false.
Proof.
  induction L as [|x L IH]; intros H; [done|].
  apply Forall_cons in H as [Hx H]. unfold in_use in Hx.
  cbn [has_free_neighbours]. destruct L as [|y l]; [done|].
  rewrite Hx. cbn [andb orb]. by apply IH.
Qed.

(** *** The search when at most one block is free *)

Lemma single_bucket p m r i :
  free_heads p m (Some r) -> 0 <= i -> r <> NULL -> next (load m r) = NULL ->
  bucket_nodes p m i
  = Some (if i =? get_free_list_index (size (load m r)) then [r] else []).
Proof.
  intros Hh Hi Hr Hn. unfold bucket_nodes. rewrite (Hh i Hi).
  unfold list_fuel. destruct (i =? _); [|done].
  cbn [list_nodes]. by rewrite (eqb_NULL_false _ Hr), Hn.
Qed.

Lemma single_examined p m r n :
  free_heads p m (Some r) -> r <> NULL -> next (load m r) = NULL ->
  forall i, 0 <= i ->
    examined_from n p m i
    = Some (if (i <=? get_free_list_index (size (load m r)))
               && (get_free_list_index (size (load m r)) <? i + Z.of_nat n)
            then [(r, get_free_list_index (size (load m r)))]
            else []).
Proof.
  intros Hh Hr Hn. set (j := get_free_list_index (size (load m r))).
  induction n as [|n IH]; intros i Hi.
  - cbn [examined_from]. f_equal.
    destruct (i <=? j) eqn:E1; [|done]. apply Z.leb_le in E1.
    assert ((j <? i + Z.of_nat 0) = false) as -> by (apply Z.ltb_ge; lia). done.
  - cbn [examined_from].
    rewrite (single_bucket _ _ _ _ Hh Hi Hr Hn), (IH (i + 1)) by lia.
    fold j. f_equal.
    destruct (i =? j) eqn:E; [apply Z.eqb_eq in E | apply Z.eqb_neq in E].
    + subst i.
      assert ((j + 1 <=? j) = false) as -> by (apply Z.leb_gt; lia).
      assert ((j <=? j) = true) as -> by (apply Z.leb_le; lia).
      assert ((j <? j + Z.of_nat (S n)) = true) as -> by (apply Z.ltb_lt; lia).
      done.
    + cbn [map app].
      destruct (i <=? j) eqn:E1; [apply Z.leb_le in E1 | apply Z.leb_gt in E1].
      * assert ((i + 1 <=? j) = true) as -> by (apply Z.leb_le; lia).
        cbn [andb].
        replace (i + 1 + Z.of_nat n) with (i + Z.of_nat (S n)) by lia. done.
      * assert ((i + 1 <=? j) = false) as -> by (apply Z.leb_gt; lia). done.
Qed.

Lemma single_find_best_block p m r a :
  free_heads p m (Some r) -> r <> NULL -> next (load m r) = NULL ->
  find_best_block p m a
  = Some (if eligible m a r
          then (r, get_free_list_index (size (load m r)))
          else (NULL, 0)).
Proof.
  intros Hh Hr Hn. unfold find_best_block.
  pose proof (get_free_list_index_range a) as Hs.
  pose proof (get_free_list_index_range (size (load m r))) as Hj.
  assert (0 <= get_free_list_index a) as Hs0 by lia.
  rewrite (scan_lists_pick p m a _ (get_free_list_index a) NULL 0 _
             (eq_refl false) (single_examined _ _ _ _ Hh Hr Hn _ Hs0)).
  f_equal. destruct (eligible m a r) eqn:He.
  - pose proof He as He'. apply eligible_true in He' as (_ & _ & Hfit).
    pose proof (class_le _ _ Hfit) as Hle.
    assert ((get_free_list_index a
             <=? get_free_list_index (size (load m r))) = true) as ->
      by (apply Z.leb_le; lia).
    assert ((get_free_list_index (size (load m r))
             <? get_free_list_index a
                + Z.of_nat (Z.to_nat (MAX_FREE_LISTS - get_free_list_index a)))
            = true) as -> by (apply Z.ltb_lt; unfold MAX_FREE_LISTS; lia).
    cbn [andb pick]. rewrite He. change (NULL =? NULL) with true.
    cbn [orb]. by destruct (_ =? a).
  - destruct (_ && _); [|done]. cbn [pick]. by rewrite He.
Qed.

Lemma none_examined p m n :
  free_heads p m None ->
  forall i, 0 <= i -> examined_from n p m i = Some [].
Proof.
  intros Hh. induction n as [|n IH]; intros i Hi; [done|].
  cbn [examined_from]. unfold bucket_nodes. rewrite (Hh i Hi).
  unfold list_fuel. cbn [list_nodes]. change (NULL =? NULL) with true.
  cbv iota. by rewrite (IH (i + 1)) by lia.
Qed.

Lemma none_find_best_block p m a :
  free_heads p m None -> find_best_block p m a = Some (NULL, 0).
Proof.
  intros Hh. unfold find_best_block.
  pose proof (get_free_list_index_range a) as Hs.
  assert (0 <= get_free_list_index a) as Hs0 by lia.
  by rewrite (scan_lists_pick p m a _ (get_free_list_index a) NULL 0 _
                (eq_refl false) (none_examined _ _ _ Hh _ Hs0)).
Qed.

(** *** The three steps of an allocation that takes the only free block *)

Lemma remove_only_entry w p r :
  pool w = Some p -> length (free_lists p) = Z.to_nat MAX_FREE_LISTS ->
  free_heads p (heap w) (Some r) -> r <> NULL ->
  next (load (heap w) r) = NULL -> prev (load (heap w) r) = NULL ->
  exists p1 m1,
    remove_from_free_list w r (get_free_list_index (size (load (heap w) r)))
    = mkWorld (Some p1) m1
    /\ (forall x, load m1 x = load (heap w) x)
    /\ lists_only p p1
    /\ num_blocks p1 = num_blocks p
    /\ free_heads p1 m1 None.
Proof.
  intros Hp Hlen Hh Hr Hn Hpv.
  pose proof (get_free_list_index_range (size (load (heap w) r))) as Hj.
  set (j := get_free_list_index (size (load (heap w) r))) in *.
  assert (head (free_list p j) = r) as Hhead.
  { rewrite (Hh j) by lia. fold j. by rewrite Z.eqb_refl. }
  unfold remove_from_free_list. rewrite Hp, (eqb_NULL_false _ Hr).
  assert ((MAX_FREE_LISTS <=? j) = false) as ->
    by (apply Z.leb_gt; unfold MAX_FREE_LISTS; lia).
  cbn [orb]. cbv zeta. rewrite Hhead, Z.eqb_refl, !Hn.
  change (NULL =? NULL) with true. cbv iota. rewrite !Hpv.
  change (NULL =? NULL) with true. cbv iota.
  eexists _, _. split; [reflexivity|].
  assert (forall x,
             load (store r (set_prev NULL) (store r (set_next NULL) (heap w))) x
             = load (heap w) x) as Hload.
  { intros x. destruct (decide (x = r)) as [->|Hx].
    - rewrite !load_store_eq. unfold set_prev, set_next.
      cbn [signature size is_free next prev magic].
      rewrite (header_eta (load (heap w) r)) at 5. by rewrite Hn, Hpv.
    - by rewrite !load_store_ne. }
  split; [exact Hload|]. split.
  { eapply lists_only_trans; apply lists_only_free_list. }
  split; [done|].
  intros i Hi.
  assert ((Z.to_nat j < length (free_lists p))%nat) as Hin
    by (rewrite Hlen; unfold MAX_FREE_LISTS; lia).
  destruct (decide (i = j)) as [->|Hne].
  - rewrite free_list_set_eq; [|lia|].
    2:{ unfold set_free_list. cbn [free_lists set_free_lists].
        by rewrite length_insert. }
    by rewrite free_list_set_eq by (lia || done).
  - rewrite !free_list_set_ne by lia. rewrite (Hh i Hi). fold j.
    by assert ((i =? j) = false) as -> by (by apply Z.eqb_neq).
Qed.

Lemma split_only_entry w p r a :
  pool w = Some p -> validate_block (heap w) r = true ->
  next (load (heap w) r) = NULL ->
  0 < r -> r + sizeof_BlockHeader + size (load (heap w) r) < 2 ^ 64 ->
  align_size a (alignment p) = a -> 0 <= a <= size (load (heap w) r) ->
  let rest := size (load (heap w) r) - a in
  let r' := r + sizeof_BlockHeader + a in
  if rest <? sizeof_BlockHeader + MIN_BLOCK_SIZE
  then split_block w r a = (NULL, w)
  else
    exists m4,
      split_block w r a
      = (r', mkWorld (Some (set_num_blocks (wrap (num_blocks p + 1)) p)) m4)
      /\ load m4 r = set_next r' (set_size a (load (heap w) r))
      /\ load m4 r'
         = mkBlockHeader BLOCK_SIGNATURE (rest - sizeof_BlockHeader) true NULL r
                         BLOCK_SIGNATURE
      /\ forall x, x <> r -> x <> r' -> load m4 x = load (heap w) x.
Proof.
  intros Hp Hv Hn Hr Hend Hal Ha rest r'.
  pose proof Hv as Hv'.
  apply validate_block_true in Hv' as (Hrn & Hs & Hm & Hz).
  unfold split_block. rewrite Hp, Hv, (eqb_NULL_false _ Hrn), Hal.
  cbn [negb orb]. fold rest.
  unfold sizeof_BlockHeader, MIN_BLOCK_SIZE in *.
  rewrite (wrap_small rest) by (unfold rest; lia).
  destruct (rest <? 48 + 16) eqn:E; [done|]. apply Z.ltb_ge in E.
  fold r'. rewrite (wrap_small r') by (unfold r', rest in *; lia).
  rewrite (wrap_small (rest - 48)) by (unfold rest in *; lia).
  assert (r' <> r) as Hne by (unfold r'; lia).
  rewrite load_store_eq, load_insert_ne by done.
  cbn [next set_size]. rewrite Hn. change (NULL =? NULL) with true. cbv iota.
  eexists. split; [reflexivity|]. split; [|split].
  - by rewrite !load_store_eq, load_insert_ne by done.
  - by rewrite !load_store_ne, load_insert_eq by done.
  - intros x Hx Hx'. by rewrite !load_store_ne, load_insert_ne by done.
Qed.

Lemma add_first_entry w p r' :
  pool w = Some p -> validate_block (heap w) r' = true ->
  head (free_list p (get_free_list_index (size (load (heap w) r')))) = NULL ->
  exists m6,
    add_to_free_list w r'
    = mkWorld
        (Some (set_free_list (get_free_list_index (size (load (heap w) r')))
                 (fun l => set_count (wrap (count l + 1)) (set_head r' l)) p))
        m6
    /\ load m6 r' = set_prev NULL (set_next NULL (load (heap w) r'))
    /\ forall x, x <> r' -> load m6 x = load (heap w) x.
Proof.
  intros Hp Hv Hh.
  assert (r' <> NULL) as Hr by (by apply validate_block_true in Hv as (? & _)).
  unfold add_to_free_list. rewrite Hp, Hv, (eqb_NULL_false _ Hr), Hh.
  cbn [negb orb]. change (NULL =? NULL) with true. cbv iota.
  eexists. split; [reflexivity|]. split.
  - by rewrite !load_store_eq.
  - intros x Hx. by rewrite !load_store_ne.
Qed.

Lemma free_list_account_alloc s p i :
  free_list (account_alloc s p) i = free_list p i.
Proof.
  unfold account_alloc. cbv zeta.
  by match goal with |- context [if ?c then _ else _] => destruct c end.
Qed.

Lemma account_alloc_fields s p :
  pool_signature (account_alloc s p) = pool_signature p
  /\ memory (account_alloc s p) = memory p
  /\ total_size (account_alloc s p) = total_size p
  /\ first_block (account_alloc s p) = first_block p
  /\ free_lists (account_alloc s p) = free_lists p
  /\ num_blocks (account_alloc s p) = num_blocks p
  /\ used_size (account_alloc s p) = wrap (used_size p + s).
Proof.
  unfold account_alloc. cbv zeta.
  by match goal with |- context [if ?c then _ else _] => destruct c end.
Qed.

Lemma chain_from_list_nodes m : forall n b l,
  list_nodes n m b = Some l -> chain_from n m b = l.
Proof.
  induction n as [|n IH]; intros b l H; simpl in H; [discriminate H|].
  simpl. destruct (b =? NULL); [by injection H as <-|].
  destruct (list_nodes n m (next (load m b))) as [l'|] eqn:E; [|discriminate H].
  injection H as <-. by rewrite (IH _ _ E).
Qed.

Lemma validate_block_ext m m' b :
  load m' b = load m b -> validate_block m' b = validate_block m b.
Proof. intros H. unfold validate_block. by rewrite H. Qed.

(** How an allocation that takes the last block of the chain ends: the
    block is marked in use and accounted for; [rest] is the new free block
    split off behind it, if any. *)
Lemma alloc_only_close p p3 m mF used r a (rest : option Z) :
  pool_signature p = POOL_SIGNATURE -> first_block p = memory p ->
  0 < memory p -> memory p + total_size p < 2 ^ 64 ->
  length (free_lists p) = Z.to_nat MAX_FREE_LISTS ->
  linked m (memory p) (used ++ [r]) ->
  contiguous m (memory p) (used ++ [r]) (memory p + total_size p) ->
  used_size p = in_use_total m (used ++ [r]) ->
  num_blocks p = Z.of_nat (length (used ++ [r])) ->
  Forall (in_use m) used -> is_free (load m r) = true ->
  lists_only p p3 ->
  (forall x, x ∈ used -> load mF x = load m x) ->
  is_free (load mF r) = false -> size (load mF r) = a -> 0 <= a ->
  match rest with
  | None =>
      a = size (load m r) /\ next (load mF r) = NULL
      /\ num_blocks p3 = num_blocks p
      /\ free_heads p3 mF None
  | Some r' =>
      r' = r + sizeof_BlockHeader + a /\ next (load mF r) = r'
      /\ load mF r'
         = mkBlockHeader BLOCK_SIGNATURE
             (size (load m r) - a - sizeof_BlockHeader) true NULL NULL
             BLOCK_SIGNATURE
      /\ sizeof_BlockHeader + MIN_BLOCK_SIZE <= size (load m r) - a
      /\ num_blocks p3 = wrap (num_blocks p + 1)
      /\ free_heads p3 mF (Some r')
  end ->
  alloc_only_inv (mkWorld (Some (account_alloc a p3)) mF).
Proof.
  intros Hsig Hfb Hm0 Hend Hlen Hlink Hcont Hused Hnb Hin Hfree Hlo Hsame
         Hfr Hsz Ha Hrest.
  destruct (lists_only_fields _ _ Hlo)
    as (Hsig3 & Hmem3 & Htot3 & Hus3 & _ & _ & _ & _ & Hfb3).
  pose proof (lists_only_length _ _ Hlo) as Hlen3.
  destruct (account_alloc_fields a p3)
    as (HsigF & HmemF & HtotF & HfbF & HflF & HnbF & HusF).
  destruct (linked_last _ _ _ _ Hlink) as [Hr Hn].
  destruct (contiguous_last _ _ _ _ _ Hcont) as (Hlow & Hbelow & Hs0 & Hstop).
  assert (in_use_total m (used ++ [r]) = in_use_total m used) as Hold.
  { rewrite in_use_total_app. cbn [in_use_total fold_right].
    rewrite Hfree. lia. }
  assert (in_use_total mF used = in_use_total m used) as Hkeep
    by (by apply in_use_total_ext).
  assert (Forall (in_use mF) (used ++ [r])) as HinF.
  { apply Forall_app. split; [by eapply in_use_ext|].
    by apply Forall_singleton. }
  unfold sizeof_BlockHeader, MIN_BLOCK_SIZE in *.
  destruct rest as [r'|].
  - destruct Hrest as (Hr' & Hnx & Hld & Hbig & Hnb3 & Hh).
    assert (forall x, x ∈ used -> x <> r') as Hne
      by (intros x Hx; specialize (Hbelow x Hx); lia).
    assert (linked mF (memory p) (used ++ [r; r'])) as HlinkF.
    { apply (linked_snoc m mF r r' used (memory p) Hlink).
      - intros x Hx. by rewrite Hsame.
      - done.
      - unfold NULL. lia.
      - by rewrite Hld. }
    assert (contiguous mF (memory p) (used ++ [r; r'])
              (memory p + total_size p)) as HcontF.
    { apply (contiguous_snoc m mF r r' a used _ _ Hcont).
      - intros x Hx. by rewrite Hsame.
      - done.
      - done.
      - done.
      - rewrite Hld. cbn [size]. unfold sizeof_BlockHeader. lia.
      - rewrite Hld. cbn [size]. lia. }
    destruct (contiguous_measure _ _ _ _ HcontF) as (_ & Hbound & Hcount).
    assert (in_use_total mF (used ++ [r; r']) = in_use_total m used + a) as Hnew.
    { rewrite in_use_total_app, Hkeep. cbn [in_use_total fold_right].
      rewrite Hfr, Hsz, Hld. cbn [is_free]. lia. }
    exists (account_alloc a p3), (used ++ [r; r']).
    rewrite HsigF, HmemF, HtotF, HfbF, HnbF, HusF, Hsig3, Hmem3, Htot3,
      Hus3, Hfb3, Hnb3, Hused, Hold, Hnb.
    cbn [pool heap]. repeat (split; [done|]).
    split; [by rewrite HflF, Hlen3|].
    repeat (split; [done|]).
    split; [rewrite Hnew; apply wrap_small; lia|].
    split.
    { rewrite !length_app in *. cbn [length] in *. unfold sizeof_BlockHeader in *.
      rewrite wrap_small by lia. lia. }
    left. exists (used ++ [r]), r'.
    split; [by rewrite <- app_assoc|]. split; [done|].
    split.
    { apply validate_block_true. rewrite Hld. cbn [signature magic size].
      repeat split; try done; [unfold NULL|]; lia. }
    split; [by rewrite Hld|]. split; [by rewrite Hld|].
    intros i Hi. rewrite free_list_account_alloc. by apply Hh.
  - destruct Hrest as (Ha' & Hnx & Hnb3 & Hh).
    assert (linked mF (memory p) (used ++ [r])) as HlinkF.
    { eapply linked_ext; [|exact Hlink]. intros x Hx.
      apply elem_of_app in Hx as [Hx|Hx]; [by rewrite Hsame|].
      apply list_elem_of_singleton in Hx as ->. by rewrite Hnx, Hn. }
    assert (contiguous mF (memory p) (used ++ [r])
              (memory p + total_size p)) as HcontF.
    { eapply contiguous_ext; [|exact Hcont]. intros x Hx.
      apply elem_of_app in Hx as [Hx|Hx]; [by rewrite Hsame|].
      apply list_elem_of_singleton in Hx as ->. by rewrite Hsz. }
    destruct (contiguous_measure _ _ _ _ HcontF) as (_ & Hbound & Hcount).
    assert (in_use_total mF (used ++ [r]) = in_use_total m used + a) as Hnew.
    { rewrite in_use_total_app, Hkeep. cbn [in_use_total fold_right].
      rewrite Hfr, Hsz. lia. }
    exists (account_alloc a p3), (used ++ [r]).
    rewrite HsigF, HmemF, HtotF, HfbF, HnbF, HusF, Hsig3, Hmem3, Htot3,
      Hus3, Hfb3, Hnb3, Hused, Hold, Hnb.
    cbn [pool heap]. repeat (split; [done|]).
    split; [by rewrite HflF, Hlen3|].
    repeat (split; [done|]).
    split; [rewrite Hnew; apply wrap_small; lia|].
    split; [done|].
    right. split; [done|].
    intros i Hi. rewrite free_list_account_alloc. by apply Hh.
Qed.

Lemma alloc_only_step w sz ptr w' :
  alloc_only_inv w -> memory_pool_alloc w sz = Some (ptr, w') ->
  alloc_only_inv w'.
Proof.
  intros (p & L & Hp & Hsig & Hfb & Hm0 & Hend & Hlen & Hlink & Hcont
          & Hused & Hnb & Hshape) H.
  assert (alloc_only_inv w) as Hinv by (exists p, L; tauto).
  unfold memory_pool_alloc in H.
  destruct (alloc_body w sz) as [[[best sr] w1]|] eqn:E; [|discriminate H].
  injection H as _ <-.
  destruct (decide (best = NULL)) as [->|Hbest].
  { by rewrite (alloc_body_null _ _ _ _ E). }
  unfold alloc_body in E. rewrite Hp, Hsig, Z.eqb_refl in E. cbn [negb orb] in E.
  destruct (sz =? 0); [by simplify_eq|]. cbv zeta in E.
  set (a := align_size sz (alignment p)) in *.
  destruct (wrap (total_size p - used_size p) <? wrap (a + sizeof_BlockHeader));
    [by simplify_eq|].
  destruct Hshape as [(used & r & -> & Hin & Hv & Hfree & Hpv & Hh)|[Hin Hh]].
  2:{ rewrite (none_find_best_block _ _ _ Hh) in E.
      change (NULL =? NULL) with true in E. cbv iota in E.
      by simplify_eq. }
  destruct (linked_last _ _ _ _ Hlink) as [Hr Hn].
  rewrite (single_find_best_block _ _ _ _ Hh Hr Hn) in E.
  destruct (eligible (heap w) a r) eqn:He;
    [|change (NULL =? NULL) with true in E; cbv iota in E; by simplify_eq].
  rewrite (eqb_NULL_false _ Hr) in E.
  apply eligible_true in He as (_ & _ & Hfit).
  destruct (contiguous_last _ _ _ _ _ Hcont) as (Hlo & Hbelow & Hs0 & Hstop).
  destruct (remove_only_entry w p r Hp Hlen Hh Hr Hn Hpv)
    as (p1 & m1 & Hrem & Hload1 & Hlo1 & Hnb1 & Hh1).
  rewrite Hrem in E.
  destruct (lists_only_fields _ _ Hlo1) as (_ & _ & _ & _ & _ & Hal1 & _).
  pose proof (align_size_range sz (alignment p)) as Harange. fold a in Harange.
  assert (validate_block m1 r = true) as Hv1
    by (by rewrite (validate_block_ext (heap w))).
  pose proof (split_only_entry (mkWorld (Some p1) m1) p1 r a eq_refl Hv1)
    as Hsplit.
  cbn [heap] in Hsplit. rewrite !Hload1 in Hsplit.
  specialize (Hsplit Hn).
  unfold sizeof_BlockHeader, MIN_BLOCK_SIZE in *.
  assert (0 < r) as Hrpos by lia.
  assert (r + 48 + size (load (heap w) r) < 2 ^ 64) as Hrend by lia.
  assert (align_size a (alignment p1) = a) as Hidem
    by (rewrite Hal1; apply align_size_idempotent).
  specialize (Hsplit Hrpos Hrend Hidem (conj (proj1 Harange) Hfit)).
  cbv zeta in Hsplit.
  destruct (size (load (heap w) r) - a <? 48 + 16) eqn:Esp.
  - rewrite Hsplit in E. change (NULL =? NULL) with true in E. cbv iota in E.
    unfold upd_pool, with_heap in E. cbn [pool heap fmap option_fmap option_map] in E.
    injection E as _ _ <-.
    apply Z.ltb_lt in Esp.
    set (mF := store r (set_is_free false) m1).
    change (alloc_only_inv
              (mkWorld (Some (account_alloc (size (load mF r)) p1)) mF)).
    assert (load mF r = set_is_free false (load (heap w) r)) as HFr
      by (unfold mF; by rewrite load_store_eq, Hload1).
    assert (forall x, x <> r -> load mF x = load (heap w) x) as HFx
      by (intros x Hx; unfold mF; by rewrite load_store_ne, Hload1).
    apply (alloc_only_close p p1 (heap w) mF used r _ None); try done.
    + intros x Hx. apply HFx. specialize (Hbelow x Hx). lia.
    + by rewrite HFr.
    + rewrite HFr. cbn [size set_is_free]. lia.
    + rewrite HFr. cbn [size next set_is_free]. done.
  - apply Z.ltb_ge in Esp.
    destruct Hsplit as (m4 & Hsplit & H4r & H4r' & H4x).
    set (r' := r + 48 + a) in *.
    assert (r' <> NULL) as Hr' by (unfold r', NULL; lia).
    assert (r' <> r) as Hrr' by (unfold r'; lia).
    rewrite Hsplit, (eqb_NULL_false _ Hr') in E.
    set (p2 := set_num_blocks (wrap (num_blocks p1 + 1)) p1) in *.
    assert (validate_block m4 r' = true) as Hv4.
    { apply validate_block_true. rewrite H4r'. cbn [signature magic size].
      repeat split; try done. lia. }
    assert (forall i, free_list p2 i = free_list p1 i) as Hfl2 by done.
    pose proof (get_free_list_index_range (size (load m4 r'))) as Hj.
    destruct (add_first_entry (mkWorld (Some p2) m4) p2 r' eq_refl Hv4)
      as (m6 & Hadd & H6r' & H6x).
    { cbn [heap]. rewrite Hfl2. apply Hh1. lia. }
    cbn [heap] in Hadd, H6r', H6x. rewrite Hadd in E.
    unfold upd_pool, with_heap in E. cbn [pool heap fmap option_fmap option_map] in E.
    injection E as _ _ <-.
    set (mF := store r (set_is_free false) m6).
    set (j := get_free_list_index (size (load m4 r'))) in *.
    set (p3 := set_free_list j
                 (fun l => set_count (wrap (count l + 1)) (set_head r' l)) p2).
    change (alloc_only_inv
              (mkWorld (Some (account_alloc (size (load mF r)) p3)) mF)).
    assert (load mF r
            = set_is_free false (set_next r' (set_size a (load (heap w) r))))
      as HFr.
    { unfold mF. by rewrite load_store_eq, H6x, H4r by done. }
    assert (load mF r'
            = mkBlockHeader BLOCK_SIGNATURE
                (size (load (heap w) r) - a - 48) true NULL NULL
                BLOCK_SIGNATURE) as HFr'.
    { unfold mF. rewrite load_store_ne, H6r', H4r' by done.
      unfold set_prev, set_next. cbn [signature size is_free next prev magic].
      f_equal. }
    assert (forall x, x <> r -> x <> r' -> load mF x = load (heap w) x) as HFx.
    { intros x Hx Hx'. unfold mF.
      by rewrite load_store_ne, H6x, H4x, Hload1 by done. }
    assert (size (load mF r) = a) as HFs by (by rewrite HFr).
    rewrite HFs.
    apply (alloc_only_close p p3 (heap w) mF used r a (Some r')); try done.
    + eapply lists_only_trans; [exact Hlo1|].
      eapply lists_only_trans;
        [apply lists_only_num_blocks | apply lists_only_free_list].
    + intros x Hx. specialize (Hbelow x Hx). apply HFx; unfold r'; lia.
    + by rewrite HFr.
    + lia.
    + split; [done|]. split; [by rewrite HFr|]. split; [done|].
      split; [unfold sizeof_BlockHeader, MIN_BLOCK_SIZE; lia|].
      split; [by rewrite <- Hnb1|].
      intros i Hi. rewrite HFr'. cbn [size].
      assert (size (load m4 r') = size (load (heap w) r) - a - 48) as Hs4
        by (by rewrite H4r').
      fold j in Hs4 |- *. rewrite <- Hs4. fold j.
      assert ((Z.to_nat j < length (free_lists p2))%nat) as Hin2.
      { change (free_lists p2) with (free_lists p1).
        rewrite (lists_only_length _ _ Hlo1), Hlen. unfold MAX_FREE_LISTS. lia. }
      destruct (i =? j) eqn:Eij; [apply Z.eqb_eq in Eij | apply Z.eqb_neq in Eij].
      * subst i. unfold p3. by rewrite free_list_set_eq by (lia || done).
      * unfold p3. rewrite free_list_set_ne by lia. rewrite Hfl2.
        apply Hh1. lia.
Qed.

Lemma alloc_only_init os w0 sz al nm w :
  os_ok os -> memory_pool_init os w0 sz al nm = (true, w) ->
  alloc_only_inv w.
Proof.
  intros Hos H.
  destruct (init_is_initial_world _ _ _ _ _ _ Hos H)
    as (base & T & nm' & -> & Hbase & HT & Hend).
  set (al' := if 0 <? al then al else DEFAULT_ALIGNMENT).
  assert (load {[ base := initial_block T ]} base = initial_block T) as Hld
    by (unfold load; by rewrite lookup_singleton_eq).
  assert (base <> NULL) as Hb by (unfold NULL; lia).
  pose proof (get_free_list_index_range (T - sizeof_BlockHeader)) as Hj.
  eexists _, [base]. split; [reflexivity|].
  unfold sizeof_BlockHeader in *.
  cbn [heap initial_world linked contiguous in_use_total fold_right length].
  rewrite !Hld.
  repeat split; try done.
  - unfold set_free_list. cbn [free_lists set_free_lists].
    rewrite length_insert. unfold empty_lists. by rewrite length_replicate.
  - cbn [initial_block size]. unfold sizeof_BlockHeader. lia.
  - unfold set_free_list.
    cbn [memory total_size set_free_lists initial_block size].
    unfold sizeof_BlockHeader. lia.
  - left. exists [], base. rewrite Hld. repeat split; try done.
    + apply validate_block_true. rewrite Hld.
      cbn [initial_block signature magic size]. unfold sizeof_BlockHeader.
      repeat split; try done. lia.
    + intros i Hi. rewrite Hld. cbn [initial_block size].
      by apply (initial_head base T al' nm').
Qed.

Lemma allocated_alloc_only os w :
  os_ok os -> allocated os w -> alloc_only_inv w.
Proof.
  intros Hos H. induction H as [w0 sz al nm w H|w sz ptr w' _ IH H].
  - by eapply alloc_only_init.
  - by eapply alloc_only_step.
Qed.

(** X30 (runs that only allocate).  In every state reached from a
    successful [memory_pool_init] by calls of [memory_pool_alloc] alone,
    the chain of blocks from [first_block] covers the region exactly, the
    sizes of its blocks in use add up to [used_size], no two neighbours on
    it are both free, and [num_blocks] is its length. *)
Theorem allocation_only_runs_keep_the_chain os w :
  os_ok os -> allocated os w ->
  exists p,
    pool w = Some p
    /\ covered_length (heap w) (block_chain w) = total_size p
    /\ in_use_total (heap w) (block_chain w) = used_size p
    /\ has_free_neighbours (heap w) (block_chain w) = false
    /\ num_blocks p = Z.of_nat (length (block_chain w)).
Proof.
  intros Hos H.
  destruct (allocated_alloc_only _ _ Hos H)
    as (p & L & Hp & Hsig & Hfb & Hm0 & Hend & Hlen & Hlink & Hcont
        & Hused & Hnb & Hshape).
  assert (block_chain w = L) as ->.
  { unfold block_chain. rewrite Hp, Hfb. apply chain_from_list_nodes.
    eapply list_nodes_fuel. by apply linked_nodes. }
  destruct (contiguous_measure _ _ _ _ Hcont) as (Hcov & _ & _).
  exists p. split; [done|]. split; [lia|]. split; [done|]. split; [|done].
  destruct Hshape as [(used & r & -> & Hin & _)|[Hin _]].
  - by apply no_free_neighbours.
  - by apply no_free_neighbours_all.
Qed.

(** ** The search of [memory_pool_alloc] *)

(** C5 as amended (allocation search order).  Let the free lists of the
    buckets from [get_free_list_index] of the rounded size up to 31 be
    null-terminated, and let [l] list their blocks in that order.  Then
    [memory_pool_alloc] finishes its search, every examined bucket index
    lies between the starting class and 31, and either no examined block
    is a candidate (valid header, free, payload at least the rounded size)
    and nothing is selected, or the selected block is a candidate whose
    payload is strictly smaller than that of every candidate examined
    before it and at most that of every candidate in the rest of [l],
    whichever bucket those lie in.  In particular a perfect fit is taken
    where it is first met, and a candidate in a lower bucket does not keep
    a smaller one in a higher bucket from being selected. *)
Theorem alloc_search_selects_smallest_fit w p sz a l :
  pool w = Some p -> pool_signature p = POOL_SIGNATURE -> sz <> 0 ->
  a = align_size sz (alignment p) ->
  (wrap (total_size p - used_size p) <? wrap (a + sizeof_BlockHeader)) = false ->
  examined p (heap w) a = Some l ->
  (forall b i, (b, i) ∈ l -> get_free_list_index a <= i < MAX_FREE_LISTS)
  /\ exists best sr w',
       alloc_body w sz = Some (best, sr, w')
       /\ ((best = NULL
            /\ forall b i, (b, i) ∈ l -> eligible (heap w) a b = false)
           \/ exists bi l1 l2,
                l = l1 ++ (best, bi) :: l2
                /\ eligible (heap w) a best = true
                /\ (forall b i, (b, i) ∈ l1 -> eligible (heap w) a b = true ->
                                size (load (heap w) best) < size (load (heap w) b))
                /\ (forall b i, (b, i) ∈ l2 -> eligible (heap w) a b = true ->
                                size (load (heap w) best) <= size (load (heap w) b))).
Proof.
  intros Hp Hsig Hsz Ha Hroom Hex. split.
  - intros b i Hin. unfold examined in Hex.
    pose proof (get_free_list_index_range a) as Hr.
    pose proof (examined_from_range _ _ _ _ _ _ _ Hex Hin) as Hi.
    unfold MAX_FREE_LISTS in *. lia.
  - assert (find_best_block p (heap w) a = Some (pick (heap w) a l NULL 0)) as Hf.
    { unfold find_best_block. apply scan_lists_pick; [done|exact Hex]. }
    unfold alloc_body. rewrite Hp.
    apply Z.eqb_eq in Hsig. apply Z.eqb_neq in Hsz.
    rewrite Hsig, Hsz. cbn [negb orb]. rewrite <- Ha, Hroom, Hf.
    destruct (pick_spec (heap w) a l NULL 0 (or_introl eq_refl))
      as [[Hr Hall]|(l1 & l2 & Hl & He & _ & H1 & H2)].
    + rewrite Hr. cbn [Z.eqb NULL]. eexists _, _, _. split; [reflexivity|].
      left. split; [done|]. intros b i Hin.
      destruct (eligible (heap w) a b) eqn:E; [|done].
      by destruct (Hall b i Hin E).
    + destruct (pick (heap w) a l NULL 0) as [best bi]. simpl in *.
      rewrite (eqb_NULL_false _ (eligible_not_null _ _ _ He)).
      destruct (split_block _ best a) as [sr w2].
      eexists _, _, _. split; [reflexivity|].
      right. by exists bi, l1, l2.
Qed.

(** ** Scripts stay among the reachable states *)

Lemma demo_os_ok : os_ok demo_os.
Proof.
  split.
  - exists 12. split; [lia | reflexivity].
  - intros len a H. simpl in H.
    destruct (0 <? len) eqn:E1; [|discriminate H].
    destruct (len <=? 2 ^ 32) eqn:E2; [|discriminate H].
    injection H as <-. apply Z.ltb_lt in E1. apply Z.leb_le in E2. lia.
Qed.

Lemma fresh_reachable sz al :
  fst (memory_pool_init demo_os blank_world sz al (Some "t1"%string)) = true ->
  reachable demo_os (fresh sz al).
Proof.
  intros H. unfold fresh.
  destruct (memory_pool_init demo_os blank_world sz al (Some "t1"%string))
    as [r w] eqn:E.
  simpl in *. subst r. eapply reach_init. exact E.
Qed.

Lemma run_calls_reachable os calls : forall w ptrs w' ptrs',
  reachable os w -> run_calls calls w ptrs = Some (w', ptrs') ->
  reachable os w'.
Proof.
  induction calls as [|c calls IH]; intros w ptrs w' ptrs' Hr Hrun;
    simpl in Hrun.
  - congruence.
  - destruct c as [sz|k].
    + destruct (memory_pool_alloc w sz) as [[ptr w1]|] eqn:E; [|discriminate Hrun].
      eapply IH; [|exact Hrun]. eapply reach_alloc; eauto.
    + destruct (memory_pool_free w (nth k ptrs NULL)) as [[r w1]|] eqn:E;
        [|discriminate Hrun].
      eapply IH; [|exact Hrun]. eapply reach_free; eauto.
Qed.

Lemma after_reachable calls :
  run_calls calls (fresh 4096 8) [] <> None -> reachable demo_os (after calls).
Proof.
  intros H. unfold after.
  destruct (run_calls calls (fresh 4096 8) []) as [[w ptrs]|] eqn:E; [|done].
  eapply run_calls_reachable; [|exact E]. by apply fresh_reachable.
Qed.

(** ** Behaviour on concrete scripts *)

(** C1 (round-trip identity).  On a 4 KiB arena with alignment 8, after
    alloc(1000), alloc(2000), free of the first and free of the second
    pointer the arena passes [validate_pool].  A further alloc(2000)
    succeeds, and freeing its result at once restores [used_size], yet the
    walk from [first_block] now cycles and [validate_pool] fails. *)
Theorem roundtrip_breaks_validation :
  let w := after [Alloc 1000; Alloc 2000; Free 0; Free 1] in
  reachable demo_os w
  /\ validate_pool w = true
  /\ exists p w1 w2,
       memory_pool_alloc w 2000 = Some (p, w1) /\ p <> NULL
       /\ memory_pool_free w1 p = Some (FreeDone, w2)
       /\ used_bytes w2 = used_bytes w
       /\ validate_pool w2 = false.
Proof.
  split; [apply after_reachable; by vm_compute|].
  split; [vm_compute; reflexivity|].
  do 3 eexists.
  split; [vm_compute; reflexivity|].
  split; [vm_compute; discriminate|].
  split; [vm_compute; reflexivity|].
  split; vm_compute; reflexivity.
Qed.

(** C2 (coalescing completeness).  After alloc(1000), alloc(1000),
    alloc(16) and the frees of the second, third and first pointer, the
    last free completes and leaves the blocks at offsets 0 and 2096
    consecutive in the chain from [first_block], physically adjacent and
    both free. *)
Theorem free_leaves_free_neighbours :
  let w5 := after [Alloc 1000; Alloc 1000; Alloc 16; Free 1; Free 2] in
  let base := 0x10000 in
  reachable demo_os w5
  /\ exists w,
       memory_pool_free w5 (base + 48) = Some (FreeDone, w)
       /\ block_chain w = [base; base + 2096; base + 2160]
       /\ is_free (load (heap w) base) = true
       /\ is_free (load (heap w) (base + 2096)) = true
       /\ adjacent (heap w) base (base + 2096) = true
       /\ has_free_neighbours (heap w) (block_chain w) = true.
Proof.
  split; [apply after_reachable; by vm_compute|].
  eexists. split; [vm_compute; reflexivity|].
  repeat split; vm_compute; reflexivity.
Qed.

(** C3 (used-byte accounting).  After alloc(16), alloc(16) and the free of
    the first pointer, [used_size] is 16 (the second block, at offset 64,
    is in use with payload 16), but the chain from [first_block] holds only
    the freed block, its in-use total is 0, and [validate_pool] fails. *)
Theorem used_size_disagrees_with_chain :
  let w := after [Alloc 16; Alloc 16; Free 0] in
  let base := 0x10000 in
  reachable demo_os w
  /\ used_bytes w = 16
  /\ is_free (load (heap w) (base + 64)) = false
  /\ size (load (heap w) (base + 64)) = 16
  /\ block_chain w = [base]
  /\ in_use_total (heap w) (block_chain w) = 0
  /\ validate_pool w = false.
Proof.
  split; [apply after_reachable; by vm_compute|].
  repeat split; vm_compute; reflexivity.
Qed.

(** C4 (chain exhaustiveness).  After alloc(16), alloc(16) and the free of
    the first pointer, the chain from [first_block] is the single block at
    the base, so it covers 48 + 16 = 64 bytes of the 4096-byte region. *)
Theorem chain_does_not_cover_region :
  let w := after [Alloc 16; Alloc 16; Free 0] in
  reachable demo_os w
  /\ (total_size <$> pool w) = Some 4096
  /\ block_chain w = [0x10000]
  /\ covered_length (heap w) (block_chain w) = 64.
Proof.
  split; [apply after_reachable; by vm_compute|].
  repeat split; vm_compute; reflexivity.
Qed.

(** C6 (payload alignment).  An arena initialised with alignment 32 at the
    page-aligned base 0x10000 answers alloc(1) with the address
    0x10000 + 48, which is 16 modulo 32. *)
Theorem payload_misaligned_for_alignment_32 :
  let w := fresh 4096 32 in
  reachable demo_os w
  /\ (alignment <$> pool w) = Some 32
  /\ exists p w',
       memory_pool_alloc w 1 = Some (p, w')
       /\ p = 0x10000 + 48
       /\ p mod 32 = 16.
Proof.
  split; [apply fresh_reachable; by vm_compute|].
  split; [vm_compute; reflexivity|].
  do 2 eexists. split; [vm_compute; reflexivity|].
  split; vm_compute; reflexivity.
Qed.

(** Counterexample to C5 as stated.  After alloc(2000), free, alloc(16),
    alloc(1000), free of the second and third pointer and alloc(2000) the
    arena passes [validate_pool].  For alloc(8) the search starts at bucket
    0, whose list holds the candidates at offsets 2048 (payload 2000) and
    2112 (payload 1936); it goes on to the higher buckets and selects the
    block at offset 3160 (payload 888) of bucket 6, where "first bucket
    with a candidate wins" selects offset 2112 in bucket 0. *)
Lemma search_continues_past_first_fit :
  let w := after [Alloc 2000; Free 0; Alloc 16; Alloc 1000; Free 1; Free 2;
                  Alloc 2000] in
  let base := 0x10000 in
  reachable demo_os w
  /\ validate_pool w = true
  /\ exists p,
       pool w = Some p
       /\ align_size 8 (alignment p) = 8
       /\ get_free_list_index 8 = 0
       /\ bucket_nodes p (heap w) 0 = Some [base + 2048; base + 2112]
       /\ eligible (heap w) 8 (base + 2112) = true
       /\ find_best_block p (heap w) 8 = Some (base + 3160, 6)
       /\ spec_find_best_block p (heap w) 8 = Some (base + 2112, 0)
       /\ (fst <$> memory_pool_alloc w 8) = Some (base + 3160 + 48).
Proof.
  split; [apply after_reachable; by vm_compute|].
  split; [vm_compute; reflexivity|].
  eexists. split; [vm_compute; reflexivity|].
  repeat split; vm_compute; reflexivity.
Qed.

(** Counterexample to C7 as stated: [memory_pool_init] with alignment 3,
    which is not a power of two, succeeds and stores 3 as the alignment. *)
Lemma init_accepts_alignment_3 :
  exists w,
    memory_pool_init demo_os blank_world 4096 3 (Some "t1"%string) = (true, w)
    /\ (alignment <$> pool w) = Some 3.
Proof.
  eexists. split; vm_compute; reflexivity.
Qed.

(** X5 (boundary calls).  [memory_pool_alloc] of zero bytes returns [NULL]
    and [memory_pool_free] of [NULL] reports nothing; both leave the world
    as it was. *)
Theorem zero_size_and_null_pointer_are_noops w :
  memory_pool_alloc w 0 = Some (NULL, w)
  /\ memory_pool_free w NULL = Some (FreeIgnored, w).
Proof.
  unfold memory_pool_alloc, alloc_body, memory_pool_free.
  destruct (pool w); [|done].
  cbn [Z.eqb NULL]. by rewrite !orb_true_r.
Qed.

(** X6 (scenario "split then coalesce").  On a 4096-byte arena with
    alignment 8, alloc(100) leaves 104 used bytes in 2 blocks, and freeing
    the pointer brings the arena back to 0 used bytes in 1 block; the
    validator passes in both states. *)
Theorem scenario_split_then_coalesce :
  let w1 := after [Alloc 100] in
  let w2 := after [Alloc 100; Free 0] in
  used_bytes w1 = 104 /\ (num_blocks <$> pool w1) = Some 2
  /\ validate_pool w1 = true
  /\ used_bytes w2 = 0 /\ (num_blocks <$> pool w2) = Some 1
  /\ validate_pool w2 = true.
Proof. repeat split; vm_compute; reflexivity. Qed.

(** X7 (scenario "best fit within class").  On a 64 KiB arena, after three
    allocations of 48 bytes and the free of the second, alloc(40) returns
    the address of the second allocation again. *)
Theorem scenario_best_fit_reuses_hole :
  exists w p1 p2 p3 p4,
    run_calls [Alloc 48; Alloc 48; Alloc 48; Free 1; Alloc 40]
              (fresh 65536 8) []
    = Some (w, [p1; p2; p3; p4])
    /\ p4 = p2 /\ p2 <> p1 /\ p2 <> p3 /\ p2 <> NULL.
Proof.
  do 5 eexists. split; [vm_compute; reflexivity|].
  repeat split; vm_compute; congruence.
Qed.

(** The hypothesis of null-terminated lists is not idle: after
    alloc(3000), free and alloc(3000) the block at offset 3048 is its own
    successor in bucket 6, and the search of a further alloc(16) runs
    through that list without end. *)
Lemma search_can_cycle :
  let w := after [Alloc 3000; Free 0; Alloc 3000] in
  reachable demo_os w
  /\ next (load (heap w) (0x10000 + 3048)) = 0x10000 + 3048
  /\ bucket_nodes (pool_of w) (heap w) 6 = None
  /\ memory_pool_alloc w 16 = None.
Proof.
  split; [apply after_reachable; by vm_compute|].
  repeat split; vm_compute; reflexivity.
Qed.

(** Headers are never removed from the region, so the last world of a
    script shows every header the script wrote: in all the scripts of this
    file the headers keep their distance. *)
Lemma scripts_keep_headers_apart :
  let final w calls := default blank_world (fst <$> run_calls calls w []) in
  Forall (fun w => headers_apart (heap w) = true)
    [ after [Alloc 1000; Alloc 2000; Free 0; Free 1; Alloc 2000; Free 2];
      after [Alloc 1000; Alloc 1000; Alloc 16; Free 1; Free 2; Free 0];
      after [Alloc 16; Alloc 16; Free 0];
      after [Alloc 2000; Free 0; Alloc 16; Alloc 1000; Free 1; Free 2;
             Alloc 2000; Alloc 8];
      after [Alloc 3000; Free 0; Alloc 3000];
      after [Alloc 100; Free 0];
      after [Alloc 32; Free 0; Free 0];
      after [Alloc 4048];
      final (fresh 4096 32) [Alloc 1];
      final (fresh 4096 16) [Alloc 100];
      final (fresh 65536 8) [Alloc 48; Alloc 48; Alloc 48; Free 1; Alloc 40] ].
Proof. intros final. repeat constructor; vm_compute; reflexivity. Qed.

(** ** Instances *)

Lemma alloc_search_selects_smallest_fit_witness :
  let w := after [Alloc 2000; Free 0; Alloc 16; Alloc 1000; Free 1; Free 2;
                  Alloc 2000] in
  let p := pool_of w in
  let l := default [] (examined p (heap w) 8) in
  (forall b i, (b, i) ∈ l -> get_free_list_index 8 <= i < MAX_FREE_LISTS)
  /\ exists best sr w',
       alloc_body w 8 = Some (best, sr, w')
       /\ ((best = NULL
            /\ forall b i, (b, i) ∈ l -> eligible (heap w) 8 b = false)
           \/ exists bi l1 l2,
                l = l1 ++ (best, bi) :: l2
                /\ eligible (heap w) 8 best = true
                /\ (forall b i, (b, i) ∈ l1 -> eligible (heap w) 8 b = true ->
                                size (load (heap w) best) < size (load (heap w) b))
                /\ (forall b i, (b, i) ∈ l2 -> eligible (heap w) 8 b = true ->
                                size (load (heap w) best) <= size (load (heap w) b))).
Proof.
  intros w p l.
  apply (alloc_search_selects_smallest_fit w p 8 8 l).
  - vm_compute; reflexivity.
  - vm_compute; reflexivity.
  - lia.
  - vm_compute; reflexivity.
  - vm_compute; reflexivity.
  - vm_compute; reflexivity.
Defined.

Lemma init_rejects_null_and_zero_witness :
  memory_pool_init demo_os blank_world 0 8 None = (false, blank_world)
  /\ exists w' p,
       memory_pool_init demo_os blank_world 4096 0 None = (true, w')
       /\ pool w' = Some p
       /\ alignment p = DEFAULT_ALIGNMENT.
Proof.
  split.
  - apply (proj1 (init_rejects_null_and_zero demo_os blank_world 0 8 None)).
    right. reflexivity.
  - apply (proj2 (init_rejects_null_and_zero demo_os blank_world 4096 0 None)
                 blank_pool 0x10000).
    + reflexivity.
    + lia.
    + vm_compute; reflexivity.
Defined.


Lemma free_corrupt_header_unchanged_witness :
  let ptr := 0x10000 + 48 in
  let w := smash_magic ptr (after [Alloc 32]) in
  (exists r, memory_pool_free w ptr = Some (r, w))
  /\ (forall p, pool w = Some p -> pool_signature p = POOL_SIGNATURE ->
                ptr <> NULL ->
                memory_pool_free w ptr = Some (FreeInvalidHeader, w)).
Proof.
  intros ptr w.
  apply (free_corrupt_header_unchanged w ptr).
  right. left. vm_compute. discriminate.
Defined.


Lemma demo_os_page_aligned : mmap_page_aligned demo_os.
Proof.
  intros len a H. simpl in H.
  destruct ((0 <? len) && (len <=? 2 ^ 32)); [|discriminate H].
  by injection H as <-.
Qed.



Lemma validate_pool_checks_used_size_witness :
  let w := after [Alloc 100] in
  exists p l,
    pool w = Some p
    /\ list_nodes (Z.to_nat 10002) (heap w) (first_block p) = Some l
    /\ Forall (fun b => validate_block (heap w) b = true) l
    /\ wrap (in_use_total (heap w) l) = wrap (used_size p).
Proof.
  intros w. apply (validate_pool_checks_used_size w). vm_compute; reflexivity.
Defined.

Lemma get_free_list_index_monotone_witness :
  0 <= get_free_list_index 100 <= get_free_list_index 5000
  /\ get_free_list_index 5000 < MAX_FREE_LISTS.
Proof.
  apply (get_free_list_index_monotone 100 5000). lia.
Defined.


(** ** Further instances *)

Lemma fresh_init :
  memory_pool_init demo_os blank_world 4096 8 (Some "t1"%string)
  = (true, fresh 4096 8).
Proof. vm_compute. reflexivity. Qed.

Lemma counted_fresh : counted demo_os (fresh 4096 8) 0 0.
Proof. eapply counted_init. exact fresh_init. Qed.

Lemma counted_after_alloc : counted demo_os (after [Alloc 100]) 1 0.
Proof.
  apply (counted_alloc demo_os (fresh 4096 8) 0 0 100 (0x10000 + 48)
           (after [Alloc 100]) counted_fresh).
  vm_compute. reflexivity.
Qed.

Lemma counted_after_free : counted demo_os (after [Alloc 100; Free 0]) 1 1.
Proof.
  apply (counted_free demo_os (after [Alloc 100]) 1 0 (0x10000 + 48) FreeDone
           (after [Alloc 100; Free 0]) counted_after_alloc).
  vm_compute. reflexivity.
Qed.

Lemma demo_allocator_bounded : allocator_bounded demo_allocator.
Proof.
  intros n H. cbn [demo_allocator can_allocate] in H.
  apply Z.ltb_lt in H. lia.
Qed.

Lemma align_size_rounds_up_witness :
  100 <= align_size 100 (2 ^ 3) < 100 + 2 ^ 3
  /\ align_size 100 (2 ^ 3) mod 2 ^ 3 = 0.
Proof.
  apply (proj1 (align_size_rounds_up 100 3 ltac:(lia) ltac:(lia))). lia.
Defined.

Lemma alloc_failure_changes_nothing_witness :
  after [Alloc 5000] = fresh 4096 8.
Proof.
  apply (alloc_failure_changes_nothing demo_os (fresh 4096 8) 5000 NULL
           (after [Alloc 5000]) demo_os_ok).
  - apply fresh_reachable. vm_compute; reflexivity.
  - vm_compute; reflexivity.
  - reflexivity.
Defined.


Lemma counters_count_successes_witness :
  exists p,
    pool (after [Alloc 100; Free 0]) = Some p
    /\ num_allocations p = wrap 1 /\ num_deallocations p = wrap 1.
Proof.
  apply (counters_count_successes demo_os (after [Alloc 100; Free 0]) 1 1
           demo_os_ok counted_after_free).
Defined.

Lemma init_gives_valid_pool_witness :
  exists p,
    pool (fresh 4096 8) = Some p
    /\ total_size p = align_size 4096 (getpagesize demo_os)
    /\ total_size p mod getpagesize demo_os = 0
    /\ (0 <= 4096 -> 4096 + getpagesize demo_os - 1 < 2 ^ 64 ->
        4096 <= total_size p)
    /\ used_size p = 0 /\ num_blocks p = 1
    /\ first_block p = memory p
    /\ load (heap (fresh 4096 8)) (memory p)
       = mkBlockHeader BLOCK_SIGNATURE (total_size p - sizeof_BlockHeader)
                       true NULL NULL BLOCK_SIGNATURE
    /\ block_chain (fresh 4096 8) = [memory p]
    /\ head (free_list p (get_free_list_index
                            (total_size p - sizeof_BlockHeader))) = memory p
    /\ validate_pool (fresh 4096 8) = true.
Proof.
  apply (init_gives_valid_pool demo_os blank_world 4096 8 (Some "t1"%string)
           (fresh 4096 8) demo_os_ok fresh_init).
Defined.

Lemma get_stats_reports_the_free_lists_witness :
  let w := after [Alloc 100] in
  let p := pool_of w in
  let l := default [] (examined_from (Z.to_nat MAX_FREE_LISTS) p (heap w) 0) in
  exists st,
    memory_pool_get_stats w (Some zero_stats) = Some (true, Some st)
    /\ Stats.current_usage st = used_size p
    /\ Stats.peak_usage st = peak_usage p
    /\ Stats.allocation_count st = num_allocations p
    /\ Stats.deallocation_count st = num_deallocations p
    /\ Stats.free_blocks st
       = wrap (sum_counts (Z.to_nat MAX_FREE_LISTS) p 0)
    /\ 0 <= Stats.largest_free_block st
    /\ (forall b i, (b, i) ∈ l ->
                    size (load (heap w) b) <= Stats.largest_free_block st)
    /\ (Stats.largest_free_block st = 0
        \/ exists b i, (b, i) ∈ l
                       /\ Stats.largest_free_block st = size (load (heap w) b)).
Proof.
  apply (get_stats_reports_the_free_lists (after [Alloc 100])
           (pool_of (after [Alloc 100]))
           (default [] (examined_from (Z.to_nat MAX_FREE_LISTS)
                          (pool_of (after [Alloc 100]))
                          (heap (after [Alloc 100])) 0))
           zero_stats).
  - vm_compute; reflexivity.
  - vm_compute; reflexivity.
  - vm_compute. discriminate.
  - vm_compute; reflexivity.
Defined.

Lemma dump_lists_the_validated_chain_witness :
  let w := after [Alloc 100] in
  exists p l,
    pool w = Some p
    /\ list_nodes (Z.to_nat 10002) (heap w) (first_block p) = Some l
    /\ dump_pool_layout w
       = Some (layout_lines (heap w) (take 1001 l) 0, (1001 <=? length l)%nat).
Proof.
  apply (dump_lists_the_validated_chain (after [Alloc 100])).
  vm_compute; reflexivity.
Defined.

Lemma destroy_warns_of_unreleased_blocks_witness :
  fst (memory_pool_destroy (after [Alloc 100])) = true <-> 1 <> 0.
Proof.
  apply (destroy_warns_of_unreleased_blocks demo_os (after [Alloc 100]) 1 0
           demo_os_ok counted_after_alloc); lia.
Defined.




Lemma darray_push_appends_witness :
  let a := DynamicArray.mk (replicate 16 Byte.x00) 2 2 8 in
  let e := replicate 8 Byte.x2a in
  exists r,
    darray_push demo_allocator (Some a) (Some e) = Some r
    /\ ((r = (false, Some a)
         /\ DynamicArray.size a = DynamicArray.capacity a)
        \/ exists a',
             r = (true, Some a')
             /\ darray_ok a'
             /\ DynamicArray.size a' = DynamicArray.size a + 1
             /\ DynamicArray.element_size a' = DynamicArray.element_size a
             /\ DynamicArray.capacity a'
                = (if DynamicArray.capacity a <=? DynamicArray.size a
                   then 2 * DynamicArray.capacity a
                   else DynamicArray.capacity a)
             /\ darray_get (Some a') (DynamicArray.size a)
                = Some (Some (take (Z.to_nat (DynamicArray.element_size a)) e))
             /\ forall i, 0 <= i < DynamicArray.size a ->
                          darray_get (Some a') i = darray_get (Some a) i).
Proof.
  apply (darray_push_appends demo_allocator
           (DynamicArray.mk (replicate 16 Byte.x00) 2 2 8)
           (replicate 8 Byte.x2a) demo_allocator_bounded).
  - unfold darray_ok. simpl. lia.
  - simpl. lia.
Defined.

Lemma first_allocation_starts_the_region_witness :
  exists p,
    pool (fresh 4096 8) = Some p
    /\ let a := align_size 100 (alignment p) in
       (100 = 0 \/ total_size p < a + sizeof_BlockHeader ->
        memory_pool_alloc (fresh 4096 8) 100 = Some (NULL, fresh 4096 8))
       /\ (100 <> 0 -> a + sizeof_BlockHeader <= total_size p ->
           exists w',
             memory_pool_alloc (fresh 4096 8) 100
             = Some (memory p + sizeof_BlockHeader, w')
             /\ is_free (load (heap w') (memory p)) = false
             /\ size (load (heap w') (memory p))
                = (if total_size p - sizeof_BlockHeader - a
                      <? sizeof_BlockHeader + MIN_BLOCK_SIZE
                   then total_size p - sizeof_BlockHeader else a)
             /\ used_bytes w' = size (load (heap w') (memory p))).
Proof.
  apply (first_allocation_starts_the_region demo_os blank_world 4096 8
           (Some "t1"%string) (fresh 4096 8) 100 demo_os_ok fresh_init).
Defined.

Lemma alloc_of_a_wrapping_size_succeeds_witness :
  exists p,
    pool (fresh 4096 8) = Some p
    /\ (112 <= total_size p ->
        exists w',
          memory_pool_alloc (fresh 4096 8) (2 ^ 64 - 1)
          = Some (memory p + sizeof_BlockHeader, w')
          /\ size (load (heap w') (memory p)) = 0
          /\ memory_pool_free w' (memory p + sizeof_BlockHeader)
             = Some (FreeInvalidHeader, w')).
Proof.
  apply (alloc_of_a_wrapping_size_succeeds demo_os blank_world 4096 3
           (Some "t1"%string) (fresh 4096 8) (2 ^ 64 - 1) demo_os_ok).
  - lia.
  - exact fresh_init.
  - lia.
Defined.


Lemma allocated_twice : allocated demo_os (after [Alloc 100; Alloc 200]).
Proof.
  eapply (allocated_alloc demo_os (after [Alloc 100]) 200).
  - eapply (allocated_alloc demo_os (fresh 4096 8) 100).
    + eapply allocated_init. exact fresh_init.
    + vm_compute. reflexivity.
  - vm_compute. reflexivity.
Qed.

Lemma allocation_only_runs_keep_the_chain_witness :
  let w := after [Alloc 100; Alloc 200] in
  exists p,
    pool w = Some p
    /\ covered_length (heap w) (block_chain w) = total_size p
    /\ in_use_total (heap w) (block_chain w) = used_size p
    /\ has_free_neighbours (heap w) (block_chain w) = false
    /\ num_blocks p = Z.of_nat (length (block_chain w)).
Proof.
  exact (allocation_only_runs_keep_the_chain demo_os
           (after [Alloc 100; Alloc 200]) demo_os_ok allocated_twice).
Defined.
